(** * WorldMedia: channel aggregation and resolution layer of [app.js]

    A shallow embedding of the pure core of [src/app.js] (slug derivation,
    country-code resolution, fragment merging, trash filtering, channel
    resolution, list filtering, the favorites forest and the deep-link
    reader), followed by the properties proved about it.

    Conventions of the embedding.
    - A JavaScript string is a Rocq [string] of ASCII characters.  The
      case mappings, [trim] and the regular-expression class [\s] are the
      ASCII restrictions of the JavaScript ones.
    - A field that may be absent ([undefined]/[null]) is an [option string];
      [x || d] is [orDefault x d].
    - [localStorage], the fetched documents and the id generator are explicit
      arguments; a function that returns before [setFavorites] yields [None].
*)

From Stdlib Require Import Ascii String List Bool Arith Lia Permutation.
From stdpp Require Import base option list gmap strings pretty.

Local Open Scope string_scope.
Local Open Scope list_scope.
Local Open Scope nat_scope.

(* ================================================================== *)
(** * Part I. The embedding                                            *)
(* ================================================================== *)

(** ** JavaScript string primitives (ASCII) *)

Module JS.

Definition code (c : ascii) : nat := nat_of_ascii c.

Definition isUpperChar (c : ascii) : bool := (65 <=? code c) && (code c <=? 90).
Definition isLowerChar (c : ascii) : bool := (97 <=? code c) && (code c <=? 122).
Definition isDigitChar (c : ascii) : bool := (48 <=? code c) && (code c <=? 57).

(** [\s] and the characters removed by [trim]: TAB, LF, VT, FF, CR, SPACE. *)
Definition isSpace (c : ascii) : bool :=
  ((9 <=? code c) && (code c <=? 13)) || (code c =? 32).

Definition isDash (c : ascii) : bool := code c =? 45.

Definition toLowerChar (c : ascii) : ascii :=
  if isUpperChar c then ascii_of_nat (code c + 32) else c.

Definition toUpperChar (c : ascii) : ascii :=
  if isLowerChar c then ascii_of_nat (code c - 32) else c.

Fixpoint mapChars (f : ascii -> ascii) (s : string) : string :=
  match s with
  | EmptyString => EmptyString
  | String c r => String (f c) (mapChars f r)
  end.

Definition toLowerCase : string -> string := mapChars toLowerChar.
Definition toUpperCase : string -> string := mapChars toUpperChar.

Definition isEmpty (s : string) : bool :=
  match s with EmptyString => true | _ => false end.

Fixpoint trimStart (s : string) : string :=
  match s with
  | EmptyString => EmptyString
  | String c r => if isSpace c then trimStart r else s
  end.

Fixpoint trimEnd (s : string) : string :=
  match s with
  | EmptyString => EmptyString
  | String c r =>
      let r' := trimEnd r in
      if isSpace c && isEmpty r' then EmptyString else String c r'
  end.

Definition trim (s : string) : string := trimEnd (trimStart s).

Fixpoint startsWith (p s : string) : bool :=
  match p, s with
  | EmptyString, _ => true
  | String a p', String b s' => Ascii.eqb a b && startsWith p' s'
  | String _ _, EmptyString => false
  end.

(** [hay.includes(needle)] *)
Fixpoint includes (hay needle : string) : bool :=
  startsWith needle hay ||
  match hay with
  | EmptyString => false
  | String _ r => includes r needle
  end.

(** [s.slice(0, n)] *)
Fixpoint sliceTo (n : nat) (s : string) : string :=
  match n, s with
  | S k, String c r => String c (sliceTo k r)
  | _, _ => EmptyString
  end.

(** [s.replace(/C/g, "")] for a character class [C]. *)
Fixpoint removeClass (p : ascii -> bool) (s : string) : string :=
  match s with
  | EmptyString => EmptyString
  | String c r => if p c then removeClass p r else String c (removeClass p r)
  end.

(** [s.replace(/C+/g, rep)] for a character class [C]: a left-to-right scan,
    [inRun] records that the previous character already belonged to the
    match being replaced. *)
Fixpoint replaceRunsFrom (p : ascii -> bool) (rep : string) (inRun : bool)
         (s : string) : string :=
  match s with
  | EmptyString => EmptyString
  | String c r =>
      if p c
      then (if inRun then replaceRunsFrom p rep true r
            else rep +:+ replaceRunsFrom p rep true r)
      else String c (replaceRunsFrom p rep false r)
  end.

Definition replaceRuns (p : ascii -> bool) (rep : string) (s : string) : string :=
  replaceRunsFrom p rep false s.

(** The [-$] alternative of [/^-|-$/g]: one dash at the very end. *)
Fixpoint dropLastDash (s : string) : string :=
  match s with
  | EmptyString => EmptyString
  | String c r =>
      if isDash c && isEmpty r then EmptyString else String c (dropLastDash r)
  end.

(** [s.replace(/^-|-$/g, "")]: the [^-] alternative can only match at index
    0, the [-$] alternative only on the last character, and the two matches
    never overlap because the scan resumes after the first one. *)
Definition stripEdgeDash (s : string) : string :=
  match s with
  | EmptyString => EmptyString
  | String c r => if isDash c then dropLastDash r else dropLastDash s
  end.

Fixpoint allChars (p : ascii -> bool) (s : string) : bool :=
  match s with
  | EmptyString => true
  | String c r => p c && allChars p r
  end.

(** [x || d] for a string-or-absent [x]: absent and [""] are falsy. *)
Definition orDefault (x : option string) (d : string) : string :=
  match x with
  | Some s => if isEmpty s then d else s
  | None => d
  end.

(** [x && x.trim()] followed by a truthiness test: the trimmed value when it
    is a non-empty string. *)
Definition trimmedNonEmpty (x : option string) : option string :=
  match x with
  | Some s => let t := trim s in if isEmpty t then None else Some t
  | None => None
  end.

End JS.

(** ** Channel records (one element of a fragment's [channels] array) *)

Record Channel : Type := mkChannel {
  ch_iso : option string;
  ch_name : option string;
  ch_description : option string;
  ch_logo : option string;
  ch_type : option string;
  ch_url : option string;
  ch_source : option string;
  ch_source_name : option string
}.

(** [channelSlug] (app.js, l.179). *)
Definition slugAllowed (c : ascii) : bool :=
  JS.isLowerChar c || JS.isDigitChar c || JS.isDash c.

Definition channelSlug (ch : Channel) : string :=
  let name := JS.toLowerCase (JS.orDefault (ch_name ch) "channel") in
  let s1 := JS.replaceRuns JS.isSpace "-" name in
  let s2 := JS.removeClass (fun c => negb (slugAllowed c)) s1 in
  let s3 := JS.replaceRuns JS.isDash "-" s2 in
  let s4 := JS.stripEdgeDash s3 in
  JS.orDefault (Some s4) "channel".

(** [(ch.iso || "").toUpperCase()] *)
Definition isoUpper (ch : Channel) : string :=
  JS.toUpperCase (JS.orDefault (ch_iso ch) "").

(** [findChannelBySlug] (l.184); an absent or empty [slug] finds nothing. *)
Definition findChannelBySlug (channels : list Channel) (slug : option string)
  : option Channel :=
  match slug with
  | None => None
  | Some sl =>
      if JS.isEmpty sl then None
      else
        let s := JS.toLowerCase sl in
        List.find (fun ch => String.eqb (channelSlug ch) s) channels
  end.

(** ** Trash store (l.379-425) *)

Record TrashEntry : Type := mkTrash {
  tr_iso : string;
  tr_slug : string;
  tr_name : string
}.

(** [isChannelInTrash], with the stored list passed in place of [getTrash()]. *)
Definition isChannelInTrash (trash : list TrashEntry) (iso slug : string) : bool :=
  let normIso := JS.toUpperCase iso in
  let normSlug := JS.toLowerCase slug in
  existsb (fun e => String.eqb (JS.toUpperCase (tr_iso e)) normIso
                    && String.eqb (JS.toLowerCase (tr_slug e)) normSlug) trash.

Definition addChannelToTrash (trash : list TrashEntry) (ch : Channel)
  : option (list TrashEntry) :=
  let iso := isoUpper ch in
  let slug := channelSlug ch in
  if isChannelInTrash trash iso slug then None
  else Some (trash ++ [mkTrash iso slug (JS.orDefault (ch_name ch) "Channel")]).

(** ** Country-code resolver (l.74-75, l.845) *)

Definition ISO3_TO_ISO2_FALLBACK : gmap string string :=
  list_to_map [("FRA", "FR"); ("PRT", "PT"); ("NOR", "NO");
               ("DEU", "DE"); ("GBR", "GB"); ("USA", "US")].

Definition ISO2_TO_ISO3 : gmap string string :=
  list_to_map [("FR", "FRA"); ("PT", "PRT"); ("NO", "NOR");
               ("DE", "DEU"); ("GB", "GBR"); ("US", "USA")].

Definition getChannelLoadCodes (countryCode : option string) : list string :=
  let code := JS.toUpperCase (JS.trim (JS.orDefault countryCode "")) in
  if JS.isEmpty code
     || (negb (String.length code =? 2) && negb (String.length code =? 3))
  then []
  else
    let iso2 :=
      if String.length code =? 2 then code
      else JS.orDefault (ISO3_TO_ISO2_FALLBACK !! code) code in
    let iso3 :=
      if String.length code =? 3 then Some code
      else ISO2_TO_ISO3 !! code in
    match iso3 with
    | Some c3 => if negb (JS.isEmpty c3) && negb (String.eqb c3 iso2)
                 then [iso2; c3] else [iso2]
    | None => [iso2]
    end.

(** ** Source feed loader (l.838, l.856-1011, l.1014-1060) *)

Definition CHANNEL_SOURCE_NAMES : list string :=
  ["iptv-org"; "free-tv-iptv"; "iprd"; "famelack-channels";
   "m3u-radio-music-playlists"; "insecam"; "windy"].

(** Outcome of [fetch(path)] followed by [res.json()]:
    [NotOk] is a response with [res.ok] false (the loop [continue]s),
    [Threw] a rejected fetch or an unparsable body (the exception leaves the
    loops), [OkJson c] a parsed document whose [channels] field is [c]. *)
Inductive FetchResult : Type :=
| NotOk
| Threw
| OkJson (channels : option (list Channel)).

(** Loop state: [allChannels] and [seenUrls]. *)
Record MergeState : Type := mkMerge {
  allChannels : list Channel;
  seenUrls : gset string
}.

Definition emptyMerge : MergeState := mkMerge [] ∅.

(** Body of [for (const ch of list)]. *)
Definition mergeChannel (st : MergeState) (ch : Channel) : MergeState :=
  match JS.trimmedNonEmpty (ch_url ch) with
  | Some url =>
      if decide (url ∈ seenUrls st) then st
      else mkMerge (allChannels st ++ [ch]) ({[url]} ∪ seenUrls st)
  | None => mkMerge (allChannels st ++ [ch]) (seenUrls st)
  end.

(** One iteration of the loop over paths: fetch, then merge the document. *)
Definition mergeFragment (fetch : string -> FetchResult) (path : string)
           (st : MergeState) : option MergeState :=
  match fetch path with
  | NotOk => Some st
  | Threw => None
  | OkJson c => Some (fold_left mergeChannel (default [] c) st)
  end.

Definition countryPath (code sourcename : string) : string :=
  "data/channels/" +:+ code +:+ "/" +:+ sourcename +:+ ".json".

(** [for (const sourcename of CHANNEL_SOURCE_NAMES)] for one [code]. *)
Fixpoint loadSources (fetch : string -> FetchResult) (code : string)
         (names : list string) (st : MergeState) : option MergeState :=
  match names with
  | [] => Some st
  | sourcename :: rest =>
      match mergeFragment fetch (countryPath code sourcename) st with
      | Some st' => loadSources fetch code rest st'
      | None => None
      end
  end.

(** [for (const code of codesToTry)]. *)
Fixpoint loadCodes (fetch : string -> FetchResult) (codes : list string)
         (st : MergeState) : option MergeState :=
  match codes with
  | [] => Some st
  | code :: rest =>
      match loadSources fetch code CHANNEL_SOURCE_NAMES st with
      | Some st' => loadCodes fetch rest st'
      | None => None
      end
  end.

(** The trash filter of l.908 and l.1056. *)
Definition notInTrash (trash : list TrashEntry) (ch : Channel) : bool :=
  negb (isChannelInTrash trash (isoUpper ch) (channelSlug ch)).

(** [allChannels] as it stands when the loops of [loadChannelsForCountry]
    end; [None] when an exception reached the [catch]. *)
Definition mergedCountryFeed (fetch : string -> FetchResult)
           (countryCode : option string) : option (list Channel) :=
  allChannels <$> loadCodes fetch (getChannelLoadCodes countryCode) emptyMerge.

(** [loadChannelsForCountry]: the [channels] that are listed (and handed to
    [onChannelsLoaded]); every empty state, the [catch] included, lists
    nothing. *)
Definition loadChannelsForCountry (fetch : string -> FetchResult)
           (trash : list TrashEntry) (countryCode : option string)
  : list Channel :=
  match mergedCountryFeed fetch countryCode with
  | Some all => List.filter (notInTrash trash) all
  | None => []
  end.

(** [for (const url of paths)] of [loadChannelsForCategory]. *)
Fixpoint loadPaths (fetch : string -> FetchResult) (paths : list string)
         (st : MergeState) : option MergeState :=
  match paths with
  | [] => Some st
  | url :: rest =>
      match mergeFragment fetch url st with
      | Some st' => loadPaths fetch rest st'
      | None => None
      end
  end.

Section Category.

(** The browser's [encodeURIComponent]. *)
Variable encodeURIComponent : string -> string.

Definition categoryPath (categoryName s : string) : string :=
  "data/cat_channels/" +:+ encodeURIComponent categoryName +:+ "/" +:+ s +:+ ".json".

Definition categoryPaths (categoryName : string) : list string :=
  List.map (categoryPath categoryName) CHANNEL_SOURCE_NAMES.

Definition mergedCategoryFeed (fetch : string -> FetchResult)
           (categoryName : string) : option (list Channel) :=
  allChannels <$> loadPaths fetch (categoryPaths categoryName) emptyMerge.

Definition loadChannelsForCategory (fetch : string -> FetchResult)
           (trash : list TrashEntry) (categoryName : string) : list Channel :=
  match mergedCategoryFeed fetch categoryName with
  | Some all => List.filter (notInTrash trash) all
  | None => []
  end.

End Category.

(** ** Filter engine (l.788-814) over the rendered list items (l.916-950) *)

(** What [applyChannelFilters] reads from one [li.channel-item]. *)
Record ChannelItem : Type := mkItem {
  data_type : string;              (* attribute data-type *)
  data_source : string;            (* attribute data-source *)
  name_text : string;              (* textContent of .channel-item-name *)
  source_text : option string;     (* textContent of .channel-item-source, if created *)
  filtered_out : bool              (* class filtered-out *)
}.

(** [String(ch.type || "tv").toLowerCase().trim()] *)
Definition typeNorm (ch : Channel) : string :=
  JS.trim (JS.toLowerCase (JS.orDefault (ch_type ch) "tv")).

(** [(ch.source_name && String(ch.source_name).trim()) || ""] *)
Definition sourceNorm (ch : Channel) : string :=
  default "" (JS.trimmedNonEmpty (ch_source_name ch)).

Definition ellipsis : string := "…".

(** The label put in [.channel-item-source] (l.940-947). *)
Definition sourceLabel (ch : Channel) : option string :=
  let src := JS.trimmedNonEmpty (ch_source ch) in
  if negb (JS.isEmpty (sourceNorm ch)) || bool_decide (is_Some src) then
    let text := if JS.isEmpty (sourceNorm ch) then default "" src else sourceNorm ch in
    Some (if 28 <? String.length text then JS.sliceTo 26 text +:+ ellipsis else text)
  else None.

(** The list item built for one channel by the loop of l.916. *)
Definition renderChannelItem (ch : Channel) : ChannelItem :=
  {| data_type := typeNorm ch;
     data_source := sourceNorm ch;
     name_text := JS.orDefault (ch_name ch) "Channel";
     source_text := sourceLabel ch;
     filtered_out := false |}.

(** The filter controls: the [data-filter-value] of the active type and source
    toggles ([""] is the "All" toggle) and the value of the text box. *)
Record FilterState : Type := mkFilter {
  selectedType : string;
  selectedSource : string;
  filterText : string
}.

(** Body of the [forEach] of [applyChannelFilters]. *)
Definition filterItem (f : FilterState) (li : ChannelItem) : ChannelItem :=
  let search := JS.toLowerCase (JS.trim (filterText f)) in
  let typeOk := JS.isEmpty (selectedType f) || String.eqb (data_type li) (selectedType f) in
  let sourceOk :=
    JS.isEmpty (selectedSource f)
    || (negb (JS.isEmpty (data_source li))
        && String.eqb (data_source li) (selectedSource f)) in
  let nameStr := JS.toLowerCase (name_text li) in
  let sourceStr := JS.toLowerCase (default "" (source_text li)) in
  let textOk := JS.isEmpty search || JS.includes nameStr search
                || JS.includes sourceStr search in
  {| data_type := data_type li;
     data_source := data_source li;
     name_text := name_text li;
     source_text := source_text li;
     filtered_out := negb (typeOk && sourceOk && textOk) |}.

Definition applyChannelFilters (f : FilterState) (items : list ChannelItem)
  : list ChannelItem :=
  List.map (filterItem f) items.

(** A channel is kept when its list item does not carry [filtered-out]. *)
Definition keptByFilter (f : FilterState) (ch : Channel) : bool :=
  negb (filtered_out (filterItem f (renderChannelItem ch))).

(** ** Deep-link state (l.162-167, l.1485-1505) *)

(** [new URLSearchParams(window.location.search)] as its decoded pairs;
    [params.get(k)] is the first value recorded for [k]. *)
Definition paramsGet (params : list (string * string)) (k : string) : option string :=
  snd <$> List.find (fun kv => String.eqb (fst kv) k) params.

Record UrlState : Type := mkUrlState {
  country : option string;
  channel : option string
}.

Definition getUrlState (params : list (string * string)) : UrlState :=
  let country := (fun v => JS.toUpperCase (JS.trim v)) <$> paramsGet params "country" in
  let channel := JS.trim <$> paramsGet params "channel" in
  {| country := match country with
                | Some c => if negb (JS.isEmpty c) && (String.length c =? 2)
                            then Some c else None
                | None => None
                end;
     channel := match channel with
                | Some c => if JS.isEmpty c then None else Some c
                | None => None
                end |}.

Definition UNKNOWN_COUNTRY_ISO : string := "XX".

(** What [applyUrlState] triggers. *)
Inductive UrlAction : Type :=
| NoSelection
| SelectUnknown (channel : option string)
| SelectByIso2 (iso2 : string) (channel : option string).

(** [applyUrlState]; [haveSelect] is [typeof selectByIso2 === "function"]. *)
Definition applyUrlState (haveSelect : bool) (params : list (string * string))
  : UrlAction :=
  let st := getUrlState params in
  match country st with
  | None => NoSelection
  | Some c =>
      if String.eqb c UNKNOWN_COUNTRY_ISO then SelectUnknown (channel st)
      else if negb haveSelect then NoSelection
      else
        let iso2ForMap :=
          if String.length c =? 3
          then JS.orDefault (ISO3_TO_ISO2_FALLBACK !! c) c
          else c in
        SelectByIso2 iso2ForMap (channel st)
  end.

(** ** Favorites store (l.218-377, l.427-460) *)

(** A stored entry: [{id, type:"channel", iso, slug, name}] or
    [{id, type:"folder", name, children}]. *)
Local Unset Elimination Schemes.
Inductive FavEntry : Type :=
| FavChannel (id iso slug name : string)
| FavFolder (id name : string) (children : list FavEntry).
Local Set Elimination Schemes.

Definition fav_id (it : FavEntry) : string :=
  match it with
  | FavChannel id _ _ _ => id
  | FavFolder id _ _ => id
  end.

(** [resolveFavoriteChannel] (l.209); [cache] is [allChannelsCache || []]. *)
Definition resolveFavoriteChannel (cache : list Channel) (entry : FavEntry)
  : option Channel :=
  match entry with
  | FavFolder _ _ _ => None
  | FavChannel _ iso slug _ =>
      findChannelBySlug
        (List.filter (fun ch => String.eqb (isoUpper ch) (JS.toUpperCase iso)) cache)
        (Some slug)
  end.

(** The recursive helpers of the store walk an array and call themselves on
    the [children] of its folders.  Each is written as its array loop, taking
    the call on one entry's children as [onChildren], and is then closed by
    recursion on the entry. *)

Section FlattenLoop.
Variable onChildren : FavEntry -> list FavEntry.

(** [for (const it of arr)] of [walk] in [flattenFavoriteChannels]. *)
Fixpoint walkLoop (arr : list FavEntry) : list FavEntry :=
  match arr with
  | [] => []
  | it :: rest =>
      (match it with FavChannel _ _ _ _ => [it] | FavFolder _ _ _ => [] end)
      ++ onChildren it ++ walkLoop rest
  end.
End FlattenLoop.

Fixpoint walkChildren (it : FavEntry) : list FavEntry :=
  match it with
  | FavChannel _ _ _ _ => []
  | FavFolder _ _ children => walkLoop walkChildren children
  end.

Definition flattenFavoriteChannels (items : list FavEntry) : list FavEntry :=
  walkLoop walkChildren items.

(** The predicate of [flat.some] in [isChannelInFavorites]. *)
Definition favKeyMatches (normIso normSlug : string) (it : FavEntry) : bool :=
  match it with
  | FavChannel _ iso slug _ =>
      String.eqb (JS.toUpperCase iso) normIso
      && String.eqb (JS.toLowerCase slug) normSlug
  | FavFolder _ _ _ => false
  end.

Definition isChannelInFavorites (items : list FavEntry) (iso slug : string) : bool :=
  let flat := flattenFavoriteChannels items in
  let normIso := JS.toUpperCase iso in
  let normSlug := JS.toLowerCase slug in
  existsb (favKeyMatches normIso normSlug) flat.

(** [addChannelToFavorites]; [newId] is the value returned by [favId()]. *)
Definition addChannelToFavorites (newId : string) (items : list FavEntry)
           (ch : Channel) : option (list FavEntry) :=
  let iso := isoUpper ch in
  let slug := channelSlug ch in
  if isChannelInFavorites items iso slug then None
  else Some (items ++ [FavChannel newId iso slug (JS.orDefault (ch_name ch) "Channel")]).

(** State of the store after an operation that may have returned early. *)
Definition storeAfter (items : list FavEntry) (r : option (list FavEntry))
  : list FavEntry := default items r.

Section RemoveLoop.
Variable itemId : string.
(** [removeFrom(it.children)] seen from the folder [it]: the detached entry
    and the folder with its updated children. *)
Variable onChildren : FavEntry -> option (FavEntry * FavEntry).

(** [for (const it of arr)] of [removeFrom]. *)
Fixpoint removeLoop (arr : list FavEntry) : option (FavEntry * list FavEntry) :=
  match arr with
  | [] => None
  | it :: rest =>
      match onChildren it with
      | Some (moved, it') => Some (moved, it' :: rest)
      | None =>
          match removeLoop rest with
          | Some (moved, rest') => Some (moved, it :: rest')
          | None => None
          end
      end
  end.

(** Body of [removeFrom(arr)]: [findIndex] and [splice], else the loop. *)
Definition removeFromArr (arr : list FavEntry) : option (FavEntry * list FavEntry) :=
  match list_find (fun it => fav_id it = itemId) arr with
  | Some (idx, moved) => Some (moved, delete idx arr)
  | None => removeLoop arr
  end.
End RemoveLoop.

Fixpoint removeInChildren (itemId : string) (it : FavEntry)
  : option (FavEntry * FavEntry) :=
  match it with
  | FavChannel _ _ _ _ => None
  | FavFolder id name children =>
      match removeFromArr itemId (removeInChildren itemId) children with
      | Some (moved, children') => Some (moved, FavFolder id name children')
      | None => None
      end
  end.

(** [removeFrom] of [moveFavoriteToFolder] (and of [moveFavoriteToTopLevel]):
    the detached entry [moved] and the array after the [splice]. *)
Definition removeFrom (itemId : string) (arr : list FavEntry)
  : option (FavEntry * list FavEntry) :=
  removeFromArr itemId (removeInChildren itemId) arr.

Section AddLoop.
Variable folderId : string.
Variable moved : FavEntry.
(** [addToFolder(it.children)] seen from the folder [it]. *)
Variable onChildren : FavEntry -> option FavEntry.

(** [for (const it of arr)] of [addToFolder]. *)
Fixpoint addLoop (arr : list FavEntry) : option (list FavEntry) :=
  match arr with
  | [] => None
  | it :: rest =>
      match it with
      | FavFolder id name children =>
          if String.eqb id folderId
          then Some (FavFolder id name (children ++ [moved]) :: rest)
          else
            match onChildren it with
            | Some it' => Some (it' :: rest)
            | None => cons it <$> addLoop rest
            end
      | FavChannel _ _ _ _ => cons it <$> addLoop rest
      end
  end.
End AddLoop.

Fixpoint addInChildren (folderId : string) (moved : FavEntry) (it : FavEntry)
  : option FavEntry :=
  match it with
  | FavChannel _ _ _ _ => None
  | FavFolder id name children =>
      FavFolder id name <$>
        addLoop folderId moved (addInChildren folderId moved) children
  end.

Definition addToFolder (folderId : string) (moved : FavEntry) (arr : list FavEntry)
  : option (list FavEntry) :=
  addLoop folderId moved (addInChildren folderId moved) arr.

(** [moveFavoriteToFolder] (l.314). *)
Definition moveFavoriteToFolder (items : list FavEntry) (itemId folderId : string)
  : option (list FavEntry) :=
  match removeFrom itemId items with
  | None => None
  | Some (moved, rest) =>
      match addToFolder folderId moved rest with
      | Some items' => Some items'
      | None => Some (rest ++ [moved])
      end
  end.

(** A path of [flatWithPath] is [["items", i, "children", j, ...]]; the keys
    ["items"] and ["children"] are fixed by their position, so a path is kept
    as its indices [[i; j; ...]]. *)
Abbreviation Path := (list nat).

Section FlatLoop.
Variable onChildren : FavEntry -> Path -> list (FavEntry * Path).

(** [items.forEach((it, i) => ...)] of [flatWithPath], from index [i]. *)
Fixpoint flatLoop (items : list FavEntry) (pathPrefix : Path) (i : nat)
  : list (FavEntry * Path) :=
  match items with
  | [] => []
  | it :: rest =>
      let path := pathPrefix ++ [i] in
      (it, path) :: onChildren it path ++ flatLoop rest pathPrefix (S i)
  end.
End FlatLoop.

Fixpoint flatChildren (it : FavEntry) (path : Path) : list (FavEntry * Path) :=
  match it with
  | FavChannel _ _ _ _ => []
  | FavFolder _ _ children => flatLoop flatChildren children path 0
  end.

Definition flatWithPath (items : list FavEntry) (pathPrefix : Path)
  : list (FavEntry * Path) :=
  flatLoop flatChildren items pathPrefix 0.

(** [path.slice(0, -1)] *)
Definition parentPath (path : Path) : Path := removelast path.

(** [getParent(path)]: the array reached from [data] along the parent path. *)
Fixpoint arrayAt (p : Path) (arr : list FavEntry) : option (list FavEntry) :=
  match p with
  | [] => Some arr
  | k :: p' =>
      match arr !! k with
      | Some (FavFolder _ _ children) => arrayAt p' children
      | _ => None
      end
  end.

(** [tmp = arr[i]; arr[i] = arr[j]; arr[j] = tmp]. *)
Definition swapAt (i j : nat) (arr : list FavEntry) : list FavEntry :=
  match arr !! i, arr !! j with
  | Some x, Some y => <[j:=x]> (<[i:=y]> arr)
  | _, _ => arr
  end.

(** The store after the swap is done inside the array at path [p]. *)
Fixpoint swapInArrayAt (p : Path) (i j : nat) (arr : list FavEntry) : list FavEntry :=
  match p with
  | [] => swapAt i j arr
  | k :: p' =>
      match arr !! k with
      | Some (FavFolder id name children) =>
          <[k := FavFolder id name (swapInArrayAt p' i j children)]> arr
      | _ => arr
      end
  end.

(** [moveFavoriteUpDown] (l.427).  Two paths of [flat] lead to the same array
    object exactly when their parent paths are equal, which is how
    [aArr !== bArr] is decided. *)
Definition moveFavoriteUpDown (items : list FavEntry) (itemId dir : string)
  : option (list FavEntry) :=
  let flat := flatWithPath items [] in
  match list_find (fun e => fav_id (fst e) = itemId) flat with
  | None => None
  | Some (idx, a) =>
      if String.eqb dir "up" && (idx =? 0) then None
      else
        let targetIdx := if String.eqb dir "up" then idx - 1 else idx + 1 in
        match flat !! targetIdx with
        | None => None
        | Some b =>
            if decide (parentPath (snd a) = parentPath (snd b)) then
              let i := List.last (snd a) 0 in
              let j := List.last (snd b) 0 in
              Some (swapInArrayAt (parentPath (snd a)) i j items)
            else None
        end
  end.

(* ================================================================== *)
(** * Part II. The specification's wording                             *)
(* ================================================================== *)

(** The definitions of this part follow the prose of the specification, not
    the code; Part III compares them with the embedding. *)

Module Spec.

(** *** Slug *)

(** Every run of characters of class [p] becomes the single character [d]:
    a character of the class is dropped when another one follows it. *)
Fixpoint collapse (p : ascii -> bool) (d : ascii) (l : list ascii) : list ascii :=
  match l with
  | [] => []
  | c :: r =>
      if p c then
        match r with
        | c' :: _ => if p c' then collapse p d r else d :: collapse p d r
        | [] => [d]
        end
      else c :: collapse p d r
  end.

Fixpoint dropLeading (p : ascii -> bool) (l : list ascii) : list ascii :=
  match l with
  | c :: r => if p c then dropLeading p r else l
  | [] => []
  end.

Definition trimBoth (p : ascii -> bool) (l : list ascii) : list ascii :=
  rev (dropLeading p (rev (dropLeading p l))).

Definition dash : ascii := "-"%char.

Definition fallback (l : list ascii) : string :=
  match l with [] => "channel" | _ => string_of_list_ascii l end.

(** The slug as worded: lowercase, whitespace collapsed to [-], characters
    outside [a-z0-9-] stripped, leading and trailing [-] trimmed, ["channel"]
    for an absent name or an empty result. *)
Definition slugAsWorded (name : option string) : string :=
  match name with
  | None => "channel"
  | Some n =>
      let l := List.map JS.toLowerChar (list_ascii_of_string n) in
      fallback (trimBoth JS.isDash
                  (List.filter slugAllowed (collapse JS.isSpace dash l)))
  end.

(** The same with runs of [-] collapsed before the trimming. *)
Definition slugAmended (name : option string) : string :=
  match name with
  | None => "channel"
  | Some n =>
      let l := List.map JS.toLowerChar (list_ascii_of_string n) in
      fallback (trimBoth JS.isDash
                  (collapse JS.isDash dash
                     (List.filter slugAllowed (collapse JS.isSpace dash l))))
  end.

(** *** Merged feed *)

(** First occurrence wins: a channel is kept when it has no key, or when no
    channel before it in the concatenation has the same key. *)
Fixpoint firstOccurrences (key : Channel -> option string)
         (earlier later : list Channel) : list Channel :=
  match later with
  | [] => []
  | ch :: rest =>
      let dup :=
        match key ch with
        | None => false
        | Some k => existsb (fun e => bool_decide (key e = Some k)) earlier
        end in
      (if dup then [] else [ch]) ++ firstOccurrences key (earlier ++ [ch]) rest
  end.

(** The key as worded: the url itself, unless empty or missing. *)
Definition exactUrlKey (ch : Channel) : option string :=
  match ch_url ch with
  | Some u => if JS.isEmpty u then None else Some u
  | None => None
  end.

(** The key of the code: the url without surrounding whitespace, unless that
    leaves nothing. *)
Definition trimmedUrlKey (ch : Channel) : option string :=
  JS.trimmedNonEmpty (ch_url ch).

(** The channels contributed by one fragment: none when it is missing or has
    no [channels] field. *)
Definition fragmentChannels (fetch : string -> FetchResult) (path : string)
  : list Channel :=
  match fetch path with
  | OkJson (Some c) => c
  | _ => []
  end.

Definition threw (fetch : string -> FetchResult) (path : string) : bool :=
  match fetch path with Threw => true | _ => false end.

(** Candidate-code-major, source-name-minor enumeration of the fragments. *)
Definition countryFragments (codes : list string) : list string :=
  code ← codes; sourcename ← CHANNEL_SOURCE_NAMES; [countryPath code sourcename].

Definition mergedAs (key : Channel -> option string)
           (fetch : string -> FetchResult) (paths : list string) : list Channel :=
  firstOccurrences key [] (concat (List.map (fragmentChannels fetch) paths)).

(** *** Country codes *)

(** The shape worded for the candidate list: nothing, or a 2-letter code
    followed at most by its known, distinct 3-letter code. *)
Definition candidateShape (l : list string) : Prop :=
  match l with
  | [] => True
  | c2 :: rest =>
      String.length c2 = 2 ∧
      (rest = [] ∨ ∃ c3, rest = [c3] ∧ ISO2_TO_ISO3 !! c2 = Some c3 ∧ c3 ≠ c2)
  end.

(** *** Filter *)

(** [needle] occurs in [hay], letter case ignored. *)
Definition occursIn (needle hay : string) : Prop :=
  ∃ pre post, JS.toLowerCase hay = pre +:+ JS.toLowerCase needle +:+ post.

(** The predicate as worded, on the channel's type, source name and name as
    the list shows them and on the search text without surrounding blanks. *)
Definition keepsAsWorded (f : FilterState) (ch : Channel) : Prop :=
  (selectedType f = "" ∨ typeNorm ch = selectedType f) ∧
  (selectedSource f = "" ∨ sourceNorm ch = selectedSource f) ∧
  (JS.trim (filterText f) = ""
   ∨ occursIn (JS.trim (filterText f)) (JS.orDefault (ch_name ch) "Channel")
   ∨ occursIn (JS.trim (filterText f)) (sourceNorm ch)).

(** The same with the text searched in the source label of the list item
    instead of the source name. *)
Definition keepsAmended (f : FilterState) (ch : Channel) : Prop :=
  (selectedType f = "" ∨ typeNorm ch = selectedType f) ∧
  (selectedSource f = "" ∨ sourceNorm ch = selectedSource f) ∧
  (JS.trim (filterText f) = ""
   ∨ occursIn (JS.trim (filterText f)) (JS.orDefault (ch_name ch) "Channel")
   ∨ ∃ label, sourceLabel ch = Some label ∧ occursIn (JS.trim (filterText f)) label).

End Spec.

(** ** Auxiliary notions used in the statements and proofs *)

(** No two neighbouring characters both belong to the class [p]. *)
Fixpoint noAdjacent (p : ascii -> bool) (l : list ascii) : Prop :=
  match l with
  | [] => True
  | c :: r =>
      match r with
      | c' :: _ => p c && p c' = false
      | [] => True
      end ∧ noAdjacent p r
  end.

(** What is left of [l] once its trailing characters of class [p] are gone. *)
Definition dropTrailing (p : ascii -> bool) (l : list ascii) : list ascii :=
  rev (Spec.dropLeading p (rev l)).

(** The five rewriting steps of [channelSlug], applied to a name. *)
Definition slugSteps (n : string) : string :=
  JS.stripEdgeDash
    (JS.replaceRuns JS.isDash "-"
       (JS.removeClass (fun c => negb (slugAllowed c))
          (JS.replaceRuns JS.isSpace "-" (JS.toLowerCase n)))).

(** A record with nothing but a name. *)
Definition named (n : string) : Channel :=
  mkChannel None (Some n) None None None None None None.

(** While the loops run, the state stands for the channels [earlier] read so
    far: [allChannels] holds their first occurrences and [seenUrls] their
    keys. *)
Definition mergeInv (earlier : list Channel) (st : MergeState) : Prop :=
  allChannels st = Spec.firstOccurrences Spec.trimmedUrlKey [] earlier ∧
  ∀ k, k ∈ seenUrls st ↔ ∃ e, e ∈ earlier ∧ Spec.trimmedUrlKey e = Some k.

(** The two fragments of the end-to-end example, every other fragment being
    absent. *)
Definition tf1 : Channel :=
  mkChannel (Some "FR") (Some "TF1") None None None (Some "http://a") None None.

Definition tf1hd : Channel :=
  mkChannel (Some "FR") (Some "TF1 HD") None None None (Some "http://a") None None.

Definition fetchFR (path : string) : FetchResult :=
  if String.eqb path "data/channels/FR/iptv-org.json" then OkJson (Some [tf1])
  else if String.eqb path "data/channels/FR/free-tv-iptv.json" then OkJson (Some [tf1hd])
  else NotOk.

(** One fragment whose second channel repeats the url of the first with a
    trailing blank. *)
Definition tf1blank : Channel :=
  mkChannel (Some "FR") (Some "TF1 HD") None None None (Some "http://a ") None None.

Definition fetchBlank (path : string) : FetchResult :=
  if String.eqb path "data/channels/FR/iptv-org.json" then OkJson (Some [tf1; tf1blank])
  else NotOk.

(** Equality of two strings, letter case ignored. *)
Definition sameIgnoringCase (a b : string) : Prop :=
  JS.toLowerCase a = JS.toLowerCase b.

(** The identity test of channel resolution: the channel's iso and its
    recomputed slug equal [iso] and [slug], letter case ignored. *)
Definition hasIdentity (iso slug : string) (ch : Channel) : Prop :=
  sameIgnoringCase (JS.orDefault (ch_iso ch) "") iso ∧
  sameIgnoringCase (channelSlug ch) slug.

(** A trash holding another FR channel. *)
Definition sampleTrash : list TrashEntry := [mkTrash "FR" "tf1-hd" "TF1 HD"].

(** A channel without source name, whose source is shown in its place. *)
Definition chSourceOnly : Channel :=
  mkChannel (Some "FR") (Some "TF1") None None (Some "tv") (Some "http://a")
            (Some "https://github.com/iptv-org/iptv") None.

(** A channel whose source name is longer than the label shown for it. *)
Definition chLongSource : Channel :=
  mkChannel (Some "FR") (Some "TF1") None None (Some "tv") (Some "http://a")
            None (Some "International Broadcasting Archive").

(** *** The favorites forest *)

Definition childrenOf (it : FavEntry) : list FavEntry :=
  match it with
  | FavChannel _ _ _ _ => []
  | FavFolder _ _ children => children
  end.

Definition isFolder (it : FavEntry) : bool :=
  match it with
  | FavChannel _ _ _ _ => false
  | FavFolder _ _ _ => true
  end.

Section EntriesLoop.
Variable below : FavEntry -> list FavEntry.

Fixpoint entriesLoop (arr : list FavEntry) : list FavEntry :=
  match arr with
  | [] => []
  | it :: rest => it :: below it ++ entriesLoop rest
  end.
End EntriesLoop.

Fixpoint entriesBelow (it : FavEntry) : list FavEntry :=
  match it with
  | FavChannel _ _ _ _ => []
  | FavFolder _ _ children => entriesLoop entriesBelow children
  end.

(** Every entry of the forest, depth first: a folder, then what it holds,
    then its next sibling. *)
Definition allEntries (items : list FavEntry) : list FavEntry :=
  entriesLoop entriesBelow items.

(** An entry without what it holds. *)
Definition label (it : FavEntry) : FavEntry :=
  match it with
  | FavChannel _ _ _ _ => it
  | FavFolder id name _ => FavFolder id name []
  end.

(** The entries of the forest, each without what it holds. *)
Definition labels (items : list FavEntry) : list FavEntry :=
  List.map label (allEntries items).

(** [after] is [before] with one occurrence of [m] taken out of the array
    that held it. *)
Inductive Detached (m : FavEntry) : list FavEntry -> list FavEntry -> Prop :=
| detached_here pre post :
    Detached m (pre ++ m :: post) (pre ++ post)
| detached_below pre id name children children' post :
    Detached m children children' ->
    Detached m (pre ++ FavFolder id name children :: post)
               (pre ++ FavFolder id name children' :: post).

(** [after] is [before] with [m] appended to the children of one folder whose
    id is [folderId]. *)
Inductive AppendedIn (folderId : string) (m : FavEntry)
  : list FavEntry -> list FavEntry -> Prop :=
| appended_here pre name children post :
    AppendedIn folderId m
      (pre ++ FavFolder folderId name children :: post)
      (pre ++ FavFolder folderId name (children ++ [m]) :: post)
| appended_below pre id name children children' post :
    AppendedIn folderId m children children' ->
    AppendedIn folderId m
      (pre ++ FavFolder id name children :: post)
      (pre ++ FavFolder id name children' :: post).

(** [after] is [before] with the neighbours [x], [y] of one array exchanged. *)
Inductive SwappedSiblings (x y : FavEntry)
  : list FavEntry -> list FavEntry -> Prop :=
| swapped_here pre post :
    SwappedSiblings x y (pre ++ x :: y :: post) (pre ++ y :: x :: post)
| swapped_below pre id name children children' post :
    SwappedSiblings x y children children' ->
    SwappedSiblings x y
      (pre ++ FavFolder id name children :: post)
      (pre ++ FavFolder id name children' :: post).

(** Number of channel entries of the forest carrying the key. *)
Definition keyCount (normIso normSlug : string) (items : list FavEntry) : nat :=
  length (List.filter (favKeyMatches normIso normSlug) (allEntries items)).

(** Paths relative to an array: [shiftHead k] renumbers the first index and
    [rebase] adds the prefix under which the array was reached. *)
Definition shiftHead (k : nat) (p : Path) : Path :=
  match p with
  | [] => []
  | i :: q => (k + i) :: q
  end.

Definition rebase (prefix : Path) (k : nat) (e : FavEntry * Path) : FavEntry * Path :=
  (fst e, prefix ++ shiftHead k (snd e)).

(** [flatWithPath] on an array taken as the root. *)
Definition flat0 (items : list FavEntry) : list (FavEntry * Path) :=
  flatLoop flatChildren items [] 0.

(** [x] is immediately followed by [y] in [l]. *)
Definition adjacent {A} (l : list A) (x y : A) : Prop :=
  ∃ l1 l2, l = l1 ++ x :: y :: l2.

(** What [removeFrom], called on the children of [it], achieves: it detaches
    an entry carrying [itemId], or fails because no entry below [it] does. *)
Definition removeSound (itemId : string) (it : FavEntry) : Prop :=
  (∀ moved it',
      removeInChildren itemId it = Some (moved, it') →
      fav_id moved = itemId ∧
      ∃ id name children children',
        it = FavFolder id name children ∧ it' = FavFolder id name children'
        ∧ Detached moved children children') ∧
  (removeInChildren itemId it = None →
   ∀ e, In e (entriesBelow it) → fav_id e ≠ itemId).

(** Two neighbours of the flattened sequence that have the same parent path
    are neighbours [i], [i + 1] of one array of the forest. *)
Definition neighboursAreSiblings (items : list FavEntry) : Prop :=
  ∀ a pa b pb,
    adjacent (flat0 items) (a, pa) (b, pb) →
    parentPath pa = parentPath pb →
    ∃ pp i arr,
      pa = pp ++ [i] ∧ pb = pp ++ [S i] ∧ arrayAt pp items = Some arr
      ∧ arr !! i = Some a ∧ arr !! S i = Some b.

(** A forest for trying the moves: a channel, a folder holding a channel and
    an empty folder, and a last channel. *)
Definition sampleForest : list FavEntry :=
  [FavChannel "a" "FR" "tf1" "TF1";
   FavFolder "f" "News" [FavChannel "b" "FR" "france-24" "France 24";
                         FavFolder "g" "Empty" []];
   FavChannel "c" "DE" "zdf" "ZDF"].

(* ================================================================== *)
(** * Part I, continued. Further functions of [app.js]                 *)
(* ================================================================== *)

(** ** Trash store, continued (l.416-425) *)

(** [removeChannelFromTrash]: the list handed to [setTrash]. *)
Definition removeChannelFromTrash (trash : list TrashEntry) (iso slug : string)
  : list TrashEntry :=
  List.filter
    (fun e => negb (String.eqb (JS.toUpperCase (tr_iso e)) (JS.toUpperCase iso))
              || negb (String.eqb (JS.toLowerCase (tr_slug e)) (JS.toLowerCase slug)))
    trash.

Definition emptyTrash : list TrashEntry := [].

(** The trash after [addChannelToTrash], which returns early when the key is
    already there. *)
Definition trashAfterAdd (trash : list TrashEntry) (ch : Channel) : list TrashEntry :=
  default trash (addChannelToTrash trash ch).

(** ** Favorites store, continued (l.280-312, l.345-377) *)

(** [removeFavoriteById]: its [removeFrom] is the one of [moveFavoriteToFolder]
    without the record of the spliced entry; the store is written only when it
    returned [true]. *)
Definition removeFavoriteById (items : list FavEntry) (id : string)
  : option (list FavEntry) :=
  snd <$> removeFrom id items.

(** [removeChannelFromFavorites] *)
Definition removeChannelFromFavorites (items : list FavEntry) (iso slug : string)
  : option (list FavEntry) :=
  match List.find (favKeyMatches (JS.toUpperCase iso) (JS.toLowerCase slug))
                  (flattenFavoriteChannels items) with
  | Some entry => removeFavoriteById items (fav_id entry)
  | None => None
  end.

(** [addFolder]; [newId] is the value returned by [favId()]. *)
Definition addFolder (newId : string) (items : list FavEntry) (name : option string)
  : list FavEntry :=
  items ++ [FavFolder newId (JS.orDefault name "New folder") []].

(** [moveFavoriteToTopLevel] *)
Definition moveFavoriteToTopLevel (items : list FavEntry) (itemId : string)
  : option (list FavEntry) :=
  match removeFrom itemId items with
  | Some (moved, rest) => Some (rest ++ [moved])
  | None => None
  end.

Section FoldersLoop.
Variable onChildren : FavEntry -> list (string * string).

(** [for (const it of items)] of [walk] in [getFavoriteFolders]. *)
Fixpoint foldersLoop (items : list FavEntry) : list (string * string) :=
  match items with
  | [] => []
  | it :: rest =>
      (match it with
       | FavFolder id name _ => [(id, JS.orDefault (Some name) "Folder")]
       | FavChannel _ _ _ _ => []
       end)
      ++ onChildren it ++ foldersLoop rest
  end.
End FoldersLoop.

Fixpoint foldersBelow (it : FavEntry) : list (string * string) :=
  match it with
  | FavChannel _ _ _ _ => []
  | FavFolder _ _ children => foldersLoop foldersBelow children
  end.

(** [getFavoriteFolders]: the [{id, name}] of every folder. *)
Definition getFavoriteFolders (items : list FavEntry) : list (string * string) :=
  foldersLoop foldersBelow items.

(** ** Catalog of all channels (l.194-207) *)

(** [loadAllChannels]: the channels returned and [allChannelsCache]
    afterwards.  The cache is tested for truthiness, and an array, even an
    empty one, is truthy; a response that is not [ok] and an exception both
    return [[]] without touching the cache. *)
Definition loadAllChannels (fetch : string -> FetchResult)
           (allChannelsCache : option (list Channel))
  : list Channel * option (list Channel) :=
  match allChannelsCache with
  | Some cached => (cached, Some cached)
  | None =>
      match fetch "data/channels.json" with
      | OkJson c => (default [] c, Some (default [] c))
      | NotOk | Threw => ([], None)
      end
  end.

(** ** Deep-link state, continued (l.169-177) *)

(** [setUrlState]: the parameters put in the query string.  The query is
    written and read back through [URLSearchParams], and is kept here as its
    list of decoded pairs. *)
Definition setUrlState (state : UrlState) : list (string * string) :=
  (match country state with
   | Some c => if negb (JS.isEmpty c) && (String.length c =? 2)
               then [("country", JS.toUpperCase c)] else []
   | None => []
   end)
  ++
  (match channel state with
   | Some c => if JS.isEmpty c then [] else [("channel", c)]
   | None => []
   end).

(** ** Country codes of the map (l.73-113) *)

Definition NAME_TO_ISO_FALLBACK : gmap string (string * string) :=
  list_to_map [("France", ("FRA", "FR")); ("Portugal", ("PRT", "PT"));
               ("Norway", ("NOR", "NO"))].

(** [/^-?\d+$/.test(s)] *)
Definition isNumeric (s : string) : bool :=
  let digits :=
    match s with
    | String c r => if JS.isDash c then r else s
    | EmptyString => s
    end in
  negb (JS.isEmpty digits) && JS.allChars JS.isDigitChar digits.

(** [isInvalidIso]; an absent value is [String(v ?? "")], the empty string. *)
Definition isInvalidIso (v : option string) : bool :=
  let s := JS.trim (default "" v) in
  JS.isEmpty s || String.eqb s "-99" || isNumeric s.

(** [normalizeIso2].  A [name] that is a key of [Object.prototype] gives the
    same result [""] as a name outside the table. *)
Definition normalizeIso2 (iso2 iso3 name : string) : string :=
  let s := JS.trim iso2 in
  if (String.length s =? 2) && negb (isInvalidIso (Some s)) then s
  else
    match ISO3_TO_ISO2_FALLBACK !! JS.toUpperCase iso3 with
    | Some fromA3 => fromA3
    | None =>
        match NAME_TO_ISO_FALLBACK !! name with
        | Some fromName => JS.orDefault (Some (snd fromName)) ""
        | None => ""
        end
    end.

Definition FLAG_CDN : string := "https://flagcdn.com".

(** [getFlagUrl]; [width] is printed in decimal. *)
Definition getFlagUrl (iso2 : option string) (width : nat) : option string :=
  match iso2 with
  | None => None
  | Some i =>
      if JS.isEmpty i || negb (String.length i =? 2) || String.eqb i "-9" then None
      else
        let code := JS.toLowerCase i in
        if String.eqb code "xx" || isNumeric code then None
        else Some (FLAG_CDN +:+ "/w" +:+ pretty width +:+ "/" +:+ code +:+ ".png")
  end.

(** ** Player (l.468-470, l.476-693) *)

Fixpoint endsWith (s suffix : string) : bool :=
  String.eqb s suffix
  || match s with
     | EmptyString => false
     | String _ r => endsWith r suffix
     end.

(** [isHlsUrl]: [/\.m3u8(\?|$)/i] finds [.m3u8], in any letter case, before a
    [?] or at the end. *)
Definition isHlsUrl (url : string) : bool :=
  (JS.includes (JS.toLowerCase url) ".m3u8?" || endsWith (JS.toLowerCase url) ".m3u8")
  || JS.includes url "m3u8".

(** What the page and the browser offer to [openPlayerModal]. *)
Record PlayerEnv : Type := mkPlayerEnv {
  youtubeIframe : bool;      (* #player-youtube-iframe exists *)
  webcamIframe : bool;       (* #player-webcam-iframe exists *)
  webcamImage : bool;        (* #player-webcam-image exists *)
  hlsJs : bool;              (* typeof Hls !== "undefined" && Hls.isSupported() *)
  nativeHls : bool           (* videoEl.canPlayType("application/vnd.apple.mpegurl") *)
}.

(** What [openPlayerModal] starts for a channel. *)
Inductive Playback : Type :=
| NoStreamUrl                       (* "No stream URL for this channel." *)
| WebcamFrame (src : string)        (* webcamIframe.src *)
| WebcamPicture (src : string)      (* webcamImage.src *)
| WebcamNothing
| YoutubeFrame (src : string)       (* youtubeIframe.src *)
| AudioStream (src : string)        (* audioEl.src *)
| HlsJsStream (src : string)        (* playerHls.loadSource *)
| NativeHlsStream (src : string)    (* videoEl.src, Safari *)
| VideoStream (src : string).       (* videoEl.src *)

(** [String(channel.type || "tv").toLowerCase()] *)
Definition mediaType (channel : Channel) : string :=
  JS.toLowerCase (JS.orDefault (ch_type channel) "tv").

(** The branches of [openPlayerModal] from l.588 to l.640; the elements the
    page must have (l.498) are there. *)
Definition openPlayerModal (env : PlayerEnv) (channel : Channel) : Playback :=
  match JS.trimmedNonEmpty (ch_url channel) with
  | None => NoStreamUrl
  | Some url =>
      if String.eqb (mediaType channel) "webcam" then
        if JS.includes (JS.toLowerCase url) "windy.com" && webcamIframe env then
          WebcamFrame (if JS.startsWith "http" url then url
                       else "https://embed.windy.com/" +:+ url)
        else if webcamImage env then WebcamPicture url
        else WebcamNothing
      else if String.eqb (mediaType channel) "youtube" && youtubeIframe env then
        YoutubeFrame (if JS.startsWith "http" url then url
                      else "https://www.youtube-nocookie.com/embed/" +:+ url)
      else if String.eqb (mediaType channel) "radio" then AudioStream url
      else if isHlsUrl url && hlsJs env then HlsJsStream url
      else if isHlsUrl url && nativeHls env then NativeHlsStream url
      else VideoStream url
  end.

(** The URL state written at the end of [openPlayerModal] (l.690-692), which
    is not reached when the channel has no stream URL (l.588-594); [iso2] is
    the [data-iso2] of the selected country, if any. *)
Definition playerUrlState (iso2 : option string) (channel : Channel)
  : option (list (string * string)) :=
  match JS.trimmedNonEmpty (ch_url channel) with
  | None => None
  | Some _ =>
      match iso2 with
      | Some i => if JS.isEmpty i then None
                  else Some (setUrlState (mkUrlState (Some i) (Some (channelSlug channel))))
      | None => None
      end
  end.

(** ** Filter toggles (l.738-769, l.914-920, l.999-1000) *)

(** [set.add(x)] on a [Set] kept in insertion order. *)
Definition setAdd (s : list string) (x : string) : list string :=
  if bool_decide (x ∈ s) then s else s ++ [x].

(** [typeSet] and [sourceSet] after the loop over the listed channels. *)
Definition typeSet (channels : list Channel) : list string :=
  fold_left (fun s ch => setAdd s (typeNorm ch)) channels [].

Definition sourceSet (channels : list Channel) : list string :=
  fold_left (fun s ch => if JS.isEmpty (sourceNorm ch) then s
                         else setAdd s (sourceNorm ch)) channels [].

(** [arr.sort()]: ascending order of the code units. *)
Fixpoint insertSorted (x : string) (l : list string) : list string :=
  match l with
  | [] => [x]
  | y :: r => if String.leb x y then x :: l else y :: insertSorted x r
  end.

Definition sortStrings (l : list string) : list string :=
  fold_right insertSorted [] l.

(** The [data-filter-value]s of the toggles built by
    [buildChannelFilterToggles]; the first one, "All", starts active. *)
Definition toggleOptions (values : list string) : list string :=
  "" :: List.filter (fun v => negb (String.eqb v "")) values.

Definition typeToggles (channels : list Channel) : list string :=
  toggleOptions (typeSet channels).

Definition sourceToggles (channels : list Channel) : list string :=
  toggleOptions (sortStrings (sourceSet channels)).

(** ** Category search (l.1924-1943) *)

(** [renderCategoryList(filter)]: the names shown. *)
Definition renderCategoryList (categoriesCache : list string) (filter : option string)
  : list string :=
  let q := JS.toLowerCase (JS.trim (JS.orDefault filter "")) in
  if JS.isEmpty q then categoriesCache
  else List.filter (fun name => JS.includes (JS.toLowerCase name) q) categoriesCache.

(** ** Auxiliary notions for the further properties *)

(** The key under which the trash holds an entry, and the key of a channel. *)
Definition trashKey (e : TrashEntry) : string * string :=
  (JS.toUpperCase (tr_iso e), JS.toLowerCase (tr_slug e)).

Definition channelKey (ch : Channel) : string * string :=
  (isoUpper ch, channelSlug ch).

(** The channel carries the key of [iso] and [slug], letter case ignored. *)
Definition hasKey (iso slug : string) (ch : Channel) : bool :=
  String.eqb (isoUpper ch) (JS.toUpperCase iso)
  && String.eqb (channelSlug ch) (JS.toLowerCase slug).

(** The string is empty or starts with a character that is no blank. *)
Definition startsClean (s : string) : bool :=
  match s with
  | EmptyString => true
  | String c _ => negb (JS.isSpace c)
  end.


(** A usable code of the map: two characters, no blank at either end, not a
    number. *)
Definition usableIso2 (r : string) : Prop :=
  String.length r = 2 /\ JS.trim r = r /\ isInvalidIso (Some r) = false.


(** The ids of all the entries of the forest, depth first. *)
Definition forestIds (items : list FavEntry) : list string :=
  List.map fav_id (allEntries items).

(** Successive calls of [loadAllChannels], one state of the network per call:
    what each call returned. *)
Fixpoint catalogLoads (fetches : list (string -> FetchResult))
         (cache : option (list Channel)) : list (list Channel) :=
  match fetches with
  | [] => []
  | fetch :: later =>
      let r := loadAllChannels fetch cache in
      fst r :: catalogLoads later (snd r)
  end.

(* ================================================================== *)
(** * Part III. Properties                                             *)
(* ================================================================== *)

(** ** Characters and strings *)

Section Strings.

Local Abbreviation L := list_ascii_of_string.

Lemma toLowerChar_allowed c : slugAllowed c = true -> JS.toLowerChar c = c.
Proof.
  destruct c as [[] [] [] [] [] [] [] []]; vm_compute; intros; congruence.
Qed.

Lemma toLowerChar_idem c : JS.toLowerChar (JS.toLowerChar c) = JS.toLowerChar c.
Proof.
  destruct c as [[] [] [] [] [] [] [] []]; vm_compute; reflexivity.
Qed.

Lemma toUpperChar_idem c : JS.toUpperChar (JS.toUpperChar c) = JS.toUpperChar c.
Proof.
  destruct c as [[] [] [] [] [] [] [] []]; vm_compute; reflexivity.
Qed.

(** Two characters have the same upper case exactly when they have the same
    lower case. *)
Lemma upper_lower_char a b :
  JS.toUpperChar a = JS.toUpperChar b <-> JS.toLowerChar a = JS.toLowerChar b.
Proof.
  assert (Hu : JS.toUpperChar (JS.toLowerChar a) = JS.toUpperChar a
               /\ JS.toLowerChar (JS.toUpperChar a) = JS.toLowerChar a).
  { destruct a as [[] [] [] [] [] [] [] []]; vm_compute; split; reflexivity. }
  assert (Hv : JS.toUpperChar (JS.toLowerChar b) = JS.toUpperChar b
               /\ JS.toLowerChar (JS.toUpperChar b) = JS.toLowerChar b).
  { destruct b as [[] [] [] [] [] [] [] []]; vm_compute; split; reflexivity. }
  destruct Hu as [Hu1 Hu2], Hv as [Hv1 Hv2].
  split; intros E.
  - rewrite <- Hu2, <- Hv2. now rewrite E.
  - rewrite <- Hu1, <- Hv1. now rewrite E.
Qed.

Lemma mapChars_inj_iff (f g : ascii -> ascii) :
  (forall a b, f a = f b <-> g a = g b) ->
  forall s t, JS.mapChars f s = JS.mapChars f t <-> JS.mapChars g s = JS.mapChars g t.
Proof.
  intros H. induction s as [|a s IH]; intros [|b t]; simpl; try (split; congruence).
  split; intros E; injection E as E1 E2; f_equal.
  - now apply H.
  - now apply IH.
  - now apply H.
  - now apply IH.
Qed.

Lemma upper_eq_iff_lower_eq s t :
  JS.toUpperCase s = JS.toUpperCase t <-> JS.toLowerCase s = JS.toLowerCase t.
Proof. apply mapChars_inj_iff, upper_lower_char. Qed.

Lemma toUpperCase_idem s : JS.toUpperCase (JS.toUpperCase s) = JS.toUpperCase s.
Proof.
  induction s as [|c s IH]; simpl; [reflexivity|].
  unfold JS.toUpperCase in *. simpl. now rewrite toUpperChar_idem, IH.
Qed.


Lemma toLowerCase_allowed s :
  JS.allChars slugAllowed s = true -> JS.toLowerCase s = s.
Proof.
  induction s as [|c s IH]; simpl; [reflexivity|].
  intros [Hc Hs]%andb_prop. unfold JS.toLowerCase in *. simpl.
  now rewrite toLowerChar_allowed, IH.
Qed.

Lemma L_mapChars f s : L (JS.mapChars f s) = List.map f (L s).
Proof. induction s; simpl; congruence. Qed.

Lemma append_cons c s t : String c s +:+ t = String c (s +:+ t).
Proof. reflexivity. Qed.

Lemma L_removeClass p s :
  L (JS.removeClass (fun c => negb (p c)) s) = List.filter p (L s).
Proof.
  induction s as [|c s IH]; simpl; [reflexivity|].
  destruct (p c); simpl; congruence.
Qed.

Lemma isEmpty_eq s : JS.isEmpty s = true <-> s = "".
Proof. destruct s; simpl; split; congruence. Qed.

(** The flag-driven scan and the look-ahead formulation of run collapsing
    agree. *)
Lemma L_replaceRunsFrom p (d : ascii) s :
  L (JS.replaceRunsFrom p (String d "") false s) = Spec.collapse p d (L s)
  /\ (forall c, p c = true ->
        Spec.collapse p d (c :: L s)
        = d :: L (JS.replaceRunsFrom p (String d "") true s)).
Proof.
  induction s as [|c' r [IHa IHb]]; simpl.
  - split; [reflexivity|]. intros c ->. reflexivity.
  - split.
    + destruct (p c') eqn:Hc'.
      * simpl. specialize (IHb c' Hc'). simpl in IHb. now rewrite Hc' in IHb.
      * simpl. now rewrite IHa.
    + intros c Hc. rewrite Hc. destruct (p c') eqn:Hc'.
      * specialize (IHb c' Hc'). simpl in IHb. now rewrite Hc' in IHb.
      * simpl. now rewrite IHa.
Qed.

Lemma L_replaceRuns p (d : ascii) s :
  L (JS.replaceRuns p (String d "") s) = Spec.collapse p d (L s).
Proof. apply L_replaceRunsFrom. Qed.

End Strings.

(** ** Slug derivation *)

Section Slug.

Local Abbreviation L := list_ascii_of_string.

Lemma collapse_noAdjacent p d l :
  p d = true -> noAdjacent p (Spec.collapse p d l).
Proof.
  intros Hd. induction l as [|c r IH]; simpl; [exact I|].
  destruct (p c) eqn:Hc.
  - destruct r as [|c' r']; [simpl; auto|].
    destruct (p c') eqn:Hc'; [exact IH|].
    split; [|exact IH].
    simpl. rewrite Hc'. simpl. now rewrite Hc', andb_false_r.
  - split; [|exact IH].
    destruct (Spec.collapse p d r); [exact I|]. now rewrite Hc.
Qed.

Lemma collapse_Forall p d (q : ascii -> bool) l :
  q d = true -> Forall (fun c => q c = true) l ->
  Forall (fun c => q c = true) (Spec.collapse p d l).
Proof.
  intros Hd. induction l as [|c r IH]; intros HF; simpl; [constructor|].
  inversion HF as [|? ? Hc Hr]; subst.
  destruct (p c).
  - destruct r as [|c' r']; [repeat constructor; exact Hd|].
    destruct (p c'); [now apply IH|]. constructor; [exact Hd|now apply IH].
  - constructor; [exact Hc|now apply IH].
Qed.

Lemma dropLeading_app_all p l c :
  forallb p l = true ->
  Spec.dropLeading p (l ++ [c]) = if p c then [] else [c].
Proof.
  induction l as [|a l IH]; simpl; [reflexivity|].
  intros [Ha Hl]%andb_prop. rewrite Ha. now apply IH.
Qed.

Lemma dropLeading_app_some p l c :
  forallb p l = false ->
  Spec.dropLeading p (l ++ [c]) = Spec.dropLeading p l ++ [c].
Proof.
  induction l as [|a l IH]; simpl; [discriminate|].
  destruct (p a); simpl; [exact IH|reflexivity].
Qed.

Lemma forallb_rev {A} (p : A -> bool) l : forallb p (rev l) = forallb p l.
Proof.
  induction l as [|a l IH]; simpl; [reflexivity|].
  rewrite forallb_app, IH. simpl. rewrite andb_true_r. apply andb_comm.
Qed.

Lemma dropLeading_all p l : forallb p l = true -> Spec.dropLeading p l = [].
Proof.
  induction l as [|a l IH]; simpl; [reflexivity|].
  intros [Ha Hl]%andb_prop. rewrite Ha. now apply IH.
Qed.

Lemma dropTrailing_cons p c r :
  dropTrailing p (c :: r) =
  if p c && forallb p r then [] else c :: dropTrailing p r.
Proof.
  unfold dropTrailing. simpl.
  destruct (forallb p r) eqn:Hr.
  - rewrite dropLeading_app_all by now rewrite forallb_rev.
    rewrite dropLeading_all by now rewrite forallb_rev.
    destruct (p c); reflexivity.
  - rewrite andb_false_r.
    rewrite dropLeading_app_some by now rewrite forallb_rev.
    now rewrite rev_app_distr.
Qed.

(** On a string without doubled dashes, removing one final dash removes
    them all. *)
Lemma L_dropLastDash s :
  noAdjacent JS.isDash (L s) ->
  L (JS.dropLastDash s) = dropTrailing JS.isDash (L s).
Proof.
  induction s as [|c r IH]; [reflexivity|].
  intros [Hadj Hr]. simpl L. rewrite dropTrailing_cons. simpl.
  destruct r as [|c' r'].
  - simpl. destruct (JS.isDash c); reflexivity.
  - rewrite andb_false_r.
    replace (JS.isDash c && forallb JS.isDash (L (String c' r'))) with false.
    + simpl in IH |- *. now rewrite IH.
    + simpl in Hadj |- *. destruct (JS.isDash c); [|reflexivity].
      simpl in Hadj. now rewrite Hadj.
Qed.

Lemma noAdjacent_tail p c l : noAdjacent p (c :: l) -> noAdjacent p l.
Proof. now intros [_ H]. Qed.

Lemma L_stripEdgeDash s :
  noAdjacent JS.isDash (L s) ->
  L (JS.stripEdgeDash s) = Spec.trimBoth JS.isDash (L s).
Proof.
  intros Hadj. unfold Spec.trimBoth. fold (dropTrailing JS.isDash (Spec.dropLeading JS.isDash (L s))).
  destruct s as [|c r]; [reflexivity|].
  simpl. destruct (JS.isDash c) eqn:Hc.
  - rewrite L_dropLastDash by (eapply noAdjacent_tail; exact Hadj).
    f_equal. destruct r as [|c' r']; [reflexivity|].
    simpl in Hadj |- *. destruct Hadj as [Hadj _].
    rewrite Hc in Hadj. simpl in Hadj. now rewrite Hadj.
  - pose proof (L_dropLastDash (String c r) Hadj) as H. simpl in H.
    rewrite Hc in H. simpl in H. exact H.
Qed.

Lemma dropLeading_Forall (P : ascii -> Prop) p l :
  Forall P l -> Forall P (Spec.dropLeading p l).
Proof.
  induction 1 as [|c r Hc Hr IH]; simpl; [constructor|].
  destruct (p c); [exact IH|now constructor].
Qed.

Lemma trimBoth_Forall (P : ascii -> Prop) p l :
  Forall P l -> Forall P (Spec.trimBoth p l).
Proof.
  intros H. unfold Spec.trimBoth.
  apply Forall_rev, dropLeading_Forall, Forall_rev, dropLeading_Forall, H.
Qed.

Lemma allChars_Forall p s :
  JS.allChars p s = true <-> Forall (fun c => p c = true) (L s).
Proof.
  induction s as [|c r IH]; simpl.
  - split; [constructor|reflexivity].
  - rewrite andb_true_iff, IH. split.
    + intros [? ?]; now constructor.
    + inversion 1; subst; now split.
Qed.

Lemma L_slugSteps n :
  L (slugSteps n) =
  Spec.trimBoth JS.isDash
    (Spec.collapse JS.isDash Spec.dash
       (List.filter slugAllowed
          (Spec.collapse JS.isSpace Spec.dash
             (List.map JS.toLowerChar (L n))))).
Proof.
  unfold slugSteps.
  change "-" with (String Spec.dash "").
  rewrite L_stripEdgeDash.
  - rewrite L_replaceRuns, L_removeClass, L_replaceRuns.
    unfold JS.toLowerCase. now rewrite L_mapChars.
  - rewrite L_replaceRuns. now apply collapse_noAdjacent.
Qed.

Lemma fallback_L s : Spec.fallback (L s) = JS.orDefault (Some s) "channel".
Proof.
  destruct s as [|c r]; [reflexivity|].
  simpl. f_equal. apply string_of_list_ascii_of_string.
Qed.

Lemma channelSlug_steps ch :
  channelSlug ch =
  JS.orDefault (Some (slugSteps (JS.orDefault (ch_name ch) "channel"))) "channel".
Proof. reflexivity. Qed.

(** [channelSlug] computes the slug of the amended wording. *)
Lemma channelSlug_amended ch : channelSlug ch = Spec.slugAmended (ch_name ch).
Proof.
  rewrite channelSlug_steps. destruct (ch_name ch) as [[|c n]|].
  - reflexivity.
  - simpl JS.orDefault at 2. unfold Spec.slugAmended.
    now rewrite <- L_slugSteps, fallback_L.
  - reflexivity.
Qed.

Lemma slugSteps_allowed n : JS.allChars slugAllowed (slugSteps n) = true.
Proof.
  apply allChars_Forall. rewrite L_slugSteps.
  apply trimBoth_Forall, collapse_Forall; [reflexivity|].
  apply List.Forall_forall. intros c [_ Hc]%filter_In. exact Hc.
Qed.

Lemma channelSlug_allowed ch : JS.allChars slugAllowed (channelSlug ch) = true.
Proof.
  rewrite channelSlug_steps.
  generalize (slugSteps_allowed (JS.orDefault (ch_name ch) "channel")).
  destruct (slugSteps _); simpl; [reflexivity|tauto].
Qed.

Lemma channelSlug_nonempty ch : JS.isEmpty (channelSlug ch) = false.
Proof.
  rewrite channelSlug_steps. destruct (slugSteps _); reflexivity.
Qed.

Lemma channelSlug_lower ch : JS.toLowerCase (channelSlug ch) = channelSlug ch.
Proof. apply toLowerCase_allowed, channelSlug_allowed. Qed.

(** C2 (as worded, refuted): the worded derivation omits the collapsing of
    dash runs; for the name ["Rock & Pop"] it gives ["rock--pop"] while
    [channelSlug] gives ["rock-pop"]. *)
Lemma C2_slug_as_worded_differs :
  channelSlug (named "Rock & Pop") = "rock-pop" /\
  Spec.slugAsWorded (Some "Rock & Pop") = "rock--pop" /\
  ~ (forall ch, channelSlug ch = Spec.slugAsWorded (ch_name ch)).
Proof.
  split; [reflexivity|]. split; [reflexivity|].
  intros H. specialize (H (named "Rock & Pop")). vm_compute in H. discriminate H.
Qed.

(** C2 (amended): for every channel record the slug depends on the name
    alone and is obtained by lowercasing, collapsing each whitespace run to
    one [-], stripping every character outside [a-z0-9-], collapsing each
    run of [-] to one [-] and trimming leading and trailing [-]; an absent
    name or an empty result gives ["channel"].  In particular the slugs of
    ["Al Jazeera English"], of two blanks and of ["Canal+"] are
    ["al-jazeera-english"], ["channel"] and ["canal"]. *)
Theorem C2_slug_derivation :
  (forall ch, channelSlug ch = Spec.slugAmended (ch_name ch)) /\
  channelSlug (named "Al Jazeera English") = "al-jazeera-english" /\
  channelSlug (named "  ") = "channel" /\
  channelSlug (named "Canal+") = "canal" /\
  Spec.slugAmended None = "channel".
Proof.
  split; [exact channelSlug_amended|].
  repeat (split; [reflexivity|]). reflexivity.
Qed.

End Slug.

(** ** Country-code resolver *)

Section CountryCodes.

Lemma iso2_table k v :
  ISO2_TO_ISO3 !! k = Some v ->
  (k, v) ∈ [("FR", "FRA"); ("PT", "PRT"); ("NO", "NOR");
            ("DE", "DEU"); ("GB", "GBR"); ("US", "USA")].
Proof. apply elem_of_list_to_map_2. Qed.

Lemma iso3_table k v :
  ISO3_TO_ISO2_FALLBACK !! k = Some v ->
  (k, v) ∈ [("FRA", "FR"); ("PRT", "PT"); ("NOR", "NO");
            ("DEU", "DE"); ("GBR", "GB"); ("USA", "US")].
Proof. apply elem_of_list_to_map_2. Qed.

Ltac table_cases H :=
  repeat (apply elem_of_cons in H as [H|H]; [injection H as -> ->|]);
  [..|apply elem_of_nil in H; destruct H].

Lemma iso2_table_length k v :
  ISO2_TO_ISO3 !! k = Some v -> String.length k = 2 /\ String.length v = 3.
Proof. intros H%iso2_table. table_cases H; split; reflexivity. Qed.

Lemma iso3_table_inverse k v :
  ISO3_TO_ISO2_FALLBACK !! k = Some v ->
  String.length v = 2 /\ ISO2_TO_ISO3 !! v = Some k.
Proof. intros H%iso3_table. table_cases H; split; reflexivity. Qed.

(** The candidates for an already trimmed and uppercased code. *)
Lemma getChannelLoadCodes_cases cc :
  let code := JS.toUpperCase (JS.trim (JS.orDefault cc "")) in
  getChannelLoadCodes cc =
    if String.length code =? 2 then
      match ISO2_TO_ISO3 !! code with
      | Some c3 => [code; c3]
      | None => [code]
      end
    else if String.length code =? 3 then
      match ISO3_TO_ISO2_FALLBACK !! code with
      | Some c2 => [c2; code]
      | None => [code]
      end
    else [].
Proof.
  intros code. unfold getChannelLoadCodes. fold code.
  destruct (String.length code =? 2) eqn:H2.
  - apply Nat.eqb_eq in H2.
    destruct code as [|a r] eqn:Ecode; [discriminate H2|]. rewrite <- Ecode in *.
    assert (JS.isEmpty code = false) as -> by now rewrite Ecode.
    simpl. replace (String.length code =? 3) with false
      by (symmetry; apply Nat.eqb_neq; lia).
    destruct (ISO2_TO_ISO3 !! code) as [c3|] eqn:E3; [|reflexivity].
    apply iso2_table_length in E3 as [_ L3].
    destruct (String.eqb_spec c3 code) as [->|_]; [lia|].
    destruct c3; [discriminate L3|reflexivity].
  - destruct (String.length code =? 3) eqn:H3.
    + apply Nat.eqb_eq in H3.
      destruct code as [|a r] eqn:Ecode; [discriminate H3|]. rewrite <- Ecode in *.
      assert (JS.isEmpty code = false) as -> by now rewrite Ecode.
      simpl.
      destruct (ISO3_TO_ISO2_FALLBACK !! code) as [c2|] eqn:E2.
      * apply iso3_table_inverse in E2 as [L2 _].
        simpl. destruct c2 as [|b q] eqn:Ec2; [discriminate L2|]. rewrite <- Ec2 in *.
        assert (JS.isEmpty c2 = false) as -> by now rewrite Ec2.
        destruct (String.eqb_spec code c2) as [E|_]; [rewrite E in H3; lia|].
        now rewrite Ecode.
      * simpl. rewrite String.eqb_refl. reflexivity.
    + simpl. now rewrite orb_true_r.
Qed.

(** C3 (as worded, refuted): the first candidate is not always a 2-letter
    code; the 3-letter code ["ESP"], unknown to the table, comes back alone. *)
Lemma C3_unknown_alpha3_alone :
  getChannelLoadCodes (Some "ESP") = ["ESP"] /\
  ~ (forall cc, Spec.candidateShape (getChannelLoadCodes cc)).
Proof.
  split; [reflexivity|].
  intros H. specialize (H (Some "ESP")).
  change (getChannelLoadCodes (Some "ESP")) with ["ESP"] in H.
  destruct H as [H _]. discriminate H.
Qed.

(** C3 (amended): with [code] the input trimmed and uppercased, the resolver
    returns, for a 2-letter [code], [code] followed by its 3-letter code when
    the table knows one; for a 3-letter [code], the table's 2-letter code
    followed by [code] when the table knows it, and [code] alone otherwise;
    and nothing for any other length, the empty input included.  A list of
    two candidates is always a 2-letter code and its 3-letter code.
    ["FR"] and ["fra"] give [["FR";"FRA"]], ["ZZ"] gives [["ZZ"]]. *)
Theorem C3_candidate_codes :
  (forall cc,
     let code := JS.toUpperCase (JS.trim (JS.orDefault cc "")) in
     getChannelLoadCodes cc =
       if String.length code =? 2 then
         match ISO2_TO_ISO3 !! code with
         | Some c3 => [code; c3]
         | None => [code]
         end
       else if String.length code =? 3 then
         match ISO3_TO_ISO2_FALLBACK !! code with
         | Some c2 => [c2; code]
         | None => [code]
         end
       else []) /\
  (forall cc,
     match getChannelLoadCodes cc with
     | [] => True
     | [c] => String.length c = 2 \/ String.length c = 3
     | [c2; c3] => String.length c2 = 2 /\ String.length c3 = 3
                   /\ ISO2_TO_ISO3 !! c2 = Some c3
                   /\ ISO3_TO_ISO2_FALLBACK !! c3 = Some c2
     | _ => False
     end) /\
  getChannelLoadCodes (Some "FR") = ["FR"; "FRA"] /\
  getChannelLoadCodes (Some "fra") = ["FR"; "FRA"] /\
  getChannelLoadCodes (Some "ZZ") = ["ZZ"] /\
  getChannelLoadCodes (Some "") = [] /\
  getChannelLoadCodes None = [].
Proof.
  split; [exact getChannelLoadCodes_cases|].
  split; [|repeat split; reflexivity].
  intros cc. rewrite getChannelLoadCodes_cases.
  set (code := JS.toUpperCase _).
  destruct (String.length code =? 2) eqn:H2.
  - apply Nat.eqb_eq in H2.
    destruct (ISO2_TO_ISO3 !! code) as [c3|] eqn:E3; [|now left].
    destruct (iso2_table_length _ _ E3) as [_ L3].
    repeat split; try assumption.
    apply iso2_table in E3. clear -E3.
    repeat (apply elem_of_cons in E3 as [E3|E3]; [injection E3 as -> ->; reflexivity|]).
    apply elem_of_nil in E3. destruct E3.
  - destruct (String.length code =? 3) eqn:H3; [|exact I].
    apply Nat.eqb_eq in H3.
    destruct (ISO3_TO_ISO2_FALLBACK !! code) as [c2|] eqn:E2; [|now right].
    destruct (iso3_table_inverse _ _ E2) as [L2 Einv].
    repeat split; assumption.
Qed.

End CountryCodes.

(** ** Deep-link reader *)

Section DeepLink.

Lemma getUrlState_country params :
  country (getUrlState params) =
  match paramsGet params "country" with
  | Some v =>
      if String.length (JS.toUpperCase (JS.trim v)) =? 2
      then Some (JS.toUpperCase (JS.trim v)) else None
  | None => None
  end.
Proof.
  unfold getUrlState. simpl.
  destruct (paramsGet params "country") as [v|]; [|reflexivity]. simpl.
  destruct (JS.toUpperCase (JS.trim v)) as [|a r]; reflexivity.
Qed.

Lemma getUrlState_country_length params c :
  country (getUrlState params) = Some c -> String.length c = 2.
Proof.
  rewrite getUrlState_country.
  destruct (paramsGet params "country") as [v|]; [|discriminate].
  destruct (_ =? 2) eqn:E; [|discriminate].
  intros [= <-]. now apply Nat.eqb_eq.
Qed.

(** C10: the reader yields a country exactly when the [country] parameter,
    trimmed and uppercased, has 2 characters; [applyUrlState] restores
    nothing without it, and otherwise passes that 2-letter code on unchanged,
    so that its ISO3-to-ISO2 branch never applies.  A link with
    [country=FRA] yields no country and restores no selection. *)
Theorem C10_deep_link_country :
  (forall params,
     country (getUrlState params) =
     match paramsGet params "country" with
     | Some v =>
         if String.length (JS.toUpperCase (JS.trim v)) =? 2
         then Some (JS.toUpperCase (JS.trim v)) else None
     | None => None
     end) /\
  (forall haveSelect params,
     applyUrlState haveSelect params =
     match country (getUrlState params) with
     | None => NoSelection
     | Some c =>
         if String.eqb c UNKNOWN_COUNTRY_ISO
         then SelectUnknown (channel (getUrlState params))
         else if haveSelect then SelectByIso2 c (channel (getUrlState params))
              else NoSelection
     end) /\
  (forall haveSelect ch,
     country (getUrlState [("country", "FRA"); ("channel", ch)]) = None /\
     applyUrlState haveSelect [("country", "FRA"); ("channel", ch)] = NoSelection).
Proof.
  split; [exact getUrlState_country|]. split.
  - intros haveSelect params. unfold applyUrlState.
    destruct (country (getUrlState params)) as [c|] eqn:Ec; [|reflexivity].
    apply getUrlState_country_length in Ec.
    destruct (String.eqb c UNKNOWN_COUNTRY_ISO); [reflexivity|].
    destruct haveSelect; [|reflexivity]. simpl.
    rewrite Ec. reflexivity.
  - intros haveSelect ch. split; reflexivity.
Qed.

End DeepLink.

(** ** Source feed loader *)

Section Loader.

Import Spec.

Lemma firstOccurrences_app key E l1 l2 :
  firstOccurrences key E (l1 ++ l2) =
  firstOccurrences key E l1 ++ firstOccurrences key (E ++ l1) l2.
Proof.
  revert E. induction l1 as [|ch l1 IH]; intros E; simpl.
  - now rewrite app_nil_r.
  - rewrite IH, <- !app_assoc. reflexivity.
Qed.

Lemma mergeInv_empty : mergeInv [] emptyMerge.
Proof.
  split; [reflexivity|]. intros k. simpl. split.
  - intros H. set_solver.
  - intros (e & He & _). set_solver.
Qed.

Lemma existsb_key_seen E st k :
  mergeInv E st ->
  existsb (fun e => bool_decide (trimmedUrlKey e = Some k)) E
  = bool_decide (k ∈ seenUrls st).
Proof.
  intros [_ Hseen].
  apply eq_true_iff_eq. rewrite existsb_exists, bool_decide_eq_true, Hseen.
  split.
  - intros (e & He & Hk). exists e. split; [now apply list_elem_of_In|].
    now apply bool_decide_eq_true in Hk.
  - intros (e & He & Hk). exists e. split; [now apply list_elem_of_In|].
    now apply bool_decide_eq_true.
Qed.

(** One pass of the loop body keeps the invariant. *)
Lemma mergeChannel_inv E st ch :
  mergeInv E st -> mergeInv (E ++ [ch]) (mergeChannel st ch).
Proof.
  intros Hinv. pose proof Hinv as [Hall Hseen].
  unfold mergeInv. rewrite firstOccurrences_app. simpl.
  unfold mergeChannel. fold (trimmedUrlKey ch).
  destruct (trimmedUrlKey ch) as [url|] eqn:Hkey.
  - rewrite (existsb_key_seen E st url Hinv).
    destruct (decide (url ∈ seenUrls st)) as [Hin|Hnin].
    + rewrite bool_decide_eq_true_2 by assumption. simpl. split.
      * now rewrite app_nil_r.
      * intros k. rewrite Hseen. split.
        -- intros (e & He & Hk). exists e. split; [apply elem_of_app; now left|assumption].
        -- intros (e & [He| ->%list_elem_of_singleton]%elem_of_app & Hk).
           ++ now exists e.
           ++ apply Hseen. congruence.
    + rewrite bool_decide_eq_false_2 by assumption. simpl. split.
      * now rewrite Hall.
      * intros k. rewrite elem_of_union, elem_of_singleton, Hseen. split.
        -- intros [->|(e & He & Hk)].
           ++ exists ch. split; [apply elem_of_app; right; apply list_elem_of_singleton; reflexivity|assumption].
           ++ exists e. split; [apply elem_of_app; now left|assumption].
        -- intros (e & [He| ->%list_elem_of_singleton]%elem_of_app & Hk).
           ++ right. now exists e.
           ++ left. congruence.
  - simpl. split.
    + now rewrite Hall.
    + intros k. rewrite Hseen. split.
      * intros (e & He & Hk). exists e. split; [apply elem_of_app; now left|assumption].
      * intros (e & [He| ->%list_elem_of_singleton]%elem_of_app & Hk).
        -- now exists e.
        -- congruence.
Qed.

Lemma fold_mergeChannel_inv l E st :
  mergeInv E st -> mergeInv (E ++ l) (fold_left mergeChannel l st).
Proof.
  revert E st. induction l as [|ch l IH]; intros E st Hinv; simpl.
  - now rewrite app_nil_r.
  - replace (E ++ ch :: l) with ((E ++ [ch]) ++ l) by now rewrite <- app_assoc.
    apply IH, mergeChannel_inv, Hinv.
Qed.

(** One fragment: an exception stops the load, anything else appends the
    fragment's channels to what was read. *)
Lemma mergeFragment_inv fetch path E st :
  mergeInv E st ->
  match mergeFragment fetch path st with
  | Some st' => threw fetch path = false
                /\ mergeInv (E ++ fragmentChannels fetch path) st'
  | None => threw fetch path = true
  end.
Proof.
  intros Hinv. unfold mergeFragment, threw, fragmentChannels.
  destruct (fetch path) as [| |[c|]]; simpl.
  - split; [reflexivity|]. now rewrite app_nil_r.
  - reflexivity.
  - split; [reflexivity|]. now apply fold_mergeChannel_inv.
  - split; [reflexivity|]. now rewrite app_nil_r.
Qed.

Lemma loadPaths_inv fetch paths E st :
  mergeInv E st ->
  match loadPaths fetch paths st with
  | Some st' =>
      existsb (threw fetch) paths = false
      /\ mergeInv (E ++ concat (List.map (fragmentChannels fetch) paths)) st'
  | None => existsb (threw fetch) paths = true
  end.
Proof.
  revert E st. induction paths as [|p paths IH]; intros E st Hinv; simpl.
  - split; [reflexivity|]. now rewrite app_nil_r.
  - pose proof (mergeFragment_inv fetch p E st Hinv) as Hp.
    destruct (mergeFragment fetch p st) as [st'|].
    + destruct Hp as [-> Hinv']. simpl.
      specialize (IH _ _ Hinv'). rewrite <- app_assoc in IH. exact IH.
    + now rewrite Hp.
Qed.

Lemma loadPaths_app fetch p1 p2 st :
  loadPaths fetch (p1 ++ p2) st =
  match loadPaths fetch p1 st with
  | Some st' => loadPaths fetch p2 st'
  | None => None
  end.
Proof.
  revert st. induction p1 as [|p p1 IH]; intros st; simpl; [reflexivity|].
  destruct (mergeFragment fetch p st); [apply IH|reflexivity].
Qed.

Lemma loadSources_paths fetch code names st :
  loadSources fetch code names st
  = loadPaths fetch (List.map (countryPath code) names) st.
Proof.
  revert st. induction names as [|n names IH]; intros st; simpl; [reflexivity|].
  destruct (mergeFragment fetch _ st); [apply IH|reflexivity].
Qed.

Lemma countryFragments_cons code codes :
  countryFragments (code :: codes)
  = List.map (countryPath code) CHANNEL_SOURCE_NAMES ++ countryFragments codes.
Proof. reflexivity. Qed.

(** The nested loops visit the fragments code by code and, for each code,
    source by source. *)
Lemma loadCodes_paths fetch codes st :
  loadCodes fetch codes st = loadPaths fetch (countryFragments codes) st.
Proof.
  revert st. induction codes as [|code codes IH]; intros st; [reflexivity|].
  rewrite countryFragments_cons, loadPaths_app.
  change (loadCodes fetch (code :: codes) st) with
    (match loadSources fetch code CHANNEL_SOURCE_NAMES st with
     | Some st' => loadCodes fetch codes st'
     | None => None
     end).
  rewrite loadSources_paths.
  destruct (loadPaths fetch _ st); [apply IH|reflexivity].
Qed.

Lemma merged_paths fetch paths :
  allChannels <$> loadPaths fetch paths emptyMerge =
  if existsb (threw fetch) paths then None
  else Some (mergedAs trimmedUrlKey fetch paths).
Proof.
  pose proof (loadPaths_inv fetch paths [] emptyMerge mergeInv_empty) as H.
  destruct (loadPaths fetch paths emptyMerge) as [st'|].
  - destruct H as [-> [Hall _]]. simpl. now rewrite Hall.
  - now rewrite H.
Qed.

(** C1 (as worded, refuted): the urls ["http://a"] and ["http://a "] do not
    match exactly, yet the second channel is dropped as a duplicate. *)
Lemma C1_blank_padded_url_deduplicated :
  mergedCountryFeed fetchBlank (Some "FR") = Some [tf1] /\
  mergedAs exactUrlKey fetchBlank (countryFragments (getChannelLoadCodes (Some "FR")))
  = [tf1; tf1blank] /\
  ~ (forall fetch cc,
       existsb (threw fetch) (countryFragments (getChannelLoadCodes cc)) = false ->
       mergedCountryFeed fetch cc =
       Some (mergedAs exactUrlKey fetch (countryFragments (getChannelLoadCodes cc)))).
Proof.
  split; [vm_compute; reflexivity|]. split; [vm_compute; reflexivity|].
  intros H. specialize (H fetchBlank (Some "FR") eq_refl).
  vm_compute in H. discriminate H.
Qed.

(** C1 (amended): unless a fetch raised an exception (then nothing is
    listed), the merged feed of a country or category is the concatenation
    of its fragments in candidate-code-major, source-name-minor order, in
    which a channel is kept when its url, stripped of surrounding
    whitespace, is empty or missing, or was not carried by an earlier
    channel of the concatenation.  With the two FR fragments of the example
    and an empty trash, loading FR lists the single channel TF1 with url
    ["http://a"]. *)
Theorem C1_merged_feed :
  (forall fetch cc,
     mergedCountryFeed fetch cc =
     let paths := countryFragments (getChannelLoadCodes cc) in
     if existsb (threw fetch) paths then None
     else Some (mergedAs trimmedUrlKey fetch paths)) /\
  (forall enc fetch categoryName,
     mergedCategoryFeed enc fetch categoryName =
     let paths := categoryPaths enc categoryName in
     if existsb (threw fetch) paths then None
     else Some (mergedAs trimmedUrlKey fetch paths)) /\
  loadChannelsForCountry fetchFR [] (Some "FR") = [tf1].
Proof.
  split; [|split].
  - intros fetch cc. unfold mergedCountryFeed.
    rewrite loadCodes_paths. apply merged_paths.
  - intros enc fetch categoryName. unfold mergedCategoryFeed. apply merged_paths.
  - vm_compute. reflexivity.
Qed.

End Loader.

(** ** Trash filter *)

Section TrashFilter.

Lemma isoUpper_idem ch : JS.toUpperCase (isoUpper ch) = isoUpper ch.
Proof. apply toUpperCase_idem. Qed.

Lemma notInTrash_spec trash ch :
  notInTrash trash ch = true ->
  isChannelInTrash trash (isoUpper ch) (channelSlug ch) = false /\
  forall e, In e trash ->
    ~ (JS.toUpperCase (tr_iso e) = isoUpper ch
       /\ JS.toLowerCase (tr_slug e) = channelSlug ch).
Proof.
  unfold notInTrash. intros H%negb_true_iff. split; [exact H|].
  intros e He [Hiso Hslug].
  unfold isChannelInTrash in H.
  rewrite isoUpper_idem, channelSlug_lower in H.
  assert (existsb
            (fun e => String.eqb (JS.toUpperCase (tr_iso e)) (isoUpper ch)
                      && String.eqb (JS.toLowerCase (tr_slug e)) (channelSlug ch))
            trash = true) as Hex; [|congruence].
  apply existsb_exists. exists e. split; [exact He|].
  now rewrite Hiso, Hslug, !String.eqb_refl.
Qed.

(** C4: whatever the fetched fragments and the trash, a channel returned by
    a country load or by a category load is not in the trash: no trash entry
    has its uppercased iso and its slug.  This holds for each load, hence
    across repeated loads. *)
Theorem C4_trash_excluded
        (enc : string -> string) (fetch : string -> FetchResult)
        (trash : list TrashEntry) (cc : option string) (categoryName : string)
        (ch : Channel) :
  In ch (loadChannelsForCountry fetch trash cc)
  \/ In ch (loadChannelsForCategory enc fetch trash categoryName) ->
  isChannelInTrash trash (isoUpper ch) (channelSlug ch) = false /\
  forall e, In e trash ->
    ~ (JS.toUpperCase (tr_iso e) = isoUpper ch
       /\ JS.toLowerCase (tr_slug e) = channelSlug ch).
Proof.
  intros H. apply notInTrash_spec.
  unfold loadChannelsForCountry, loadChannelsForCategory in H.
  destruct H as [H|H].
  - destruct (mergedCountryFeed fetch cc); [|destruct H].
    now apply filter_In in H as [_ H].
  - destruct (mergedCategoryFeed enc fetch categoryName); [|destruct H].
    now apply filter_In in H as [_ H].
Qed.

(** C4 on the example: with another FR channel in the trash, TF1 is listed by
    the FR load and is not in the trash. *)
Lemma C4_trash_excluded_witness :
  In tf1 (loadChannelsForCountry fetchFR sampleTrash (Some "FR")) /\
  isChannelInTrash sampleTrash (isoUpper tf1) (channelSlug tf1) = false.
Proof.
  assert (H : In tf1 (loadChannelsForCountry fetchFR sampleTrash (Some "FR"))).
  { vm_compute. left. reflexivity. }
  split; [exact H|].
  exact (proj1 (C4_trash_excluded (fun s => s) fetchFR sampleTrash (Some "FR")
                  "news" tf1 (or_introl H))).
Defined.

End TrashFilter.

(** ** Channel resolution *)

Section Resolution.

Lemma find_first {A} (p : A -> bool) (l : list A) :
  match List.find p l with
  | Some x => exists before after,
      l = before ++ x :: after /\ p x = true
      /\ forall y, In y before -> p y = false
  | None => forall y, In y l -> p y = false
  end.
Proof.
  induction l as [|a l IH]; simpl.
  - intros y [].
  - destruct (p a) eqn:Ha.
    + exists [], l. repeat split; [exact Ha|]. intros y [].
    + destruct (List.find p l) as [x|].
      * destruct IH as (before & after & -> & Hx & Hb).
        exists (a :: before), after. repeat split; [exact Hx|].
        intros y [<-|Hy]; [exact Ha|now apply Hb].
      * intros y [<-|Hy]; [exact Ha|now apply IH].
Qed.

Lemma find_filter {A} (p q : A -> bool) (l : list A) :
  List.find p (List.filter q l) = List.find (fun x => q x && p x) l.
Proof.
  induction l as [|a l IH]; simpl; [reflexivity|].
  destruct (q a); simpl; [|exact IH].
  destruct (p a); [reflexivity|exact IH].
Qed.

Lemma toLowerCase_nonempty s : JS.isEmpty (JS.toLowerCase s) = JS.isEmpty s.
Proof. destruct s; reflexivity. Qed.

(** The boolean test run by the code decides the identity test. *)
Lemma identity_test iso slug ch :
  String.eqb (isoUpper ch) (JS.toUpperCase iso)
  && String.eqb (channelSlug ch) (JS.toLowerCase slug) = true
  <-> hasIdentity iso slug ch.
Proof.
  unfold hasIdentity, sameIgnoringCase, isoUpper.
  rewrite andb_true_iff, !String.eqb_eq, upper_eq_iff_lower_eq, channelSlug_lower.
  reflexivity.
Qed.

Lemma no_identity_empty_slug iso ch : ~ hasIdentity iso "" ch.
Proof.
  intros [_ H]. unfold sameIgnoringCase in H. rewrite channelSlug_lower in H.
  pose proof (channelSlug_nonempty ch) as Hne. rewrite H in Hne. discriminate Hne.
Qed.

(** C5: resolving a channel entry against a feed returns the first channel
    of the feed whose iso and whose slug, recomputed from its name, equal
    the entry's iso and slug up to letter case, and reports not-found exactly
    when no channel of the feed has that identity. *)
Theorem C5_channel_resolution (feed : list Channel) (id iso slug name : string) :
  match resolveFavoriteChannel feed (FavChannel id iso slug name) with
  | Some ch =>
      exists before after,
        feed = before ++ ch :: after
        /\ hasIdentity iso slug ch
        /\ forall x, In x before -> ~ hasIdentity iso slug x
  | None => forall x, In x feed -> ~ hasIdentity iso slug x
  end.
Proof.
  unfold resolveFavoriteChannel, findChannelBySlug.
  destruct (JS.isEmpty slug) eqn:Hslug.
  - apply isEmpty_eq in Hslug as ->. intros x _. apply no_identity_empty_slug.
  - rewrite find_filter.
    match goal with |- context [List.find ?p feed] =>
      pose proof (find_first p feed) as H; destruct (List.find p feed) as [ch|] end.
    + destruct H as (before & after & -> & Hch & Hb).
      exists before, after. split; [reflexivity|].
      split; [now apply identity_test|].
      intros x Hx Hid%identity_test. rewrite (Hb x Hx) in Hid. discriminate Hid.
    + intros x Hx Hid%identity_test. rewrite (H x Hx) in Hid. discriminate Hid.
Qed.

End Resolution.

(** ** Filter engine *)

Section Filter.

Lemma startsWith_spec p s :
  JS.startsWith p s = true <-> exists post, s = p +:+ post.
Proof.
  revert s. induction p as [|a p IH]; intros s; simpl.
  - split; [intros _; now exists s|reflexivity].
  - destruct s as [|b s].
    + split; [discriminate|]. intros [post H]. discriminate H.
    + rewrite andb_true_iff, IH. split.
      * intros [->%Ascii.eqb_eq [post ->]]. now exists post.
      * intros [post H]. rewrite append_cons in H. injection H as -> ->.
        split; [apply Ascii.eqb_refl|now exists post].
Qed.

Lemma includes_spec h n :
  JS.includes h n = true <-> exists pre post, h = pre +:+ n +:+ post.
Proof.
  induction h as [|c h IH].
  - simpl. rewrite orb_false_r, startsWith_spec. split.
    + intros [post H]. now exists "", post.
    + intros (pre & post & H). destruct pre as [|a pre]; [now exists post|].
      discriminate H.
  - simpl. rewrite orb_true_iff, startsWith_spec, IH. split.
    + intros [[post H]|(pre & post & ->)].
      * now exists "", post.
      * now exists (String c pre), post.
    + intros (pre & post & H). destruct pre as [|a pre].
      * left. now exists post.
      * right. rewrite append_cons in H. injection H as -> ->. now exists pre, post.
Qed.

Lemma includes_occursIn hay needle :
  JS.includes (JS.toLowerCase hay) (JS.toLowerCase needle) = true
  <-> Spec.occursIn needle hay.
Proof. apply includes_spec. Qed.

Lemma occursIn_empty_hay needle : Spec.occursIn needle "" -> needle = "".
Proof.
  intros (pre & post & H). destruct pre; [|discriminate H].
  destruct needle; [reflexivity|discriminate H].
Qed.

Lemma isEmpty_or_eqb sel x :
  JS.isEmpty sel || String.eqb x sel = true <-> sel = "" \/ x = sel.
Proof. now rewrite orb_true_iff, isEmpty_eq, String.eqb_eq. Qed.

Lemma sourceOk_spec sel x :
  JS.isEmpty sel || (negb (JS.isEmpty x) && String.eqb x sel) = true
  <-> sel = "" \/ x = sel.
Proof.
  rewrite orb_true_iff, andb_true_iff, isEmpty_eq, String.eqb_eq, negb_true_iff.
  split.
  - intros [H|[_ H]]; auto.
  - intros [H| ->]; [now left|].
    destruct sel; [now left|right; split; reflexivity].
Qed.

Lemma textOk_spec text nm (label : option string) :
  let search := JS.toLowerCase (JS.trim text) in
  JS.isEmpty search
  || JS.includes (JS.toLowerCase nm) search
  || JS.includes (JS.toLowerCase (default "" label)) search = true
  <-> JS.trim text = ""
      \/ Spec.occursIn (JS.trim text) nm
      \/ exists l, label = Some l /\ Spec.occursIn (JS.trim text) l.
Proof.
  intros search. unfold search.
  rewrite !orb_true_iff, toLowerCase_nonempty, isEmpty_eq, !includes_occursIn.
  split.
  - intros [[H|H]|H]; [now left|right; now left|].
    destruct label as [l|]; [right; right; now exists l|].
    left. now apply occursIn_empty_hay.
  - intros [H|[H|(l & -> & H)]]; [left; now left|left; now right|now right].
Qed.

(** What the code keeps, in the amended wording. *)
Lemma keptByFilter_amended f ch :
  keptByFilter f ch = true <-> Spec.keepsAmended f ch.
Proof.
  unfold keptByFilter, Spec.keepsAmended, filterItem, renderChannelItem.
  cbn [filtered_out data_type data_source name_text source_text].
  rewrite negb_involutive, !andb_true_iff.
  rewrite isEmpty_or_eqb, sourceOk_spec, textOk_spec. tauto.
Qed.

Lemma sourceLabel_short ch :
  0 < String.length (sourceNorm ch) <= 28 ->
  sourceLabel ch = Some (sourceNorm ch).
Proof.
  intros [Hpos Hle]. unfold sourceLabel.
  destruct (sourceNorm ch) as [|c r] eqn:E; [simpl in Hpos; lia|].
  cbn [JS.isEmpty negb orb].
  replace (28 <? String.length (String c r)) with false; [reflexivity|].
  symmetry. apply Nat.ltb_ge. exact Hle.
Qed.

Lemma sourceLabel_none ch :
  sourceNorm ch = "" -> JS.trimmedNonEmpty (ch_source ch) = None ->
  sourceLabel ch = None.
Proof.
  intros E1 E2. unfold sourceLabel. rewrite E1, E2. cbn [JS.isEmpty negb orb].
  rewrite bool_decide_eq_false_2; [reflexivity|].
  intros [x Hx]. discriminate Hx.
Qed.

(** C6 (as worded, refuted): the text is searched in the source label of the
    list item, not in the source name.  A channel without source name is kept
    for a text found in its source only, and a channel is dropped for a text
    found beyond the 26th character of its source name. *)
Lemma C6_text_searched_in_label :
  (keptByFilter (mkFilter "" "" "github") chSourceOnly = true
   /\ ~ Spec.keepsAsWorded (mkFilter "" "" "github") chSourceOnly) /\
  (keptByFilter (mkFilter "" "" "archive") chLongSource = false
   /\ Spec.keepsAsWorded (mkFilter "" "" "archive") chLongSource) /\
  ~ (forall f ch, keptByFilter f ch = true <-> Spec.keepsAsWorded f ch).
Proof.
  assert (H1 : ~ Spec.keepsAsWorded (mkFilter "" "" "github") chSourceOnly).
  { intros (_ & _ & [H|[H|H]]).
    - vm_compute in H. discriminate H.
    - apply includes_occursIn in H. vm_compute in H. discriminate H.
    - apply includes_occursIn in H. vm_compute in H. discriminate H. }
  split; [split; [vm_compute; reflexivity|exact H1]|].
  split.
  - split; [vm_compute; reflexivity|].
    split; [now left|]. split; [now left|].
    right. right. apply includes_occursIn. vm_compute. reflexivity.
  - intros H. apply H1, H. vm_compute. reflexivity.
Qed.

(** C6 (amended): a channel is kept if and only if (the type filter is "all"
    or the channel's type equals the selected type) and (the source filter
    is "all" or the channel's source name equals the selected source) and
    (the search text is empty or occurs, letter case ignored, in the
    channel's name or in the source label shown for the channel); that label
    is the source name when it has 1 to 28 characters, and is absent when the
    channel has neither source name nor source, in which cases the text is
    searched in the source name itself.  Every item of a rendered list
    carries the flag so decided. *)
Theorem C6_filter_predicate :
  (forall f ch, keptByFilter f ch = true <-> Spec.keepsAmended f ch) /\
  (forall f ch,
     0 < String.length (sourceNorm ch) <= 28
     \/ (sourceNorm ch = "" /\ JS.trimmedNonEmpty (ch_source ch) = None) ->
     (keptByFilter f ch = true <-> Spec.keepsAsWorded f ch)) /\
  (forall f channels,
     List.map filtered_out
       (applyChannelFilters f (List.map renderChannelItem channels))
     = List.map (fun ch => negb (keptByFilter f ch)) channels).
Proof.
  split; [exact keptByFilter_amended|]. split.
  - intros f ch Hlabel. rewrite keptByFilter_amended.
    unfold Spec.keepsAmended, Spec.keepsAsWorded.
    destruct Hlabel as [Hshort|[E1 E2]].
    + rewrite (sourceLabel_short ch Hshort). split.
      * intros (Ht & Hs & [H|[H|(l & [= <-] & H)]]); repeat split; auto.
      * intros (Ht & Hs & [H|[H|H]]); repeat split; auto.
        right. right. now exists (sourceNorm ch).
    + rewrite (sourceLabel_none ch E1 E2), E1. split.
      * intros (Ht & Hs & [H|[H|(l & [=] & H)]]); repeat split; auto.
      * intros (Ht & Hs & [H|[H|H]]); repeat split; auto.
        left. now apply occursIn_empty_hay.
  - intros f channels. unfold applyChannelFilters.
    rewrite !List.map_map. apply List.map_ext.
    intros ch. unfold keptByFilter. now rewrite negb_involutive.
Qed.

End Filter.

(** ** Favorites forest: induction and the flattened sequence *)

Section Forest.

Lemma FavEntry_ind (P : FavEntry -> Prop) :
  (forall id iso slug name, P (FavChannel id iso slug name)) ->
  (forall id name children, Forall P children -> P (FavFolder id name children)) ->
  forall it, P it.
Proof.
  intros Hchannel Hfolder. fix IH 1.
  intros [id iso slug name|id name children].
  - apply Hchannel.
  - apply Hfolder.
    induction children as [|x children IHc]; constructor; [apply IH|exact IHc].
Qed.

(** Induction on forests: the property passes from the children of a folder
    and from its later siblings to the array that starts with the folder. *)
Lemma forest_ind (Q : list FavEntry -> Prop) :
  Q [] ->
  (forall id iso slug name rest, Q rest -> Q (FavChannel id iso slug name :: rest)) ->
  (forall id name children rest,
      Q children -> Q rest -> Q (FavFolder id name children :: rest)) ->
  forall items, Q items.
Proof.
  intros Hnil Hchannel Hfolder.
  assert (Hlist : forall l, Forall (fun e => Q (childrenOf e)) l -> Q l).
  { induction l as [|x l IHl]; intros HF; [exact Hnil|].
    inversion HF as [|? ? Hx Hl]; subst.
    destruct x as [id iso slug name|id name children].
    - apply Hchannel, IHl, Hl.
    - apply Hfolder; [exact Hx|apply IHl, Hl]. }
  assert (Hentry : forall e, Q (childrenOf e)).
  { induction e as [id iso slug name|id name children IHc] using FavEntry_ind.
    - exact Hnil.
    - apply Hlist, IHc. }
  intros items. apply Hlist, List.Forall_forall. intros e _. apply Hentry.
Qed.

Lemma allEntries_channel id iso slug name rest :
  allEntries (FavChannel id iso slug name :: rest)
  = FavChannel id iso slug name :: allEntries rest.
Proof. reflexivity. Qed.

Lemma allEntries_folder id name children rest :
  allEntries (FavFolder id name children :: rest)
  = FavFolder id name children :: allEntries children ++ allEntries rest.
Proof. reflexivity. Qed.

Lemma allEntries_cons it rest :
  allEntries (it :: rest) = it :: allEntries (childrenOf it) ++ allEntries rest.
Proof. destruct it; reflexivity. Qed.

Lemma allEntries_app l1 l2 : allEntries (l1 ++ l2) = allEntries l1 ++ allEntries l2.
Proof.
  induction l1 as [|it l1 IH]; [reflexivity|].
  rewrite <- app_comm_cons, !allEntries_cons, IH.
  now rewrite app_comm_cons, app_assoc.
Qed.

Lemma flatten_channels items :
  flattenFavoriteChannels items
  = List.filter (fun it => negb (isFolder it)) (allEntries items).
Proof.
  induction items as [|id iso slug name rest IH|id name children rest IHc IHr]
    using forest_ind.
  - reflexivity.
  - rewrite allEntries_channel. simpl. f_equal. exact IH.
  - rewrite allEntries_folder. simpl. rewrite List.filter_app.
    f_equal; [exact IHc|exact IHr].
Qed.

Lemma flatten_app l1 l2 :
  flattenFavoriteChannels (l1 ++ l2)
  = flattenFavoriteChannels l1 ++ flattenFavoriteChannels l2.
Proof. now rewrite !flatten_channels, allEntries_app, List.filter_app. Qed.

Lemma favKeyMatches_channel normIso normSlug it :
  favKeyMatches normIso normSlug it = true -> isFolder it = false.
Proof. destruct it; [reflexivity|discriminate]. Qed.

(** The key is in the favorites exactly when a channel entry somewhere in the
    forest carries it. *)
Lemma isChannelInFavorites_spec items iso slug :
  isChannelInFavorites items iso slug = true <->
  exists id i s n,
    In (FavChannel id i s n) (allEntries items)
    /\ JS.toUpperCase i = JS.toUpperCase iso
    /\ JS.toLowerCase s = JS.toLowerCase slug.
Proof.
  unfold isChannelInFavorites. rewrite existsb_exists, flatten_channels. split.
  - intros (it & [Hin _]%filter_In & Hkey).
    destruct it as [id i s n|]; [|discriminate Hkey].
    apply andb_prop in Hkey as [Hi%String.eqb_eq Hs%String.eqb_eq].
    now exists id, i, s, n.
  - intros (id & i & s & n & Hin & Hi & Hs).
    exists (FavChannel id i s n). split.
    + apply filter_In. now split.
    + simpl. now rewrite Hi, Hs, !String.eqb_refl.
Qed.

Lemma keyCount_existsb normIso normSlug items :
  existsb (favKeyMatches normIso normSlug) (flattenFavoriteChannels items) = false ->
  keyCount normIso normSlug items = 0.
Proof.
  unfold keyCount. rewrite flatten_channels. intros H.
  induction (allEntries items) as [|it l IH]; [reflexivity|].
  simpl in H |- *. destruct (favKeyMatches normIso normSlug it) eqn:Hk.
  - rewrite (favKeyMatches_channel _ _ _ Hk) in H. simpl in H.
    rewrite Hk in H. discriminate H.
  - apply IH. destruct (isFolder it); simpl in H; [exact H|].
    now rewrite Hk in H.
Qed.

Lemma keyCount_app normIso normSlug l1 l2 :
  keyCount normIso normSlug (l1 ++ l2)
  = keyCount normIso normSlug l1 + keyCount normIso normSlug l2.
Proof.
  unfold keyCount. now rewrite allEntries_app, List.filter_app, length_app.
Qed.

Lemma keyCount_single normIso normSlug it :
  favKeyMatches normIso normSlug it = true -> keyCount normIso normSlug [it] = 1.
Proof.
  intros H. destruct it as [id i s n|]; [|discriminate H].
  unfold keyCount. change (allEntries [FavChannel id i s n]) with [FavChannel id i s n].
  unfold List.filter. now rewrite H.
Qed.

Lemma existsb_single normIso normSlug it :
  favKeyMatches normIso normSlug it = true ->
  existsb (favKeyMatches normIso normSlug) (flattenFavoriteChannels [it]) = true.
Proof.
  intros H. destruct it as [id i s n|]; [|discriminate H].
  change (flattenFavoriteChannels [FavChannel id i s n]) with [FavChannel id i s n].
  unfold existsb. now rewrite H.
Qed.

End Forest.

(** ** Adding a favorite *)

Section AddFavorite.

(** C9: adding a channel whose key (uppercased iso, slug) is carried by a
    channel entry anywhere in the forest leaves the store unchanged;
    otherwise one channel entry, with the id drawn by [favId], is appended
    to the top-level list: the key then occurs exactly once, and adding any
    channel with the same key again changes nothing. *)
Theorem C9_add_favorite (newId : string) (items : list FavEntry) (ch : Channel) :
  let iso := isoUpper ch in
  let slug := channelSlug ch in
  let entry := FavChannel newId iso slug (JS.orDefault (ch_name ch) "Channel") in
  let present :=
    exists id i s n,
      In (FavChannel id i s n) (allEntries items)
      /\ JS.toUpperCase i = iso /\ JS.toLowerCase s = slug in
  (present ->
     addChannelToFavorites newId items ch = None
     /\ storeAfter items (addChannelToFavorites newId items ch) = items) /\
  (~ present ->
     addChannelToFavorites newId items ch = Some (items ++ [entry])
     /\ keyCount iso slug (items ++ [entry]) = 1
     /\ forall id2 ch2,
          isoUpper ch2 = iso -> channelSlug ch2 = slug ->
          addChannelToFavorites id2 (items ++ [entry]) ch2 = None).
Proof.
  intros iso slug entry present.
  assert (Hpresent : isChannelInFavorites items iso slug = true <-> present).
  { rewrite isChannelInFavorites_spec. unfold present, iso, slug.
    now rewrite isoUpper_idem, channelSlug_lower. }
  assert (Hself : favKeyMatches iso slug entry = true).
  { unfold entry, iso, slug. simpl.
    now rewrite isoUpper_idem, channelSlug_lower, !String.eqb_refl. }
  unfold addChannelToFavorites. fold iso slug entry. split.
  - intros Hp. apply Hpresent in Hp. rewrite Hp. split; reflexivity.
  - intros Hnp.
    destruct (isChannelInFavorites items iso slug) eqn:Hin;
      [exfalso; now apply Hnp, Hpresent|].
    split; [reflexivity|]. split.
    + rewrite keyCount_app.
      unfold isChannelInFavorites in Hin.
      unfold iso at 1, slug at 1 in Hin.
      rewrite isoUpper_idem, channelSlug_lower in Hin. fold iso slug in Hin.
      rewrite (keyCount_existsb _ _ _ Hin).
      now rewrite (keyCount_single _ _ _ Hself).
    + intros id2 ch2 Hiso Hslug. rewrite Hiso, Hslug.
      replace (isChannelInFavorites (items ++ [entry]) iso slug) with true;
        [reflexivity|].
      symmetry. unfold isChannelInFavorites.
      unfold iso at 1, slug at 1.
      rewrite isoUpper_idem, channelSlug_lower. fold iso slug.
      rewrite flatten_app, existsb_app.
      apply orb_true_iff. right. now apply existsb_single.
Qed.

End AddFavorite.

(** ** Moving a favorite into a folder *)

Section MoveToFolder.

Lemma in_allEntries e items :
  In e (allEntries items) <->
  exists it, In it items /\ (e = it \/ In e (entriesBelow it)).
Proof.
  induction items as [|it items IH].
  - simpl. split; [intros []|intros (it & [] & _)].
  - change (allEntries (it :: items))
      with (it :: entriesBelow it ++ allEntries items).
    simpl. rewrite in_app_iff, IH. split.
    + intros [<-|[H|(it' & Hin & H)]].
      * exists it. auto.
      * exists it. auto.
      * exists it'. auto.
    + intros (it' & [<-|Hin] & [->|H]).
      * now left.
      * right. now left.
      * right. right. exists it'. auto.
      * right. right. exists it'. auto.
Qed.

Lemma Detached_cons m it l l' : Detached m l l' -> Detached m (it :: l) (it :: l').
Proof.
  intros [pre post|pre id name ch ch' post H].
  - apply (detached_here m (it :: pre) post).
  - apply (detached_below m (it :: pre) id name ch ch' post H).
Qed.

Lemma AppendedIn_cons fid m it l l' :
  AppendedIn fid m l l' -> AppendedIn fid m (it :: l) (it :: l').
Proof.
  intros [pre name ch post|pre id name ch ch' post H].
  - apply (appended_here fid m (it :: pre) name ch post).
  - apply (appended_below fid m (it :: pre) id name ch ch' post H).
Qed.

Variable itemId : string.

Lemma removeLoop_sound arr :
  Forall (removeSound itemId) arr ->
  (forall moved rest,
      removeLoop (removeInChildren itemId) arr = Some (moved, rest) ->
      fav_id moved = itemId /\ Detached moved arr rest) /\
  (removeLoop (removeInChildren itemId) arr = None ->
   forall it, In it arr -> forall e, In e (entriesBelow it) -> fav_id e <> itemId).
Proof.
  induction 1 as [|it arr [Hsome Hnone] _ [IHsome IHnone]]; simpl.
  - split; [discriminate|]. intros _ it [].
  - destruct (removeInChildren itemId it) as [[moved it']|] eqn:Hit.
    + split; [|discriminate].
      intros m rest [= <- <-].
      destruct (Hsome _ _ eq_refl) as (Hid & id & name & ch & ch' & -> & -> & Hdet).
      split; [exact Hid|].
      apply (detached_below moved [] id name ch ch' arr Hdet).
    + destruct (removeLoop (removeInChildren itemId) arr) as [[moved rest']|] eqn:Hrest.
      * split; [|discriminate].
        intros m rest [= <- <-].
        destruct (IHsome _ _ eq_refl) as [Hid Hdet].
        split; [exact Hid|now apply Detached_cons].
      * split; [discriminate|].
        intros _ it' [<-|Hin]; [now apply Hnone|now apply IHnone].
Qed.

Lemma removeFromArr_sound arr :
  Forall (removeSound itemId) arr ->
  (forall moved rest,
      removeFromArr itemId (removeInChildren itemId) arr = Some (moved, rest) ->
      fav_id moved = itemId /\ Detached moved arr rest) /\
  (removeFromArr itemId (removeInChildren itemId) arr = None ->
   forall e, In e (allEntries arr) -> fav_id e <> itemId).
Proof.
  intros HF. unfold removeFromArr.
  destruct (list_find (fun it => fav_id it = itemId) arr) as [[idx m]|] eqn:Hfind.
  - split; [|discriminate].
    intros moved rest [= <- <-].
    apply list_find_Some in Hfind as (Hidx & Hid & _).
    split; [exact Hid|].
    rewrite <- (take_drop_middle arr idx m Hidx) at 1.
    rewrite delete_take_drop. constructor.
  - apply list_find_None in Hfind.
    destruct (removeLoop_sound arr HF) as [Hsome Hnone].
    split; [exact Hsome|].
    intros Hloop e (it & Hin & [->|He])%in_allEntries.
    + rewrite List.Forall_forall in Hfind. now apply Hfind.
    + now apply (Hnone Hloop it Hin).
Qed.

Lemma removeSound_all it : removeSound itemId it.
Proof.
  induction it as [id iso slug name|id name children IH] using FavEntry_ind.
  - split; [discriminate|]. intros _ e [].
  - destruct (removeFromArr_sound children IH) as [Hsome Hnone].
    unfold removeSound. simpl removeInChildren.
    destruct (removeFromArr itemId (removeInChildren itemId) children)
      as [[moved children']|].
    + split; [|discriminate].
      intros m it' [= <- <-].
      destruct (Hsome _ _ eq_refl) as [Hid Hdet].
      split; [exact Hid|]. now exists id, name, children, children'.
    + split; [discriminate|]. intros _. now apply Hnone.
Qed.

(** [removeFrom] detaches one entry carrying the id, and fails only when no
    entry of the forest carries it. *)
Lemma removeFrom_sound items :
  (forall moved rest,
      removeFrom itemId items = Some (moved, rest) ->
      fav_id moved = itemId /\ Detached moved items rest) /\
  (removeFrom itemId items = None ->
   forall e, In e (allEntries items) -> fav_id e <> itemId).
Proof.
  apply removeFromArr_sound, List.Forall_forall.
  intros it _. apply removeSound_all.
Qed.

Variables (folderId : string) (moved : FavEntry).

Lemma addToFolder_channel id iso slug name rest :
  addToFolder folderId moved (FavChannel id iso slug name :: rest)
  = cons (FavChannel id iso slug name) <$> addToFolder folderId moved rest.
Proof. reflexivity. Qed.

Lemma addToFolder_folder id name children rest :
  addToFolder folderId moved (FavFolder id name children :: rest)
  = if String.eqb id folderId
    then Some (FavFolder id name (children ++ [moved]) :: rest)
    else match addToFolder folderId moved children with
         | Some children' => Some (FavFolder id name children' :: rest)
         | None => cons (FavFolder id name children) <$> addToFolder folderId moved rest
         end.
Proof.
  unfold addToFolder. simpl.
  destruct (String.eqb id folderId); [reflexivity|].
  destruct (addLoop folderId moved (addInChildren folderId moved) children);
    reflexivity.
Qed.

(** [addToFolder] appends to a folder carrying the id, and fails only when
    the forest has no such folder. *)
Lemma addToFolder_sound items :
  (forall items', addToFolder folderId moved items = Some items' ->
                  AppendedIn folderId moved items items') /\
  (addToFolder folderId moved items = None ->
   forall f, In f (allEntries items) -> isFolder f = true -> fav_id f <> folderId).
Proof.
  induction items as [|id iso slug name rest [IHs IHn]
                      |id name children rest [IHcs IHcn] [IHrs IHrn]]
    using forest_ind.
  - split; [discriminate|]. intros _ f [].
  - rewrite addToFolder_channel.
    destruct (addToFolder folderId moved rest) as [rest'|]; cbn [fmap option_fmap option_map].
    + split; [|discriminate]. intros items' [= <-].
      now apply AppendedIn_cons, IHs.
    + split; [discriminate|]. intros _ f [<-|Hin]; [discriminate|].
      now apply IHn.
  - rewrite addToFolder_folder.
    destruct (String.eqb_spec id folderId) as [->|Hne].
    + split; [|discriminate]. intros items' [= <-].
      apply (appended_here folderId moved [] name children rest).
    + destruct (addToFolder folderId moved children) as [children'|].
      * split; [|discriminate]. intros items' [= <-].
        apply (appended_below folderId moved [] id name children children' rest).
        now apply IHcs.
      * destruct (addToFolder folderId moved rest) as [rest'|]; cbn [fmap option_fmap option_map].
        -- split; [|discriminate]. intros items' [= <-].
           now apply AppendedIn_cons, IHrs.
        -- split; [discriminate|]. intros _ f.
           rewrite allEntries_folder. intros [<-|[Hin|Hin]%in_app_iff] Hf.
           ++ exact Hne.
           ++ now apply IHcn.
           ++ now apply IHrn.
Qed.

End MoveToFolder.

Section MoveToFolderLabels.

Lemma labels_app l1 l2 : labels (l1 ++ l2) = labels l1 ++ labels l2.
Proof. unfold labels. now rewrite allEntries_app, List.map_app. Qed.

Lemma labels_folder id name children rest :
  labels (FavFolder id name children :: rest)
  = FavFolder id name [] :: labels children ++ labels rest.
Proof. unfold labels. rewrite allEntries_folder. simpl. now rewrite List.map_app. Qed.

Lemma labels_cons it rest : labels (it :: rest) = labels [it] ++ labels rest.
Proof. apply (labels_app [it] rest). Qed.

Lemma Detached_labels m l l' :
  Detached m l l' -> Permutation (labels l) (labels [m] ++ labels l').
Proof.
  induction 1 as [pre post|pre id name ch ch' post _ IH].
  - rewrite !labels_app, (labels_cons m post).
    apply Permutation_app_swap_app.
  - rewrite !labels_app, !labels_folder, IH.
    change (FavFolder id name [] :: (labels [m] ++ labels ch') ++ labels post)
      with ([FavFolder id name []] ++ (labels [m] ++ labels ch') ++ labels post).
    change (FavFolder id name [] :: labels ch' ++ labels post)
      with ([FavFolder id name []] ++ labels ch' ++ labels post).
    rewrite <- (app_assoc (labels [m])).
    rewrite (Permutation_app_swap_app [FavFolder id name []] (labels [m])).
    apply Permutation_app_swap_app.
Qed.

Lemma AppendedIn_labels fid m l l' :
  AppendedIn fid m l l' -> Permutation (labels l') (labels l ++ labels [m]).
Proof.
  induction 1 as [pre name ch post|pre id name ch ch' post _ IH].
  - rewrite !labels_app, !labels_folder, labels_app.
    rewrite <- !app_assoc. apply Permutation_app_head.
    rewrite <- !app_comm_cons. apply perm_skip.
    rewrite <- !app_assoc. apply Permutation_app_head.
    apply Permutation_app_comm.
  - rewrite !labels_app, !labels_folder, IH.
    rewrite <- !app_assoc. apply Permutation_app_head.
    rewrite <- !app_comm_cons. apply perm_skip.
    rewrite <- !app_assoc. apply Permutation_app_head.
    apply Permutation_app_comm.
Qed.

(** C8: [moveFavoriteToFolder] changes nothing when no entry of the forest
    carries the id.  Otherwise an entry carrying the id is detached from the
    array that holds it, and then appended to the children of a folder
    carrying [folderId] when the remaining forest has one, and to the top
    level when it has none; either way the forest keeps the same entries. *)
Theorem C8_move_to_folder (items : list FavEntry) (itemId folderId : string) :
  ((forall e, In e (allEntries items) -> fav_id e <> itemId) ->
   moveFavoriteToFolder items itemId folderId = None
   /\ storeAfter items (moveFavoriteToFolder items itemId folderId) = items) /\
  ((exists e, In e (allEntries items) /\ fav_id e = itemId) ->
   exists moved rest items',
     fav_id moved = itemId
     /\ Detached moved items rest
     /\ moveFavoriteToFolder items itemId folderId = Some items'
     /\ ((exists f, In f (allEntries rest) /\ isFolder f = true /\ fav_id f = folderId) ->
         AppendedIn folderId moved rest items')
     /\ ((forall f, In f (allEntries rest) -> isFolder f = true -> fav_id f <> folderId) ->
         items' = rest ++ [moved])
     /\ Permutation (labels items) (labels items')).
Proof.
  destruct (removeFrom_sound itemId items) as [Hsome Hnone].
  unfold moveFavoriteToFolder.
  destruct (removeFrom itemId items) as [[moved rest]|].
  - split.
    + intros Hnot. destruct (Hsome _ _ eq_refl) as [Hid Hdet]. exfalso.
      apply (Hnot moved); [|exact Hid].
      clear -Hdet. induction Hdet as [pre post|pre id name ch ch' post _ IH].
      * rewrite allEntries_app. apply in_or_app. right.
        rewrite allEntries_cons. now left.
      * rewrite allEntries_app. apply in_or_app. right.
        rewrite allEntries_folder. right. apply in_or_app. now left.
    + intros _. destruct (Hsome _ _ eq_refl) as [Hid Hdet].
      destruct (addToFolder_sound folderId moved rest) as [Hadd Hnofolder].
      pose proof (Detached_labels _ _ _ Hdet) as Hperm.
      destruct (addToFolder folderId moved rest) as [items'|].
      * exists moved, rest, items'.
        specialize (Hadd _ eq_refl).
        split; [exact Hid|]. split; [exact Hdet|]. split; [reflexivity|].
        split; [intros _; exact Hadd|]. split.
        -- intros Hno. exfalso. clear -Hadd Hno.
           induction Hadd as [pre name ch post|pre id name ch ch' post _ IH].
           ++ apply (Hno (FavFolder folderId name ch)); [|reflexivity|reflexivity].
              rewrite allEntries_app. apply in_or_app. right. now left.
           ++ apply IH. intros f Hf. apply Hno.
              rewrite allEntries_app. apply in_or_app. right.
              rewrite allEntries_folder. right. apply in_or_app. now left.
        -- rewrite Hperm, (AppendedIn_labels _ _ _ _ Hadd).
           apply Permutation_app_comm.
      * exists moved, rest, (rest ++ [moved]).
        split; [exact Hid|]. split; [exact Hdet|]. split; [reflexivity|].
        split; [|split; [reflexivity|]].
        -- intros (f & Hf & Hfolder & Hfid). exfalso.
           now apply (Hnofolder eq_refl f Hf Hfolder).
        -- rewrite Hperm, labels_app. apply Permutation_app_comm.
  - split.
    + intros _. split; reflexivity.
    + intros (e & He & Hid). exfalso. now apply (Hnone eq_refl e He).
Qed.

End MoveToFolderLabels.

(** ** Reordering a favorite *)

Section Adjacent.

Context {A B : Type}.

Lemma adjacent_lookup (l : list A) n x y :
  l !! n = Some x -> l !! S n = Some y -> adjacent l x y.
Proof.
  intros Hx Hy. exists (take n l), (drop (S (S n)) l).
  rewrite <- (take_drop_middle l n x Hx) at 1. f_equal. f_equal.
  rewrite <- (take_drop_middle l (S n) y Hy) at 1.
  rewrite drop_app_length'; [reflexivity|].
  rewrite length_take. apply lookup_lt_Some in Hy. lia.
Qed.

Lemma adjacent_cons (l : list A) x a b :
  adjacent (x :: l) a b -> (a = x /\ head l = Some b) \/ adjacent l a b.
Proof.
  intros ([|z l1] & l2 & H); simpl in H.
  - injection H as -> ->. now left.
  - injection H as -> ->. right. now exists l1, l2.
Qed.

Lemma adjacent_app (l1 l2 : list A) a b :
  adjacent (l1 ++ l2) a b ->
  adjacent l1 a b \/ (last l1 = Some a /\ head l2 = Some b) \/ adjacent l2 a b.
Proof.
  induction l1 as [|x l1 IH]; simpl.
  - intros H. right. now right.
  - intros [[-> Hh]|H]%adjacent_cons.
    + destruct l1 as [|z l1].
      * right. left. split; [reflexivity|exact Hh].
      * simpl in Hh. injection Hh as ->. left. now exists [], l1.
    + destruct (IH H) as [(p & q & ->)|[[Hl Hh]|Hadj]].
      * left. now exists (x :: p), q.
      * right. left. split; [|exact Hh].
        destruct l1; [discriminate Hl|exact Hl].
      * right. now right.
Qed.

Lemma adjacent_map (f : A -> B) (l : list A) a b :
  adjacent (List.map f l) a b ->
  exists a' b', adjacent l a' b' /\ a = f a' /\ b = f b'.
Proof.
  intros (l1 & l2 & H).
  apply map_eq_app in H as (p & q & -> & <- & H).
  apply map_eq_cons in H as (a' & q' & -> & <- & H).
  apply map_eq_cons in H as (b' & q'' & -> & <- & H).
  exists a', b'. split; [now exists p, q''|]. now split.
Qed.

Lemma head_map (f : A -> B) (l : list A) : head (List.map f l) = f <$> head l.
Proof. destruct l; reflexivity. Qed.

Lemma last_map (f : A -> B) (l : list A) : last (List.map f l) = f <$> last l.
Proof.
  induction l as [|x l IH]; [reflexivity|].
  destruct l as [|y l]; [reflexivity|]. exact IH.
Qed.

Lemma last_In (l : list A) x : last l = Some x -> In x l.
Proof.
  induction l as [|y l IH]; [discriminate|].
  destruct l as [|z l]; [intros [= ->]; now left|].
  intros H. right. now apply IH.
Qed.

End Adjacent.

Section Paths.

Lemma shiftHead_0 p : shiftHead 0 p = p.
Proof. destruct p; reflexivity. Qed.

Lemma shiftHead_shiftHead j k p : shiftHead j (shiftHead k p) = shiftHead (j + k) p.
Proof. destruct p; simpl; [reflexivity|]. f_equal. lia. Qed.

Lemma parentPath_cons k p : p <> [] -> parentPath (k :: p) = k :: parentPath p.
Proof. destruct p; [congruence|reflexivity]. Qed.

Lemma parentPath_shiftHead k p : parentPath (shiftHead k p) = shiftHead k (parentPath p).
Proof. destruct p as [|i [|j q]]; reflexivity. Qed.

Lemma shiftHead_inj k p q : shiftHead k p = shiftHead k q -> p = q.
Proof.
  destruct p, q; simpl; try congruence.
  intros [= H ->]. f_equal. lia.
Qed.

Lemma parentPath_snoc (pp : Path) i : parentPath (pp ++ [i]) = pp.
Proof. apply removelast_last. Qed.

Lemma last_snoc (pp : Path) i : List.last (pp ++ [i]) 0 = i.
Proof. apply last_last. Qed.

(** [flatWithPath] under a prefix and from an index is the flattening of the
    array taken as root, with every path rebased. *)
Lemma flatLoop_rebase items :
  forall prefix i0,
    flatLoop flatChildren items prefix i0
    = List.map (rebase prefix i0) (flat0 items).
Proof.
  induction items as [|id iso slug name rest IH|id name children rest IHc IHr]
    using forest_ind; intros prefix i0.
  - reflexivity.
  - unfold flat0. simpl. unfold rebase at 1. simpl.
    rewrite Nat.add_0_r. f_equal.
    rewrite (IH prefix (S i0)), (IH [] 1), List.map_map.
    apply List.map_ext. intros [e p]. unfold rebase. simpl.
    rewrite shiftHead_shiftHead. do 3 f_equal. lia.
  - unfold flat0. simpl. unfold rebase at 1. simpl.
    rewrite Nat.add_0_r. f_equal.
    rewrite List.map_app. f_equal.
    + rewrite (IHc (prefix ++ [i0]) 0), (IHc [0] 0), List.map_map.
      apply List.map_ext. intros [e p]. unfold rebase. simpl.
      rewrite Nat.add_0_r, <- app_assoc. reflexivity.
    + rewrite (IHr prefix (S i0)), (IHr [] 1), List.map_map.
      apply List.map_ext. intros [e p]. unfold rebase. simpl.
      rewrite shiftHead_shiftHead. do 3 f_equal. lia.
Qed.

Lemma flat0_cons it rest :
  flat0 (it :: rest)
  = (it, [0]) :: List.map (fun e => (fst e, 0 :: snd e)) (flat0 (childrenOf it))
              ++ List.map (fun e => (fst e, shiftHead 1 (snd e))) (flat0 rest).
Proof.
  unfold flat0 at 1. simpl. f_equal. f_equal.
  - destruct it as [|id name children]; [reflexivity|].
    simpl. rewrite flatLoop_rebase. apply List.map_ext.
    intros [e p]. unfold rebase. simpl. now rewrite shiftHead_0.
  - rewrite flatLoop_rebase. apply List.map_ext. intros [e p]. reflexivity.
Qed.

Lemma flatWithPath_flat0 items : flatWithPath items [] = flat0 items.
Proof. reflexivity. Qed.

Lemma map_fst_repath (g : Path -> Path) (l : list (FavEntry * Path)) :
  List.map fst (List.map (fun e => (fst e, g (snd e))) l) = List.map fst l.
Proof. rewrite List.map_map. now apply List.map_ext. Qed.

(** The flattened sequence lists the entries depth first. *)
Lemma flat0_entries items : List.map fst (flat0 items) = allEntries items.
Proof.
  induction items as [|id iso slug name rest IH|id name children rest IHc IHr]
    using forest_ind.
  - reflexivity.
  - rewrite flat0_cons, allEntries_channel.
    cbn [childrenOf flat0 flatLoop List.map app fst].
    now rewrite (map_fst_repath (shiftHead 1)), IH.
  - rewrite flat0_cons, allEntries_folder.
    cbn [childrenOf List.map fst].
    rewrite List.map_app, (map_fst_repath (cons 0)), (map_fst_repath (shiftHead 1)).
    now rewrite IHc, IHr.
Qed.

Lemma flat0_path_nonempty items e p : In (e, p) (flat0 items) -> p <> [].
Proof.
  revert e p. induction items as [|it rest IH]; intros e p; [intros []|].
  rewrite flat0_cons. intros [[= <- <-]|[H|H]%in_app_iff].
  - discriminate.
  - apply in_map_iff in H as ([e' p'] & [= <- <-] & _). discriminate.
  - apply in_map_iff in H as ([e' p'] & [= <- <-] & H).
    apply IH in H. destruct p'; [congruence|discriminate].
Qed.

Lemma flat0_head it rest : head (flat0 (it :: rest)) = Some (it, [0]).
Proof. now rewrite flat0_cons. Qed.

End Paths.

Section UpDown.

Lemma adjacent_In {A} (l : list A) x y : adjacent l x y -> In x l /\ In y l.
Proof.
  intros (l1 & l2 & ->). split; apply in_or_app; right.
  - now left.
  - right. now left.
Qed.

Lemma adjacent_nil {A} (x y : A) : ~ adjacent [] x y.
Proof. intros ([|z l1] & l2 & H); discriminate H. Qed.

Lemma neighboursAreSiblings_cons it rest :
  neighboursAreSiblings (childrenOf it) -> neighboursAreSiblings rest ->
  neighboursAreSiblings (it :: rest).
Proof.
  intros IHc IHr a pa b pb Hadj Hpar. rewrite flat0_cons in Hadj.
  apply adjacent_cons in Hadj as [[[= -> ->] Hh]|Hadj].
  - (* the entry itself, then whatever follows it *)
    destruct (flat0 (childrenOf it)) as [|[c pc] C] eqn:EC.
    + simpl in Hh. rewrite head_map in Hh.
      destruct rest as [|it' rest']; [simpl in Hh; discriminate Hh|].
      rewrite flat0_head in Hh. simpl in Hh. injection Hh as <- <-.
      exists [], 0, (it :: it' :: rest'). repeat split; reflexivity.
    + simpl in Hh. injection Hh as <- <-. exfalso.
      assert (pc <> []) as Hne.
      { apply (flat0_path_nonempty (childrenOf it) c). rewrite EC. now left. }
      rewrite (parentPath_cons 0 pc Hne) in Hpar. discriminate Hpar.
  - apply adjacent_app in Hadj as [Hadj|[[Hl Hh]|Hadj]].
    + (* both below the entry *)
      apply adjacent_map in Hadj as ([a' pa'] & [b' pb'] & Hadj & [= -> ->] & [= -> ->]).
      destruct (adjacent_In _ _ _ Hadj) as [Hina Hinb].
      apply flat0_path_nonempty in Hina, Hinb.
      rewrite (parentPath_cons 0 pa' Hina), (parentPath_cons 0 pb' Hinb) in Hpar.
      injection Hpar as Hpar.
      destruct (IHc _ _ _ _ Hadj Hpar) as (pp & i & arr & -> & -> & Harr & Hi & HSi).
      destruct it as [|id name children]; [now apply adjacent_nil in Hadj|].
      exists (0 :: pp), i, arr. repeat split; assumption.
    + (* the last entry below, then the next sibling *)
      exfalso. rewrite last_map in Hl. rewrite head_map in Hh.
      destruct (last (flat0 (childrenOf it))) as [[a' pa']|] eqn:El;
        [|simpl in Hl; discriminate Hl].
      apply last_In, flat0_path_nonempty in El.
      simpl in Hl. injection Hl as <- <-.
      destruct rest as [|it' rest']; [simpl in Hh; discriminate Hh|].
      rewrite flat0_head in Hh. simpl in Hh. injection Hh as <- <-.
      rewrite (parentPath_cons 0 pa' El) in Hpar. discriminate Hpar.
    + (* both among the later siblings *)
      apply adjacent_map in Hadj as ([a' pa'] & [b' pb'] & Hadj & [= -> ->] & [= -> ->]).
      rewrite !parentPath_shiftHead in Hpar. apply shiftHead_inj in Hpar.
      destruct (IHr _ _ _ _ Hadj Hpar) as (pp & i & arr & -> & -> & Harr & Hi & HSi).
      destruct pp as [|k pp].
      * injection Harr as <-. exists [], (S i), (it :: rest).
        repeat split; assumption.
      * exists (S k :: pp), i, arr. repeat split; assumption.
Qed.

Lemma neighboursAreSiblings_all items : neighboursAreSiblings items.
Proof.
  induction items as [|id iso slug name rest IH|id name children rest IHc IHr]
    using forest_ind.
  - intros a pa b pb Hadj. now apply adjacent_nil in Hadj.
  - apply neighboursAreSiblings_cons; [|exact IH].
    intros a pa b pb Hadj. now apply adjacent_nil in Hadj.
  - now apply neighboursAreSiblings_cons.
Qed.

(** Exchanging the neighbours [i] and [i + 1] of an array, whichever index
    is named first. *)
Lemma swapAt_neighbours arr :
  forall i x y,
    arr !! i = Some x -> arr !! S i = Some y ->
    exists pre post,
      arr = pre ++ x :: y :: post
      /\ swapAt i (S i) arr = pre ++ y :: x :: post
      /\ swapAt (S i) i arr = pre ++ y :: x :: post.
Proof.
  induction arr as [|a arr IH]; intros i x y Hx Hy; [discriminate Hx|].
  destruct i as [|i].
  - destruct arr as [|b arr]; [discriminate Hy|].
    injection Hx as ->. injection Hy as ->.
    exists [], arr. repeat split; reflexivity.
  - destruct (IH i x y Hx Hy) as (pre & post & -> & H1 & H2).
    exists (a :: pre), post. split; [reflexivity|].
    unfold swapAt in *. simpl in Hx, Hy.
    change ((a :: pre ++ x :: y :: post) !! S i) with ((pre ++ x :: y :: post) !! i).
    change ((a :: pre ++ x :: y :: post) !! S (S i))
      with ((pre ++ x :: y :: post) !! S i).
    rewrite Hx, Hy in *. simpl. split; f_equal; assumption.
Qed.

Lemma swapInArrayAt_swapped pp :
  forall items arr i x y,
    arrayAt pp items = Some arr -> arr !! i = Some x -> arr !! S i = Some y ->
    SwappedSiblings x y items (swapInArrayAt pp i (S i) items)
    /\ SwappedSiblings x y items (swapInArrayAt pp (S i) i items).
Proof.
  induction pp as [|k pp IH]; intros items arr i x y Harr Hx Hy.
  - injection Harr as <-. simpl.
    destruct (swapAt_neighbours items i x y Hx Hy) as (pre & post & -> & -> & ->).
    split; constructor.
  - simpl in Harr |- *.
    destruct (items !! k) as [[|id name children]|] eqn:Hk; try discriminate Harr.
    destruct (IH children arr i x y Harr Hx Hy) as [H1 H2].
    rewrite !insert_take_drop by (eapply lookup_lt_Some; exact Hk).
    pose proof (take_drop_middle items k _ Hk) as Hsplit.
    split; rewrite <- Hsplit at 1; now constructor.
Qed.

End UpDown.

Section UpDownTheorem.

Lemma moveFavoriteUpDown_found items itemId dir idx a pa :
  list_find (fun e => fav_id (fst e) = itemId) (flatWithPath items []) = Some (idx, (a, pa)) ->
  moveFavoriteUpDown items itemId dir =
  if String.eqb dir "up" && (idx =? 0) then None
  else
    match flatWithPath items [] !! (if String.eqb dir "up" then idx - 1 else idx + 1) with
    | None => None
    | Some (b, pb) =>
        if decide (parentPath pa = parentPath pb)
        then Some (swapInArrayAt (parentPath pa) (List.last pa 0) (List.last pb 0) items)
        else None
    end.
Proof.
  intros H. unfold moveFavoriteUpDown. rewrite H.
  destruct (String.eqb dir "up" && (idx =? 0)); [reflexivity|].
  destruct (flatWithPath items [] !! _) as [[b pb]|]; reflexivity.
Qed.

(** C7: the flattened sequence of [moveFavoriteUpDown] lists the entries
    depth first, a folder being followed by what it holds.  The forest is
    left unchanged when no entry carries the id, when the first entry [a]
    that carries it has no neighbour in the flattened sequence in the given
    direction, and when that neighbour [b] lies in another array than [a];
    when both lie in the same array they are exchanged in that array and
    nothing else changes. *)
Theorem C7_move_up_down (items : list FavEntry) (itemId dir : string) :
  let flat := flatWithPath items [] in
  let result := moveFavoriteUpDown items itemId dir in
  List.map fst flat = allEntries items /\
  ((forall e, In e (allEntries items) -> fav_id e <> itemId) ->
   result = None /\ storeAfter items result = items) /\
  (forall idx a pa,
      flat !! idx = Some (a, pa) ->
      fav_id a = itemId ->
      (forall k e, k < idx -> flat !! k = Some e -> fav_id (fst e) <> itemId) ->
      ((dir = "up" /\ idx = 0) \/ (dir <> "up" /\ flat !! S idx = None) ->
       result = None /\ storeAfter items result = items) /\
      (forall b pb,
          (dir = "up" /\ exists n, idx = S n /\ flat !! n = Some (b, pb))
          \/ (dir <> "up" /\ flat !! S idx = Some (b, pb)) ->
          (parentPath pa <> parentPath pb ->
           result = None /\ storeAfter items result = items) /\
          (parentPath pa = parentPath pb ->
           exists items',
             result = Some items' /\
             if String.eqb dir "up"
             then SwappedSiblings b a items items'
             else SwappedSiblings a b items items'))).
Proof.
  intros flat result.
  assert (Hentries : List.map fst flat = allEntries items).
  { unfold flat. rewrite flatWithPath_flat0. apply flat0_entries. }
  split; [exact Hentries|]. split.
  - intros Hnone.
    assert (result = None) as ->; [|split; reflexivity].
    unfold result, moveFavoriteUpDown. fold flat.
    assert (list_find (fun e => fav_id (fst e) = itemId) flat = None) as ->;
      [|reflexivity].
    apply list_find_None, List.Forall_forall. intros [e p] Hin.
    apply Hnone. rewrite <- Hentries.
    apply in_map_iff. now exists (e, p).
  - intros idx a pa Hidx Hid Hfirst.
    assert (Hfind : list_find (fun e => fav_id (fst e) = itemId) flat
                    = Some (idx, (a, pa))).
    { apply list_find_Some. split; [exact Hidx|]. split; [exact Hid|].
      intros j y Hj Hlt. now apply (Hfirst j y). }
    pose proof (moveFavoriteUpDown_found items itemId dir idx a pa Hfind) as Hmove.
    fold flat result in Hmove.
    split.
    + intros [[-> ->]|[Hdir Hnext]].
      * rewrite Hmove. split; reflexivity.
      * apply String.eqb_neq in Hdir. rewrite Hmove, Hdir.
        replace (idx + 1) with (S idx) by lia.
        rewrite Hnext. split; reflexivity.
    + intros b pb [[-> (n & -> & Hb)]|[Hdir Hb]].
      * (* up: [b] stands just before [a] *)
        change (String.eqb "up" "up") with true in Hmove |- *.
        replace (S n - 1) with n in Hmove by lia.
        rewrite Hb in Hmove. simpl in Hmove. split.
        -- intros Hne. rewrite Hmove.
           destruct (decide (parentPath pa = parentPath pb)); [contradiction|].
           split; reflexivity.
        -- intros Heq. rewrite Hmove.
           destruct (decide (parentPath pa = parentPath pb)); [|contradiction].
           eexists. split; [reflexivity|].
           pose proof (adjacent_lookup flat n (b, pb) (a, pa) Hb Hidx) as Hadj.
           destruct (neighboursAreSiblings_all items b pb a pa Hadj (eq_sym Heq))
             as (pp & i & arr & -> & -> & Harr & Hi & HSi).
           rewrite parentPath_snoc, !last_snoc.
           apply (swapInArrayAt_swapped pp items arr i b a Harr Hi HSi).
      * (* down: [b] stands just after [a] *)
        apply String.eqb_neq in Hdir. rewrite Hdir in Hmove |- *.
        replace (idx + 1) with (S idx) in Hmove by lia.
        rewrite Hb in Hmove. simpl in Hmove. split.
        -- intros Hne. rewrite Hmove.
           destruct (decide (parentPath pa = parentPath pb)); [contradiction|].
           split; reflexivity.
        -- intros Heq. rewrite Hmove.
           destruct (decide (parentPath pa = parentPath pb)); [|contradiction].
           eexists. split; [reflexivity|].
           pose proof (adjacent_lookup flat idx (a, pa) (b, pb) Hidx Hb) as Hadj.
           destruct (neighboursAreSiblings_all items a pa b pb Hadj Heq)
             as (pp & i & arr & -> & -> & Harr & Hi & HSi).
           rewrite parentPath_snoc, !last_snoc.
           apply (swapInArrayAt_swapped pp items arr i a b Harr Hi HSi).
Qed.

End UpDownTheorem.

(** ** The moves on a sample forest *)

Section SampleForest.

Example flat_sampleForest :
  List.map snd (flatWithPath sampleForest []) = [[0]; [1]; [1; 0]; [1; 1]; [2]].
Proof. reflexivity. Qed.

(** Moved down, the channel ["a"] passes the folder ["f"] and all it holds. *)
Example down_past_a_folder :
  moveFavoriteUpDown sampleForest "a" "down"
  = Some [FavFolder "f" "News" [FavChannel "b" "FR" "france-24" "France 24";
                                FavFolder "g" "Empty" []];
          FavChannel "a" "FR" "tf1" "TF1";
          FavChannel "c" "DE" "zdf" "ZDF"].
Proof. reflexivity. Qed.

(** A folder that holds entries cannot go down: the entry after it in the
    flattened sequence is its first child. *)
Example folder_with_children_stays :
  moveFavoriteUpDown sampleForest "f" "down" = None.
Proof. reflexivity. Qed.

(** Without a folder carrying the id, the entry goes to the top level. *)
Example unknown_folder_top_level :
  moveFavoriteToFolder sampleForest "b" "nowhere"
  = Some [FavChannel "a" "FR" "tf1" "TF1";
          FavFolder "f" "News" [FavFolder "g" "Empty" []];
          FavChannel "c" "DE" "zdf" "ZDF";
          FavChannel "b" "FR" "france-24" "France 24"].
Proof. reflexivity. Qed.

(** A folder sent into a folder it holds goes to the top level: once it is
    detached, the forest no longer has the target. *)
Example folder_into_own_child :
  moveFavoriteToFolder sampleForest "f" "g"
  = Some [FavChannel "a" "FR" "tf1" "TF1";
          FavChannel "c" "DE" "zdf" "ZDF";
          FavFolder "f" "News" [FavChannel "b" "FR" "france-24" "France 24";
                                FavFolder "g" "Empty" []]].
Proof. reflexivity. Qed.

(** C7 on the sample forest: moving ["b"] down exchanges it with its next
    sibling, the empty folder ["g"]; moving ["c"] up does nothing, because
    the entry before it in the flattened sequence lies inside the folder
    ["f"]. *)
Lemma C7_move_up_down_witness :
  (exists items',
      moveFavoriteUpDown sampleForest "b" "down" = Some items'
      /\ SwappedSiblings (FavChannel "b" "FR" "france-24" "France 24")
                         (FavFolder "g" "Empty" []) sampleForest items')
  /\ moveFavoriteUpDown sampleForest "c" "up" = None.
Proof.
  split.
  - destruct (C7_move_up_down sampleForest "b" "down") as (_ & _ & H).
    destruct (H 2 (FavChannel "b" "FR" "france-24" "France 24") [1; 0]
                eq_refl eq_refl) as [_ Hb].
    + intros k e Hk. destruct k as [|[|k]]; [| |lia]; intros [= <-]; discriminate.
    + destruct (Hb (FavFolder "g" "Empty" []) [1; 1]) as [_ Hswap].
      * right. split; [discriminate|reflexivity].
      * exact (Hswap eq_refl).
  - destruct (C7_move_up_down sampleForest "c" "up") as (_ & _ & H).
    destruct (H 4 (FavChannel "c" "DE" "zdf" "ZDF") [2] eq_refl eq_refl) as [_ Hb].
    + intros k e Hk. destruct k as [|[|[|[|k]]]]; [| | | |lia];
        intros [= <-]; discriminate.
    + destruct (Hb (FavFolder "g" "Empty" []) [1; 1]) as [Hother _].
      * left. split; [reflexivity|]. exists 3. split; reflexivity.
      * apply Hother. discriminate.
Defined.

(** C8 on the sample forest: ["a"] goes into the folder ["g"]. *)
Lemma C8_move_to_folder_witness :
  exists moved rest items',
    fav_id moved = "a"
    /\ Detached moved sampleForest rest
    /\ moveFavoriteToFolder sampleForest "a" "g" = Some items'
    /\ ((exists f, In f (allEntries rest) /\ isFolder f = true /\ fav_id f = "g") ->
        AppendedIn "g" moved rest items')
    /\ ((forall f, In f (allEntries rest) -> isFolder f = true -> fav_id f <> "g") ->
        items' = rest ++ [moved])
    /\ Permutation (labels sampleForest) (labels items').
Proof.
  apply (proj2 (C8_move_to_folder sampleForest "a" "g")).
  exists (FavChannel "a" "FR" "tf1" "TF1"). split; [left; reflexivity|reflexivity].
Defined.

(** C9 on the sample forest, which already holds the key (FR, tf1), and on
    the empty forest, which does not. *)
Lemma C9_add_favorite_witness :
  addChannelToFavorites "f_1" sampleForest tf1 = None
  /\ addChannelToFavorites "f_1" [] tf1 = Some [FavChannel "f_1" "FR" "tf1" "TF1"]
  /\ addChannelToFavorites "f_2" [FavChannel "f_1" "FR" "tf1" "TF1"] tf1 = None.
Proof.
  split; [|split].
  - apply (proj1 (C9_add_favorite "f_1" sampleForest tf1)).
    exists "a", "FR", "tf1", "TF1". split; [left; reflexivity|split; reflexivity].
  - apply (proj2 (C9_add_favorite "f_1" [] tf1)).
    intros (id & i & s & n & [] & _).
  - refine (proj2 (proj2 (proj2 (C9_add_favorite "f_1" [] tf1) _)) "f_2" tf1 eq_refl eq_refl).
    intros (id & i & s & n & [] & _).
Defined.

End SampleForest.

(* ================================================================== *)
(** * Part IV. Further properties                                      *)
(* ================================================================== *)

(** ** Trash store *)

Section TrashStore.

Lemma isChannelInTrash_key trash iso slug :
  isChannelInTrash trash iso slug = true <->
  exists e, In e trash /\ trashKey e = (JS.toUpperCase iso, JS.toLowerCase slug).
Proof.
  unfold isChannelInTrash. rewrite existsb_exists. split.
  - intros (e & He & [Hi%String.eqb_eq Hs%String.eqb_eq]%andb_prop).
    exists e. split; [exact He|]. unfold trashKey. now rewrite Hi, Hs.
  - intros (e & He & [= Hi Hs]). exists e. split; [exact He|].
    now rewrite Hi, Hs, !String.eqb_refl.
Qed.

Lemma isChannelInTrash_app t1 t2 iso slug :
  isChannelInTrash (t1 ++ t2) iso slug
  = isChannelInTrash t1 iso slug || isChannelInTrash t2 iso slug.
Proof. unfold isChannelInTrash. apply existsb_app. Qed.

Lemma channelKey_norm ch :
  (JS.toUpperCase (isoUpper ch), JS.toLowerCase (channelSlug ch)) = channelKey ch.
Proof. unfold channelKey. now rewrite isoUpper_idem, channelSlug_lower. Qed.

Lemma trashAfterAdd_cases trash ch :
  (isChannelInTrash trash (isoUpper ch) (channelSlug ch) = true
   /\ trashAfterAdd trash ch = trash)
  \/ (isChannelInTrash trash (isoUpper ch) (channelSlug ch) = false
      /\ trashAfterAdd trash ch
         = trash ++ [mkTrash (isoUpper ch) (channelSlug ch)
                             (JS.orDefault (ch_name ch) "Channel")]).
Proof.
  unfold trashAfterAdd, addChannelToTrash.
  destruct (isChannelInTrash trash (isoUpper ch) (channelSlug ch)); [left|right];
    split; reflexivity.
Qed.

Lemma isChannelInTrash_single ch nm :
  isChannelInTrash [mkTrash (isoUpper ch) (channelSlug ch) nm]
                   (isoUpper ch) (channelSlug ch) = true.
Proof.
  apply isChannelInTrash_key. eexists. split; [now left|].
  unfold trashKey. reflexivity.
Qed.

(** X1: after [addChannelToTrash] the channel's key is in the trash, every
    earlier entry is still there in its place, and a trash whose keys were
    pairwise different still has pairwise different keys. *)
Theorem X1_trash_add (trash : list TrashEntry) (ch : Channel) :
  isChannelInTrash (trashAfterAdd trash ch) (isoUpper ch) (channelSlug ch) = true /\
  (exists added, trashAfterAdd trash ch = trash ++ added /\ length added <= 1) /\
  (NoDup (List.map trashKey trash) ->
   NoDup (List.map trashKey (trashAfterAdd trash ch))).
Proof.
  destruct (trashAfterAdd_cases trash ch) as [[Hin ->]|[Hout ->]].
  - split; [exact Hin|]. split; [|auto].
    exists []. split; [now rewrite app_nil_r|simpl; lia].
  - split; [|split].
    + rewrite isChannelInTrash_app, isChannelInTrash_single. apply orb_true_r.
    + eexists. split; [reflexivity|simpl; lia].
    + intros Hnd. rewrite List.map_app. simpl.
      apply NoDup_app. split; [exact Hnd|]. split.
      * intros k Hk Hk2. apply list_elem_of_singleton in Hk2 as ->.
        apply list_elem_of_In, in_map_iff in Hk as (e & Hkey & He).
        assert (isChannelInTrash trash (isoUpper ch) (channelSlug ch) = true);
          [|congruence].
        apply isChannelInTrash_key. exists e. split; [exact He|].
        rewrite Hkey. unfold trashKey. simpl. reflexivity.
      * apply NoDup_singleton.
Qed.

Lemma removeChannelFromTrash_In trash iso slug e :
  In e (removeChannelFromTrash trash iso slug) <->
  In e trash /\ trashKey e <> (JS.toUpperCase iso, JS.toLowerCase slug).
Proof.
  unfold removeChannelFromTrash. rewrite filter_In, orb_true_iff, !negb_true_iff.
  unfold trashKey. split; intros [He H]; (split; [exact He|]).
  - intros [= Hi Hs]. rewrite Hi, Hs, !String.eqb_refl in H. now destruct H.
  - destruct (String.eqb_spec (JS.toUpperCase (tr_iso e)) (JS.toUpperCase iso)) as [Hi|];
      [|now left].
    destruct (String.eqb_spec (JS.toLowerCase (tr_slug e)) (JS.toLowerCase slug)) as [Hs|];
      [|now right].
    exfalso. apply H. now rewrite Hi, Hs.
Qed.

(** X2: after [removeChannelFromTrash] the key is no longer in the trash, and
    whether any other key is in the trash has not changed. *)
Theorem X2_trash_remove (trash : list TrashEntry) (iso slug : string) :
  isChannelInTrash (removeChannelFromTrash trash iso slug) iso slug = false /\
  (forall iso' slug',
      (JS.toUpperCase iso', JS.toLowerCase slug')
      <> (JS.toUpperCase iso, JS.toLowerCase slug) ->
      isChannelInTrash (removeChannelFromTrash trash iso slug) iso' slug'
      = isChannelInTrash trash iso' slug').
Proof.
  split.
  - apply not_true_is_false. intros (e & He & Hk)%isChannelInTrash_key.
    apply removeChannelFromTrash_In in He as [_ Hne]. contradiction.
  - intros iso' slug' Hne. apply eq_true_iff_eq.
    rewrite !isChannelInTrash_key. split.
    + intros (e & [He _]%removeChannelFromTrash_In & Hk). now exists e.
    + intros (e & He & Hk). exists e. split; [|exact Hk].
      apply removeChannelFromTrash_In. split; [exact He|]. now rewrite Hk.
Qed.

Lemma filter_all {A} (p : A -> bool) l :
  (forall x, In x l -> p x = true) -> List.filter p l = l.
Proof.
  induction l as [|a l IH]; intros H; simpl; [reflexivity|].
  rewrite (H a (or_introl eq_refl)). f_equal. apply IH. intros x Hx. apply H. now right.
Qed.

(** X3: restoring a channel that was not in the trash before it was trashed
    gives back the trash as it was. *)
Theorem X3_trash_restore (trash : list TrashEntry) (ch : Channel) :
  isChannelInTrash trash (isoUpper ch) (channelSlug ch) = false ->
  removeChannelFromTrash (trashAfterAdd trash ch) (isoUpper ch) (channelSlug ch)
  = trash.
Proof.
  intros Hout.
  destruct (trashAfterAdd_cases trash ch) as [[Hin _]|[_ ->]]; [congruence|].
  unfold removeChannelFromTrash. rewrite List.filter_app. simpl.
  rewrite isoUpper_idem, channelSlug_lower, !String.eqb_refl. simpl.
  rewrite app_nil_r. apply filter_all. intros e He.
  destruct (String.eqb_spec (JS.toUpperCase (tr_iso e)) (isoUpper ch)) as [Hi|];
    [|reflexivity].
  destruct (String.eqb_spec (JS.toLowerCase (tr_slug e)) (channelSlug ch)) as [Hs|];
    [|reflexivity].
  exfalso. assert (isChannelInTrash trash (isoUpper ch) (channelSlug ch) = true);
    [|congruence].
  apply isChannelInTrash_key. exists e. split; [exact He|].
  unfold trashKey. now rewrite Hi, Hs, channelKey_norm.
Qed.

(** X3 on the example: TF1 trashed, then restored. *)
Lemma X3_trash_restore_witness :
  removeChannelFromTrash (trashAfterAdd sampleTrash tf1) (isoUpper tf1) (channelSlug tf1)
  = sampleTrash.
Proof. apply X3_trash_restore. reflexivity. Defined.

End TrashStore.

(** ** Trash and the loaders *)

Section TrashAndLoaders.

Lemma hasKey_spec iso slug c :
  hasKey iso slug c = true <->
  channelKey c = (JS.toUpperCase iso, JS.toLowerCase slug).
Proof.
  unfold hasKey, channelKey. rewrite andb_true_iff, !String.eqb_eq. split.
  - intros [-> ->]. reflexivity.
  - intros [= -> ->]. split; reflexivity.
Qed.

Lemma notInTrash_key trash c :
  notInTrash trash c = true <-> forall e, In e trash -> trashKey e <> channelKey c.
Proof.
  unfold notInTrash. rewrite negb_true_iff, <- not_true_iff_false.
  rewrite isChannelInTrash_key, channelKey_norm. split.
  - intros H e He Hk. apply H. now exists e.
  - intros H (e & He & Hk). now apply (H e He).
Qed.

Lemma notInTrash_add trash ch c :
  notInTrash (trashAfterAdd trash ch) c
  = notInTrash trash c && negb (hasKey (isoUpper ch) (channelSlug ch) c).
Proof.
  apply eq_true_iff_eq.
  rewrite andb_true_iff, negb_true_iff, <- not_true_iff_false, hasKey_spec.
  rewrite !notInTrash_key, channelKey_norm.
  destruct (trashAfterAdd_cases trash ch) as [[Hin ->]|[Hout ->]].
  - split; [|tauto]. intros H. split; [exact H|].
    intros Hk. apply isChannelInTrash_key in Hin as (e & He & Hke).
    apply (H e He). rewrite Hke, channelKey_norm. now symmetry.
  - split.
    + intros H. split.
      * intros e He. apply H, in_or_app. now left.
      * intros Hk. apply (H (mkTrash (isoUpper ch) (channelSlug ch)
                                      (JS.orDefault (ch_name ch) "Channel"))).
        -- apply in_or_app. right. now left.
        -- unfold trashKey. simpl. rewrite channelKey_norm. now symmetry.
    + intros [H Hk] e [He|[<-|[]]]%in_app_or; [now apply H|].
      unfold trashKey. simpl. rewrite channelKey_norm. intros E. apply Hk. now symmetry.
Qed.

Lemma notInTrash_remove trash iso slug c :
  notInTrash (removeChannelFromTrash trash iso slug) c
  = notInTrash trash c || hasKey iso slug c.
Proof.
  apply eq_true_iff_eq. rewrite orb_true_iff, hasKey_spec, !notInTrash_key. split.
  - intros H.
    destruct (decide (channelKey c = (JS.toUpperCase iso, JS.toLowerCase slug)))
      as [Hk|Hk]; [now right|left].
    intros e He Hke. apply (H e); [|exact Hke].
    apply removeChannelFromTrash_In. split; [exact He|]. now rewrite Hke.
  - intros [H|Hk] e [He Hne]%removeChannelFromTrash_In.
    + now apply H.
    + now rewrite Hk.
Qed.

Lemma filter_and {A} (p q : A -> bool) l :
  List.filter (fun x => p x && q x) l = List.filter q (List.filter p l).
Proof.
  induction l as [|a l IH]; simpl; [reflexivity|].
  destruct (p a); simpl; [|exact IH]. destruct (q a); now rewrite IH.
Qed.

Lemma filter_notInTrash_add trash ch l :
  List.filter (notInTrash (trashAfterAdd trash ch)) l
  = List.filter (fun c => negb (hasKey (isoUpper ch) (channelSlug ch) c))
                (List.filter (notInTrash trash) l).
Proof.
  rewrite <- filter_and. apply List.filter_ext. intros c. apply notInTrash_add.
Qed.

(** X4: trashing a channel removes from the next country or category load
    exactly the listed channels that carry its key (uppercased iso, slug), the
    channel itself and any other channel of the same country and name, and
    leaves the rest in place.  Restoring a key lists again, among the merged
    channels, those that carry it. *)
Theorem X4_trash_and_loads
        (enc : string -> string) (fetch : string -> FetchResult)
        (trash : list TrashEntry) (cc : option string) (categoryName : string) :
  (forall ch,
      loadChannelsForCountry fetch (trashAfterAdd trash ch) cc
      = List.filter (fun c => negb (hasKey (isoUpper ch) (channelSlug ch) c))
                    (loadChannelsForCountry fetch trash cc)
      /\ loadChannelsForCategory enc fetch (trashAfterAdd trash ch) categoryName
         = List.filter (fun c => negb (hasKey (isoUpper ch) (channelSlug ch) c))
                       (loadChannelsForCategory enc fetch trash categoryName)) /\
  (forall iso slug,
      loadChannelsForCountry fetch (removeChannelFromTrash trash iso slug) cc
      = List.filter (fun c => notInTrash trash c || hasKey iso slug c)
                    (default [] (mergedCountryFeed fetch cc))
      /\ loadChannelsForCategory enc fetch
           (removeChannelFromTrash trash iso slug) categoryName
         = List.filter (fun c => notInTrash trash c || hasKey iso slug c)
                       (default [] (mergedCategoryFeed enc fetch categoryName))).
Proof.
  unfold loadChannelsForCountry, loadChannelsForCategory. split.
  - intros ch. split.
    + destruct (mergedCountryFeed fetch cc); [apply filter_notInTrash_add|reflexivity].
    + destruct (mergedCategoryFeed enc fetch categoryName);
        [apply filter_notInTrash_add|reflexivity].
  - intros iso slug. split.
    + destruct (mergedCountryFeed fetch cc); [|reflexivity].
      apply List.filter_ext. intros c. apply notInTrash_remove.
    + destruct (mergedCategoryFeed enc fetch categoryName); [|reflexivity].
      apply List.filter_ext. intros c. apply notInTrash_remove.
Qed.

End TrashAndLoaders.

(** ** Invariants of the merged feed *)

Section MergedFeedInvariants.

Import Spec.

Variable key : Channel -> option string.

Lemma dup_spec E k :
  existsb (fun e => bool_decide (key e = Some k)) E = true <-> k ∈ omap key E.
Proof.
  rewrite existsb_exists, list_elem_of_omap. split.
  - intros (e & He & Hk). exists e. split; [now apply list_elem_of_In|].
    now apply bool_decide_eq_true in Hk.
  - intros (e & He & Hk). exists e. split; [now apply list_elem_of_In|].
    now apply bool_decide_eq_true.
Qed.

Lemma firstOccurrences_sublist E l : sublist (firstOccurrences key E l) l.
Proof.
  revert E. induction l as [|ch l IH]; intros E; simpl; [constructor|].
  destruct (match key ch with Some k => _ | None => false end); simpl.
  - apply sublist_cons, IH.
  - apply sublist_skip, IH.
Qed.

Lemma omap_snoc E ch :
  omap key (E ++ [ch]) = omap key E ++ match key ch with Some k => [k] | None => [] end.
Proof. rewrite omap_app. simpl. now destruct (key ch). Qed.

(** The keys kept are pairwise different and differ from every earlier key. *)
Lemma firstOccurrences_keys E l :
  NoDup (omap key (firstOccurrences key E l))
  /\ forall k, k ∈ omap key (firstOccurrences key E l) -> k ∉ omap key E.
Proof.
  revert E. induction l as [|ch l IH]; intros E; simpl.
  - split; [constructor|]. intros k Hk. now apply elem_of_nil in Hk.
  - destruct (IH (E ++ [ch])) as [IHnd IHnot]. rewrite omap_snoc in IHnot.
    destruct (key ch) as [k0|] eqn:Hkey.
    + destruct (existsb _ E) eqn:Hdup; simpl.
      * split; [exact IHnd|]. intros k Hk Hin.
        apply (IHnot k Hk), elem_of_app. now left.
      * rewrite Hkey. split.
        -- constructor; [|exact IHnd]. intros Hin.
           apply (IHnot k0 Hin), elem_of_app. right. now apply list_elem_of_singleton.
        -- intros k [->|Hk]%elem_of_cons Hin.
           ++ apply dup_spec in Hin. congruence.
           ++ apply (IHnot k Hk), elem_of_app. now left.
    + simpl. rewrite Hkey. split; [exact IHnd|].
      intros k Hk Hin. apply (IHnot k Hk). now rewrite app_nil_r.
Qed.

(** Nothing is lost: a channel that is not kept has the key of an earlier
    channel or of a channel that is kept. *)
Lemma firstOccurrences_cover E l c :
  In c l ->
  In c (firstOccurrences key E l)
  \/ exists k, key c = Some k
               /\ (k ∈ omap key E \/ k ∈ omap key (firstOccurrences key E l)).
Proof.
  revert E. induction l as [|ch l IH]; intros E; [intros []|].
  intros [<-|Hc].
  - simpl. destruct (key ch) as [k|] eqn:Hkey; [|left; now left].
    destruct (existsb _ E) eqn:Hdup; [|left; now left].
    right. exists k. split; [reflexivity|]. left. now apply dup_spec.
  - destruct (IH (E ++ [ch]) Hc) as [Hin|(k & Hk & Hwhere)].
    + left. simpl. apply in_or_app. now right.
    + right. exists k. split; [exact Hk|].
      rewrite omap_snoc in Hwhere. simpl.
      destruct Hwhere as [[HE|Hch]%elem_of_app|Hrest].
      * now left.
      * destruct (key ch) as [k0|] eqn:Hkey; [|now apply elem_of_nil in Hch].
        apply list_elem_of_singleton in Hch as ->.
        destruct (existsb _ E) eqn:Hdup.
        -- left. now apply dup_spec.
        -- right. simpl. rewrite Hkey. now left.
      * right. rewrite omap_app. apply elem_of_app. now right.
Qed.

End MergedFeedInvariants.

Section MergedFeedTheorem.

Import Spec.

Lemma mergedAs_invariants fetch paths :
  let source := concat (List.map (fragmentChannels fetch) paths) in
  let all := mergedAs trimmedUrlKey fetch paths in
  sublist all source
  /\ NoDup (omap trimmedUrlKey all)
  /\ forall c, In c source ->
       In c all
       \/ exists d, In d all /\ trimmedUrlKey d = trimmedUrlKey c
                    /\ trimmedUrlKey c <> None.
Proof.
  intros source all. split; [apply firstOccurrences_sublist|].
  split; [apply firstOccurrences_keys|].
  intros c Hc.
  destruct (firstOccurrences_cover trimmedUrlKey [] source c Hc)
    as [Hin|(k & Hk & [HE|Hin])].
  - now left.
  - now apply elem_of_nil in HE.
  - right. apply list_elem_of_omap in Hin as (d & Hd & Hkd).
    exists d. split; [now apply list_elem_of_In|]. split; congruence.
Qed.

(** X5: whenever a country or category load gets through its fetches, the
    merged feed is a subsequence of the concatenated fragments (nothing is
    reordered or invented), no two of its channels have the same non-blank
    trimmed url, and every channel of every fragment is either in it or
    represented in it by a channel with the same trimmed url. *)
Theorem X5_merged_feed_invariants
        (enc : string -> string) (fetch : string -> FetchResult) :
  (forall cc all,
      mergedCountryFeed fetch cc = Some all ->
      let source := concat (List.map (fragmentChannels fetch)
                                     (countryFragments (getChannelLoadCodes cc))) in
      sublist all source
      /\ NoDup (omap (fun ch => JS.trimmedNonEmpty (ch_url ch)) all)
      /\ forall c, In c source ->
           In c all
           \/ exists d, In d all
                        /\ JS.trimmedNonEmpty (ch_url d) = JS.trimmedNonEmpty (ch_url c)
                        /\ JS.trimmedNonEmpty (ch_url c) <> None) /\
  (forall categoryName all,
      mergedCategoryFeed enc fetch categoryName = Some all ->
      let source := concat (List.map (fragmentChannels fetch)
                                     (categoryPaths enc categoryName)) in
      sublist all source
      /\ NoDup (omap (fun ch => JS.trimmedNonEmpty (ch_url ch)) all)
      /\ forall c, In c source ->
           In c all
           \/ exists d, In d all
                        /\ JS.trimmedNonEmpty (ch_url d) = JS.trimmedNonEmpty (ch_url c)
                        /\ JS.trimmedNonEmpty (ch_url c) <> None).
Proof.
  split.
  - intros cc all Hall. unfold mergedCountryFeed in Hall.
    rewrite loadCodes_paths, merged_paths in Hall.
    destruct (existsb _ _); [discriminate Hall|]. injection Hall as <-.
    apply mergedAs_invariants.
  - intros categoryName all Hall. unfold mergedCategoryFeed in Hall.
    rewrite merged_paths in Hall.
    destruct (existsb _ _); [discriminate Hall|]. injection Hall as <-.
    apply mergedAs_invariants.
Qed.

(** X5 on the two FR fragments of the example. *)
Lemma X5_merged_feed_invariants_witness :
  mergedCountryFeed fetchFR (Some "FR") = Some [tf1] /\
  NoDup (omap (fun ch => JS.trimmedNonEmpty (ch_url ch)) [tf1]).
Proof.
  assert (H : mergedCountryFeed fetchFR (Some "FR") = Some [tf1])
    by (vm_compute; reflexivity).
  split; [exact H|].
  exact (proj1 (proj2 (proj1 (X5_merged_feed_invariants (fun s => s) fetchFR)
                         (Some "FR") [tf1] H))).
Defined.

End MergedFeedTheorem.

(** ** Trimming *)

Section Trimming.

Lemma trimEnd_idem s : JS.trimEnd (JS.trimEnd s) = JS.trimEnd s.
Proof.
  induction s as [|c r IH]; [reflexivity|]. simpl.
  destruct (JS.isSpace c && JS.isEmpty (JS.trimEnd r)) eqn:E; [reflexivity|].
  simpl. now rewrite IH, E.
Qed.

Lemma trimStart_clean s : startsClean (JS.trimStart s) = true.
Proof.
  induction s as [|c r IH]; [reflexivity|]. simpl.
  destruct (JS.isSpace c) eqn:E; [exact IH|]. simpl. now rewrite E.
Qed.

Lemma trimStart_of_clean s : startsClean s = true -> JS.trimStart s = s.
Proof.
  destruct s as [|c r]; [reflexivity|]. simpl.
  intros H%negb_true_iff. now rewrite H.
Qed.

Lemma trimEnd_clean s : startsClean s = true -> startsClean (JS.trimEnd s) = true.
Proof.
  destruct s as [|c r]; [reflexivity|]. simpl.
  intros H. apply negb_true_iff in H as H'. rewrite H'. simpl. exact H.
Qed.

Lemma trim_idem s : JS.trim (JS.trim s) = JS.trim s.
Proof.
  unfold JS.trim.
  rewrite (trimStart_of_clean (JS.trimEnd (JS.trimStart s)))
    by apply trimEnd_clean, trimStart_clean.
  apply trimEnd_idem.
Qed.

Lemma isSpace_toUpperChar c : JS.isSpace (JS.toUpperChar c) = JS.isSpace c.
Proof. destruct c as [[] [] [] [] [] [] [] []]; reflexivity. Qed.

Lemma isSpace_toLowerChar c : JS.isSpace (JS.toLowerChar c) = JS.isSpace c.
Proof. destruct c as [[] [] [] [] [] [] [] []]; reflexivity. Qed.

Lemma isEmpty_mapChars f s : JS.isEmpty (JS.mapChars f s) = JS.isEmpty s.
Proof. destruct s; reflexivity. Qed.

Lemma trim_mapChars (f : ascii -> ascii) s :
  (forall c, JS.isSpace (f c) = JS.isSpace c) ->
  JS.trim (JS.mapChars f s) = JS.mapChars f (JS.trim s).
Proof.
  intros Hf. unfold JS.trim.
  assert (Hstart : forall t, JS.trimStart (JS.mapChars f t) = JS.mapChars f (JS.trimStart t)).
  { induction t as [|c r IH]; [reflexivity|]. simpl. rewrite Hf.
    destruct (JS.isSpace c); [exact IH|reflexivity]. }
  assert (Hend : forall t, JS.trimEnd (JS.mapChars f t) = JS.mapChars f (JS.trimEnd t)).
  { induction t as [|c r IH]; [reflexivity|]. simpl.
    rewrite Hf, IH, isEmpty_mapChars.
    destruct (JS.isSpace c && JS.isEmpty (JS.trimEnd r)); reflexivity. }
  now rewrite Hstart, Hend.
Qed.

Lemma trim_toUpperCase s : JS.trim (JS.toUpperCase s) = JS.toUpperCase (JS.trim s).
Proof. apply trim_mapChars, isSpace_toUpperChar. Qed.

Lemma trim_toLowerCase s : JS.trim (JS.toLowerCase s) = JS.toLowerCase (JS.trim s).
Proof. apply trim_mapChars, isSpace_toLowerChar. Qed.

Lemma trim_no_blank s :
  JS.allChars (fun c => negb (JS.isSpace c)) s = true -> JS.trim s = s.
Proof.
  intros H. unfold JS.trim.
  assert (Hend : forall t, JS.allChars (fun c => negb (JS.isSpace c)) t = true ->
                           JS.trimEnd t = t).
  { induction t as [|c r IH]; [reflexivity|]. simpl.
    intros [Hc Hr]%andb_prop. apply negb_true_iff in Hc. rewrite Hc. simpl.
    now rewrite IH. }
  rewrite trimStart_of_clean; [now apply Hend|].
  destruct s as [|c r]; [reflexivity|]. simpl in H |- *.
  now apply andb_prop in H as [Hc _].
Qed.

Lemma allChars_impl (p q : ascii -> bool) s :
  (forall c, p c = true -> q c = true) ->
  JS.allChars p s = true -> JS.allChars q s = true.
Proof.
  intros Hpq. induction s as [|c r IH]; [reflexivity|]. simpl.
  intros [Hc Hr]%andb_prop. now rewrite (Hpq c Hc), IH.
Qed.

Lemma slugAllowed_no_blank c : slugAllowed c = true -> negb (JS.isSpace c) = true.
Proof. destruct c as [[] [] [] [] [] [] [] []]; vm_compute; intros; congruence. Qed.

Lemma trim_channelSlug ch : JS.trim (channelSlug ch) = channelSlug ch.
Proof.
  apply trim_no_blank, (allChars_impl slugAllowed); [apply slugAllowed_no_blank|].
  apply channelSlug_allowed.
Qed.

Lemma length_toUpperCase s : String.length (JS.toUpperCase s) = String.length s.
Proof. induction s as [|c r IH]; simpl; [reflexivity|]. now rewrite <- IH. Qed.

Lemma length_toLowerCase s : String.length (JS.toLowerCase s) = String.length s.
Proof. induction s as [|c r IH]; simpl; [reflexivity|]. now rewrite <- IH. Qed.

End Trimming.

(** ** Candidate codes, continued *)

Section CandidateStability.

Lemma orDefault_Some_empty s : JS.orDefault (Some s) "" = s.
Proof. destruct s; reflexivity. Qed.

(** The code derived from a code already trimmed and uppercased is itself. *)
Lemma code_of_code cc :
  let code := JS.toUpperCase (JS.trim (JS.orDefault cc "")) in
  JS.toUpperCase (JS.trim (JS.orDefault (Some code) "")) = code.
Proof.
  intros code. rewrite orDefault_Some_empty. unfold code.
  now rewrite trim_toUpperCase, trim_idem, toUpperCase_idem.
Qed.

Ltac table_cases' H :=
  repeat (apply elem_of_cons in H as [H|H]; [injection H as -> ->|]);
  [..|apply elem_of_nil in H; destruct H].

(** X6: each candidate code returned for a country resolves, in turn, to the
    same candidate list, so that a country is loaded from the same fragments
    whichever of its codes is given. *)
Theorem X6_candidates_stable (cc : option string) (c : string) :
  In c (getChannelLoadCodes cc) ->
  getChannelLoadCodes (Some c) = getChannelLoadCodes cc
  /\ forall fetch trash,
       loadChannelsForCountry fetch trash (Some c)
       = loadChannelsForCountry fetch trash cc.
Proof.
  intros Hin.
  assert (Hcodes : getChannelLoadCodes (Some c) = getChannelLoadCodes cc).
  { pose proof (code_of_code cc) as Hcode. cbv zeta in Hcode.
    rewrite (getChannelLoadCodes_cases cc) in Hin |- *.
    set (code := JS.toUpperCase (JS.trim (JS.orDefault cc ""))) in *.
    destruct (String.length code =? 2) eqn:H2.
    - destruct (ISO2_TO_ISO3 !! code) as [c3|] eqn:E3.
      + destruct Hin as [<-|[<-|[]]].
        * rewrite (getChannelLoadCodes_cases (Some code)), Hcode, H2, E3. reflexivity.
        * apply iso2_table in E3. table_cases' E3; reflexivity.
      + destruct Hin as [<-|[]].
        rewrite (getChannelLoadCodes_cases (Some code)), Hcode, H2, E3. reflexivity.
    - destruct (String.length code =? 3) eqn:H3; [|destruct Hin].
      destruct (ISO3_TO_ISO2_FALLBACK !! code) as [c2|] eqn:E2.
      + destruct Hin as [<-|[<-|[]]].
        * apply iso3_table in E2. table_cases' E2; reflexivity.
        * rewrite (getChannelLoadCodes_cases (Some code)), Hcode, H2, H3, E2. reflexivity.
      + destruct Hin as [<-|[]].
        rewrite (getChannelLoadCodes_cases (Some code)), Hcode, H2, H3, E2. reflexivity. }
  split; [exact Hcodes|].
  intros fetch trash. unfold loadChannelsForCountry, mergedCountryFeed.
  now rewrite Hcodes.
Qed.

(** X6 at the 3-letter candidate of France. *)
Lemma X6_candidates_stable_witness :
  getChannelLoadCodes (Some "FRA") = getChannelLoadCodes (Some "fr").
Proof.
  apply (X6_candidates_stable (Some "fr") "FRA"). right. left. reflexivity.
Defined.

End CandidateStability.

(** ** Country codes of the map *)

Section MapCodes.

Lemma isNumeric_toLowerCase s : isNumeric (JS.toLowerCase s) = isNumeric s.
Proof.
  unfold JS.toLowerCase.
  assert (Hdigits : forall t, JS.allChars JS.isDigitChar (JS.mapChars JS.toLowerChar t)
                              = JS.allChars JS.isDigitChar t).
  { induction t as [|c r IH]; [reflexivity|]. simpl. rewrite IH. f_equal.
    destruct c as [[] [] [] [] [] [] [] []]; reflexivity. }
  destruct s as [|c r]; [reflexivity|].
  unfold isNumeric. cbn [JS.mapChars]. cbv zeta.
  assert (Hdash : JS.isDash (JS.toLowerChar c) = JS.isDash c)
    by (destruct c as [[] [] [] [] [] [] [] []]; reflexivity).
  rewrite Hdash. destruct (JS.isDash c).
  - now rewrite isEmpty_mapChars, (Hdigits r).
  - change (String (JS.toLowerChar c) (JS.mapChars JS.toLowerChar r))
      with (JS.mapChars JS.toLowerChar (String c r)).
    now rewrite isEmpty_mapChars, Hdigits.
Qed.

Lemma name_table k v :
  NAME_TO_ISO_FALLBACK !! k = Some v ->
  (k, v) ∈ [("France", ("FRA", "FR")); ("Portugal", ("PRT", "PT"));
            ("Norway", ("NOR", "NO"))].
Proof. apply elem_of_list_to_map_2. Qed.

Lemma normalizeIso2_usable iso2 iso3 name :
  normalizeIso2 iso2 iso3 name = "" \/ usableIso2 (normalizeIso2 iso2 iso3 name).
Proof.
  unfold normalizeIso2.
  destruct ((String.length (JS.trim iso2) =? 2)
            && negb (isInvalidIso (Some (JS.trim iso2)))) eqn:E.
  - right. apply andb_prop in E as [E1%Nat.eqb_eq E2%negb_true_iff].
    split; [exact E1|]. split; [apply trim_idem|exact E2].
  - destruct (ISO3_TO_ISO2_FALLBACK !! JS.toUpperCase iso3) as [a2|] eqn:E3.
    + right. apply iso3_table in E3.
      repeat (apply elem_of_cons in E3 as [E3|E3];
              [injection E3 as _ ->; repeat split; reflexivity|]).
      apply elem_of_nil in E3. destruct E3.
    + destruct (NAME_TO_ISO_FALLBACK !! name) as [v|] eqn:En; [|now left].
      right. apply name_table in En.
      repeat (apply elem_of_cons in En as [En|En];
              [injection En as _ ->; repeat split; reflexivity|]).
      apply elem_of_nil in En. destruct En.
Qed.

Lemma usable_not_numeric r : usableIso2 r -> isNumeric r = false /\ r <> "" /\ r <> "-9".
Proof.
  intros (Hlen & Htrim & Hvalid). unfold isInvalidIso in Hvalid.
  simpl in Hvalid. rewrite Htrim in Hvalid.
  apply orb_false_iff in Hvalid as [[_ _]%orb_false_iff Hnum].
  split; [exact Hnum|]. split.
  - intros ->. discriminate Hlen.
  - intros ->. discriminate Hnum.
Qed.

(** X7: [normalizeIso2] returns either nothing or a usable 2-character code,
    never a numeric placeholder such as [-99].  For such a code the resolver
    yields a non-empty candidate list headed by the code in upper case, and
    [getFlagUrl] yields a flag address unless the code is [XX]. *)
Theorem X7_map_code_usable (iso2 iso3 name : string) (width : nat) :
  let r := normalizeIso2 iso2 iso3 name in
  r = "" \/
  (String.length r = 2
   /\ isInvalidIso (Some r) = false
   /\ head (getChannelLoadCodes (Some r)) = Some (JS.toUpperCase r)
   /\ (getFlagUrl (Some r) width = None <-> JS.toLowerCase r = "xx")
   /\ (JS.toLowerCase r <> "xx" ->
       getFlagUrl (Some r) width
       = Some (FLAG_CDN +:+ "/w" +:+ pretty width +:+ "/" +:+ JS.toLowerCase r +:+ ".png"))).
Proof.
  intros r. destruct (normalizeIso2_usable iso2 iso3 name) as [E|Husable]; [now left|].
  right. fold r in Husable.
  pose proof Husable as (Hlen & Htrim & Hvalid).
  destruct (usable_not_numeric r Husable) as (Hnum & Hne & Hne9).
  split; [exact Hlen|]. split; [exact Hvalid|]. split.
  - rewrite getChannelLoadCodes_cases. cbv zeta.
    rewrite orDefault_Some_empty, Htrim, length_toUpperCase, Hlen. simpl.
    destruct (ISO2_TO_ISO3 !! JS.toUpperCase r); reflexivity.
  - assert (Hflag : getFlagUrl (Some r) width =
                    if String.eqb (JS.toLowerCase r) "xx" then None
                    else Some (FLAG_CDN +:+ "/w" +:+ pretty width +:+ "/"
                               +:+ JS.toLowerCase r +:+ ".png")).
    { unfold getFlagUrl. rewrite Hlen. simpl.
      destruct r as [|a q] eqn:Er; [congruence|]. rewrite <- Er in *.
      assert (JS.isEmpty r = false) as -> by now rewrite Er.
      destruct (String.eqb_spec r "-9") as [E9|_]; [contradiction|].
      simpl. rewrite isNumeric_toLowerCase, Hnum, orb_false_r. reflexivity. }
    rewrite Hflag. destruct (String.eqb_spec (JS.toLowerCase r) "xx") as [Exx|Exx].
    + split; [tauto|]. intros H. contradiction.
    + split; [|tauto]. split; [discriminate|]. intros H. contradiction.
Qed.

End MapCodes.

(** ** Links written by the player *)

Section ShareLink.

Lemma isEmpty_length s : JS.isEmpty s = true <-> String.length s = 0.
Proof. destruct s; simpl; split; congruence. Qed.

Lemma findChannelBySlug_of_member feed ch :
  In ch feed ->
  exists ch', findChannelBySlug feed (Some (channelSlug ch)) = Some ch'
              /\ channelSlug ch' = channelSlug ch.
Proof.
  intros Hin. unfold findChannelBySlug.
  rewrite channelSlug_nonempty, channelSlug_lower.
  destruct (List.find (fun c => String.eqb (channelSlug c) (channelSlug ch)) feed)
    as [ch'|] eqn:Hfind.
  - exists ch'. split; [reflexivity|].
    apply find_some in Hfind as [_ H]. now apply String.eqb_eq in H.
  - exfalso. apply (find_none _ _ Hfind) in Hin.
    now rewrite String.eqb_refl in Hin.
Qed.

(** X8: the player writes no link for a channel without a stream URL.  For
    a channel with one, opened under a selected country whose code has two
    characters and no blank at either end, the link written reads back as
    that code in upper case and the slug of the channel; followed in a feed
    that holds the channel, it finds a channel with that slug. *)
Theorem X8_share_link (iso2 : string) (ch : Channel) :
  String.length iso2 = 2 ->
  JS.trim iso2 = iso2 ->
  (JS.trimmedNonEmpty (ch_url ch) = None -> playerUrlState (Some iso2) ch = None) /\
  (JS.trimmedNonEmpty (ch_url ch) <> None ->
   exists params,
     playerUrlState (Some iso2) ch = Some params
     /\ getUrlState params
        = mkUrlState (Some (JS.toUpperCase iso2)) (Some (channelSlug ch))
     /\ forall feed, In ch feed ->
          exists ch', findChannelBySlug feed (channel (getUrlState params)) = Some ch'
                      /\ channelSlug ch' = channelSlug ch).
Proof.
  intros Hlen Htrim. split.
  { intros Hurl. unfold playerUrlState. now rewrite Hurl. }
  intros Hurl.
  assert (Hne : JS.isEmpty iso2 = false).
  { apply not_true_is_false. intros H%isEmpty_length. lia. }
  assert (Hparams : playerUrlState (Some iso2) ch
                    = Some [("country", JS.toUpperCase iso2);
                            ("channel", channelSlug ch)]).
  { unfold playerUrlState, setUrlState.
    destruct (JS.trimmedNonEmpty (ch_url ch)) as [url|]; [|congruence].
    rewrite Hne. simpl country. simpl channel.
    cbv beta iota. rewrite Hne, Hlen, channelSlug_nonempty. reflexivity. }
  assert (Hstate : getUrlState [("country", JS.toUpperCase iso2);
                                ("channel", channelSlug ch)]
                   = mkUrlState (Some (JS.toUpperCase iso2)) (Some (channelSlug ch))).
  { unfold getUrlState, paramsGet. cbn [List.find fst snd fmap option_fmap option_map].
    change (String.eqb "country" "country") with true.
    change (String.eqb "country" "channel") with false.
    change (String.eqb "channel" "channel") with true.
    cbn [fmap option_fmap option_map snd].
    assert (Hne' : JS.isEmpty (JS.toUpperCase iso2) = false)
      by (unfold JS.toUpperCase; now rewrite isEmpty_mapChars).
    rewrite trim_toUpperCase, Htrim, toUpperCase_idem, length_toUpperCase, Hlen.
    rewrite Hne', trim_channelSlug, channelSlug_nonempty.
    reflexivity. }
  eexists. split; [exact Hparams|]. split; [exact Hstate|].
  intros feed Hin. rewrite Hstate. simpl. now apply findChannelBySlug_of_member.
Qed.

(** X8 on TF1 in France. *)
Lemma X8_share_link_witness :
  exists params,
    playerUrlState (Some "FR") tf1 = Some params
    /\ getUrlState params = mkUrlState (Some (JS.toUpperCase "FR")) (Some (channelSlug tf1))
    /\ forall feed, In tf1 feed ->
         exists ch', findChannelBySlug feed (channel (getUrlState params)) = Some ch'
                     /\ channelSlug ch' = channelSlug tf1.
Proof.
  apply (proj2 (X8_share_link "FR" tf1 eq_refl eq_refl)). discriminate.
Defined.

End ShareLink.

(** ** Removing a favorite and moving it to the top level *)

Section RemoveAndTopLevel.

Lemma Detached_member m l l' : Detached m l l' -> In m (allEntries l).
Proof.
  induction 1 as [pre post|pre id name ch ch' post _ IH].
  - rewrite allEntries_app. apply in_or_app. right.
    rewrite allEntries_cons. now left.
  - rewrite allEntries_app. apply in_or_app. right.
    rewrite allEntries_folder. right. apply in_or_app. now left.
Qed.

Lemma AppendedIn_folder fid m l l' :
  AppendedIn fid m l l' ->
  exists f, In f (allEntries l) /\ isFolder f = true /\ fav_id f = fid.
Proof.
  induction 1 as [pre name ch post|pre id name ch ch' post _ (f & Hf & Hfold & Hid)].
  - exists (FavFolder fid name ch). split; [|split; reflexivity].
    rewrite allEntries_app. apply in_or_app. right. now left.
  - exists f. split; [|now split].
    rewrite allEntries_app. apply in_or_app. right.
    rewrite allEntries_folder. right. apply in_or_app. now left.
Qed.

Lemma label_id e : fav_id (label e) = fav_id e.
Proof. destruct e; reflexivity. Qed.

Lemma label_isFolder e : isFolder (label e) = isFolder e.
Proof. destruct e; reflexivity. Qed.

Lemma forestIds_labels items : forestIds items = List.map fav_id (labels items).
Proof.
  unfold forestIds, labels. rewrite List.map_map.
  apply List.map_ext. intros e. now rewrite label_id.
Qed.

(** X9: [removeFavoriteById] changes nothing when no entry of the forest
    carries the id; otherwise it takes one entry carrying the id out of the
    array that holds it, together with everything that entry holds, and keeps
    every other entry. *)
Theorem X9_remove_favorite (items : list FavEntry) (id : string) :
  ((forall e, In e (allEntries items) -> fav_id e <> id) ->
   removeFavoriteById items id = None) /\
  ((exists e, In e (allEntries items) /\ fav_id e = id) ->
   exists removed items',
     removeFavoriteById items id = Some items'
     /\ fav_id removed = id
     /\ Detached removed items items'
     /\ Permutation (labels items) (labels [removed] ++ labels items')
     /\ length (allEntries items')
        = length (allEntries items) - S (length (allEntries (childrenOf removed)))).
Proof.
  destruct (removeFrom_sound id items) as [Hsome Hnone].
  unfold removeFavoriteById.
  destruct (removeFrom id items) as [[removed rest]|].
  - destruct (Hsome _ _ eq_refl) as [Hid Hdet]. split.
    + intros Hnot. exfalso. apply (Hnot removed); [|exact Hid].
      now apply (Detached_member removed items rest).
    + intros _. exists removed, rest.
      pose proof (Detached_labels _ _ _ Hdet) as Hperm.
      repeat split; try assumption.
      apply Permutation_length in Hperm.
      rewrite length_app in Hperm. unfold labels in Hperm.
      rewrite !length_map, allEntries_cons, app_nil_r in Hperm.
      simpl in Hperm. lia.
  - split; [reflexivity|].
    intros (e & He & Hid). exfalso. now apply (Hnone eq_refl e He).
Qed.

(** X9 on the sample forest: removing the folder ["f"] takes its two entries
    with it. *)
Lemma X9_remove_favorite_witness :
  exists removed items',
    removeFavoriteById sampleForest "f" = Some items'
    /\ fav_id removed = "f"
    /\ Detached removed sampleForest items'
    /\ Permutation (labels sampleForest) (labels [removed] ++ labels items')
    /\ length (allEntries items')
       = length (allEntries sampleForest) - S (length (allEntries (childrenOf removed))).
Proof.
  apply (proj2 (X9_remove_favorite sampleForest "f")).
  eexists. split; [right; left; reflexivity|reflexivity].
Defined.

Lemma Detached_rest_ids m l l' :
  Detached m l l' ->
  forall f, In f (allEntries l') ->
    exists f0, In f0 (allEntries l) /\ fav_id f0 = fav_id f /\ isFolder f0 = isFolder f.
Proof.
  intros Hdet f Hf.
  pose proof (Detached_labels _ _ _ Hdet) as Hperm.
  assert (Hl : In (label f) (labels l)).
  { apply (Permutation_in _ (Permutation_sym Hperm)), in_or_app. right.
    unfold labels. now apply in_map. }
  apply in_map_iff in Hl as (f0 & Hlab & Hf0).
  exists f0. split; [exact Hf0|].
  now rewrite <- (label_id f0), <- (label_isFolder f0), Hlab, label_id, label_isFolder.
Qed.

(** X10: [moveFavoriteToTopLevel] changes nothing when no entry carries the
    id; otherwise the entry is detached and put last at the top level, and the
    forest keeps the same entries.  [moveFavoriteToFolder] with the id of no
    folder of the forest does exactly the same. *)
Theorem X10_move_to_top_level (items : list FavEntry) (itemId : string) :
  ((forall e, In e (allEntries items) -> fav_id e <> itemId) ->
   moveFavoriteToTopLevel items itemId = None) /\
  ((exists e, In e (allEntries items) /\ fav_id e = itemId) ->
   exists moved rest,
     moveFavoriteToTopLevel items itemId = Some (rest ++ [moved])
     /\ fav_id moved = itemId
     /\ Detached moved items rest
     /\ Permutation (labels items) (labels (rest ++ [moved]))) /\
  (forall folderId,
      (forall f, In f (allEntries items) -> isFolder f = true -> fav_id f <> folderId) ->
      moveFavoriteToFolder items itemId folderId = moveFavoriteToTopLevel items itemId).
Proof.
  destruct (removeFrom_sound itemId items) as [Hsome Hnone].
  unfold moveFavoriteToTopLevel, moveFavoriteToFolder.
  destruct (removeFrom itemId items) as [[moved rest]|].
  - destruct (Hsome _ _ eq_refl) as [Hid Hdet]. split; [|split].
    + intros Hnot. exfalso. apply (Hnot moved); [|exact Hid].
      now apply (Detached_member moved items rest).
    + intros _. exists moved, rest. repeat split; try assumption.
      rewrite (Detached_labels _ _ _ Hdet), labels_app. apply Permutation_app_comm.
    + intros folderId Hno.
      destruct (addToFolder_sound folderId moved rest) as [Hadd _].
      destruct (addToFolder folderId moved rest) as [items'|]; [|reflexivity].
      exfalso. destruct (AppendedIn_folder _ _ _ _ (Hadd _ eq_refl))
        as (f & Hf & Hfold & Hfid).
      destruct (Detached_rest_ids _ _ _ Hdet f Hf) as (f0 & Hf0 & Hid0 & Hfold0).
      apply (Hno f0 Hf0); congruence.
  - split; [reflexivity|]. split; [|reflexivity].
    intros (e & He & Hid). exfalso. now apply (Hnone eq_refl e He).
Qed.

(** X10 on the sample forest: ["b"] leaves its folder for the top level. *)
Lemma X10_move_to_top_level_witness :
  exists moved rest,
    moveFavoriteToTopLevel sampleForest "b" = Some (rest ++ [moved])
    /\ fav_id moved = "b"
    /\ Detached moved sampleForest rest
    /\ Permutation (labels sampleForest) (labels (rest ++ [moved])).
Proof.
  apply (proj1 (proj2 (X10_move_to_top_level sampleForest "b"))).
  eexists. split; [right; right; left; reflexivity|reflexivity].
Defined.

End RemoveAndTopLevel.

(** ** The favorite star *)

Section Star.

Lemma list_find_snoc {A} (P : A -> Prop) `{!forall x, Decision (P x)} (l : list A) x :
  Forall (fun y => ~ P y) l -> P x ->
  list_find P (l ++ [x]) = Some (length l, x).
Proof.
  intros Hl Hx. apply list_find_Some. split; [|split].
  - rewrite lookup_app_r by lia. now rewrite Nat.sub_diag.
  - exact Hx.
  - intros j y Hj Hlt Hy. rewrite lookup_app_l in Hj by exact Hlt.
    rewrite List.Forall_forall in Hl. apply (Hl y); [|exact Hy].
    apply list_elem_of_In, list_elem_of_lookup. now exists j.
Qed.

Lemma delete_snoc {A} (l : list A) x : delete (length l) (l ++ [x]) = l.
Proof. induction l as [|a l IH]; simpl; [reflexivity|]. now rewrite IH. Qed.

Lemma find_snoc_none {A} (p : A -> bool) l x :
  existsb p l = false -> p x = true -> List.find p (l ++ [x]) = Some x.
Proof.
  intros Hl Hx. induction l as [|a l IH]; simpl.
  - now rewrite Hx.
  - simpl in Hl. apply orb_false_iff in Hl as [Ha Hl]. rewrite Ha. now apply IH.
Qed.

(** X11: starring a channel whose key is not in the favorites, with an id
    that no top-level entry carries, and then un-starring it by its key gives
    back the favorites as they were. *)
Theorem X11_star_round_trip (newId : string) (items : list FavEntry) (ch : Channel) :
  isChannelInFavorites items (isoUpper ch) (channelSlug ch) = false ->
  (forall it, In it items -> fav_id it <> newId) ->
  exists items1,
    addChannelToFavorites newId items ch = Some items1
    /\ isChannelInFavorites items1 (isoUpper ch) (channelSlug ch) = true
    /\ removeChannelFromFavorites items1 (isoUpper ch) (channelSlug ch) = Some items.
Proof.
  intros Hout Hfresh.
  set (entry := FavChannel newId (isoUpper ch) (channelSlug ch)
                           (JS.orDefault (ch_name ch) "Channel")).
  assert (Hself : favKeyMatches (JS.toUpperCase (isoUpper ch))
                                (JS.toLowerCase (channelSlug ch)) entry = true).
  { unfold entry. simpl. now rewrite !String.eqb_refl. }
  exists (items ++ [entry]). split; [|split].
  - unfold addChannelToFavorites. now rewrite Hout.
  - unfold isChannelInFavorites. rewrite flatten_app, existsb_app.
    apply orb_true_iff. right. now apply existsb_single.
  - unfold removeChannelFromFavorites. rewrite flatten_app.
    change (flattenFavoriteChannels [entry]) with [entry].
    rewrite (find_snoc_none _ _ entry Hout Hself).
    unfold removeFavoriteById, removeFrom, removeFromArr.
    change (fav_id entry) with newId.
    rewrite (list_find_snoc (fun it => fav_id it = newId) items entry).
    + simpl. now rewrite delete_snoc.
    + apply List.Forall_forall. exact Hfresh.
    + reflexivity.
Qed.

(** X11 on the sample forest and a channel it does not hold. *)
Lemma X11_star_round_trip_witness :
  exists items1,
    addChannelToFavorites "f_9" sampleForest tf1hd = Some items1
    /\ isChannelInFavorites items1 (isoUpper tf1hd) (channelSlug tf1hd) = true
    /\ removeChannelFromFavorites items1 (isoUpper tf1hd) (channelSlug tf1hd)
       = Some sampleForest.
Proof.
  apply (X11_star_round_trip "f_9" sampleForest tf1hd); [reflexivity|].
  intros it [<-|[<-|[<-|[]]]]; discriminate.
Defined.

Lemma NoDup_map_member {A B} (f : A -> B) (l : list A) x y :
  NoDup (List.map f l) -> In x l -> In y l -> f x = f y -> x = y.
Proof.
  induction l as [|a l IH]; [intros _ []|].
  simpl. intros Hnd Hx Hy Hf. apply NoDup_cons in Hnd as [Ha Hnd].
  destruct Hx as [<-|Hx], Hy as [<-|Hy].
  - reflexivity.
  - exfalso. apply Ha. rewrite Hf. apply list_elem_of_In. now apply in_map.
  - exfalso. apply Ha. rewrite <- Hf. apply list_elem_of_In. now apply in_map.
  - now apply IH.
Qed.

Lemma favKeyMatches_label a b e : favKeyMatches a b (label e) = favKeyMatches a b e.
Proof. destruct e; reflexivity. Qed.

Lemma keyCount_labels a b items :
  keyCount a b items = length (List.filter (favKeyMatches a b) (labels items)).
Proof.
  unfold keyCount, labels.
  induction (allEntries items) as [|e l IH]; [reflexivity|].
  simpl. rewrite favKeyMatches_label.
  destruct (favKeyMatches a b e); simpl; now rewrite IH.
Qed.

Lemma filter_length_Permutation {A} (p : A -> bool) l l' :
  Permutation l l' -> length (List.filter p l) = length (List.filter p l').
Proof.
  induction 1 as [|x l l' _ IH|x y l|l l' l'' _ IH1 _ IH2]; simpl.
  - reflexivity.
  - destruct (p x); simpl; now rewrite IH.
  - destruct (p x), (p y); reflexivity.
  - now rewrite IH1.
Qed.

Lemma keyCount_zero a b items :
  keyCount a b items = 0 ->
  existsb (favKeyMatches a b) (flattenFavoriteChannels items) = false.
Proof.
  unfold keyCount. rewrite flatten_channels. intros H.
  induction (allEntries items) as [|e l IH]; [reflexivity|].
  simpl in H |- *. destruct (favKeyMatches a b e) eqn:Hk; [discriminate H|].
  destruct (isFolder e); simpl; [now apply IH|]. rewrite Hk. now apply IH.
Qed.

(** X12: when the ids of the forest are pairwise different, un-starring a key
    that the favorites hold removes exactly one channel entry carrying it; if
    the key occurred once, it is no longer in the favorites afterwards. *)
Theorem X12_unstar (items : list FavEntry) (iso slug : string) :
  NoDup (forestIds items) ->
  isChannelInFavorites items iso slug = true ->
  exists items',
    removeChannelFromFavorites items iso slug = Some items'
    /\ S (keyCount (JS.toUpperCase iso) (JS.toLowerCase slug) items')
       = keyCount (JS.toUpperCase iso) (JS.toLowerCase slug) items
    /\ (keyCount (JS.toUpperCase iso) (JS.toLowerCase slug) items = 1 ->
        isChannelInFavorites items' iso slug = false).
Proof.
  intros Hnd Hin. unfold isChannelInFavorites in Hin.
  unfold removeChannelFromFavorites.
  set (a := JS.toUpperCase iso) in *. set (b := JS.toLowerCase slug) in *.
  destruct (List.find (favKeyMatches a b) (flattenFavoriteChannels items))
    as [entry|] eqn:Hfind.
  2:{ apply existsb_exists in Hin as (x & Hx & Hk).
      now rewrite (find_none _ _ Hfind x Hx) in Hk. }
  apply find_some in Hfind as [Hentry Hmatch].
  rewrite flatten_channels in Hentry. apply filter_In in Hentry as [Hentry _].
  destruct (removeFrom_sound (fav_id entry) items) as [Hsome Hnone].
  unfold removeFavoriteById.
  destruct (removeFrom (fav_id entry) items) as [[moved rest]|].
  2:{ exfalso. now apply (Hnone eq_refl entry Hentry). }
  destruct (Hsome _ _ eq_refl) as [Hid Hdet].
  assert (moved = entry) as ->.
  { apply (NoDup_map_member fav_id (allEntries items)); try assumption.
    now apply (Detached_member moved items rest). }
  exists rest. split; [reflexivity|].
  assert (Hcount : S (keyCount a b rest) = keyCount a b items).
  { rewrite !keyCount_labels.
    rewrite (filter_length_Permutation _ _ _ (Detached_labels _ _ _ Hdet)).
    rewrite List.filter_app, length_app.
    destruct entry as [id i s n|]; [|discriminate Hmatch].
    change (labels [FavChannel id i s n]) with [FavChannel id i s n].
    cbn [List.filter]. rewrite Hmatch. reflexivity. }
  split; [exact Hcount|].
  intros H1. unfold isChannelInFavorites. fold a b.
  apply keyCount_zero. lia.
Qed.

(** X12 on the sample forest: TF1 un-starred. *)
Lemma X12_unstar_witness :
  exists items',
    removeChannelFromFavorites sampleForest "fr" "TF1" = Some items'
    /\ S (keyCount (JS.toUpperCase "fr") (JS.toLowerCase "TF1") items')
       = keyCount (JS.toUpperCase "fr") (JS.toLowerCase "TF1") sampleForest
    /\ (keyCount (JS.toUpperCase "fr") (JS.toLowerCase "TF1") sampleForest = 1 ->
        isChannelInFavorites items' "fr" "TF1" = false).
Proof.
  apply (X12_unstar sampleForest "fr" "TF1"); [|reflexivity].
  apply (bool_decide_unpack _). vm_compute. exact I.
Defined.

End Star.

(** ** Folders offered for a move *)

Section FolderChoice.

Lemma getFavoriteFolders_cons it rest :
  getFavoriteFolders (it :: rest)
  = (if isFolder it then [(fav_id it, JS.orDefault (Some (match it with
                                                         | FavFolder _ name _ => name
                                                         | FavChannel _ _ _ _ => ""
                                                         end)) "Folder")]
     else [])
    ++ getFavoriteFolders (childrenOf it) ++ getFavoriteFolders rest.
Proof. destruct it; reflexivity. Qed.

(** The ids listed are those of the folders of the forest, depth first. *)
Lemma getFavoriteFolders_ids items :
  List.map fst (getFavoriteFolders items)
  = List.map fav_id (List.filter isFolder (allEntries items)).
Proof.
  induction items as [|id iso slug name rest IH|id name children rest IHc IHr]
    using forest_ind.
  - reflexivity.
  - rewrite getFavoriteFolders_cons, allEntries_channel. simpl. exact IH.
  - rewrite getFavoriteFolders_cons, allEntries_folder. simpl.
    rewrite List.filter_app, !List.map_app. now rewrite IHc, IHr.
Qed.

Lemma Detached_keeps_folders m l l' :
  Detached m l l' -> isFolder m = false ->
  forall f, In f (allEntries l) -> isFolder f = true ->
    exists f', In f' (allEntries l') /\ isFolder f' = true /\ fav_id f' = fav_id f.
Proof.
  intros Hdet Hm. induction Hdet as [pre post|pre id name ch ch' post _ IH];
    intros f Hf Hfold.
  - exists f. split; [|now split].
    rewrite allEntries_app in Hf |- *. apply in_app_or in Hf as [Hf|Hf];
      apply in_or_app; [now left|right].
    rewrite allEntries_cons in Hf. destruct Hf as [<-|Hf]; [congruence|].
    destruct m; [exact Hf|discriminate Hm].
  - rewrite allEntries_app in Hf. apply in_app_or in Hf as [Hf|Hf].
    + exists f. split; [|now split]. rewrite allEntries_app. apply in_or_app. now left.
    + rewrite allEntries_folder in Hf.
      destruct Hf as [<-|[Hf|Hf]%in_app_or].
      * exists (FavFolder id name ch'). split; [|split; reflexivity].
        rewrite allEntries_app. apply in_or_app. right. now left.
      * destruct (IH f Hf Hfold) as (f' & Hf' & Hfold' & Hid').
        exists f'. split; [|now split].
        rewrite allEntries_app. apply in_or_app. right.
        rewrite allEntries_folder. right. apply in_or_app. now left.
      * exists f. split; [|now split].
        rewrite allEntries_app. apply in_or_app. right.
        rewrite allEntries_folder. right. apply in_or_app. now right.
Qed.

(** X13: [getFavoriteFolders] lists the folders of the forest, depth first.
    Moving an id carried by channel entries only into a folder it lists puts
    the channel in a folder carrying the chosen id; the top-level fallback is
    not taken. *)
Theorem X13_move_to_listed_folder (items : list FavEntry) (itemId folderId : string) :
  List.map fst (getFavoriteFolders items)
  = List.map fav_id (List.filter isFolder (allEntries items)) /\
  (In folderId (List.map fst (getFavoriteFolders items)) ->
   (exists e, In e (allEntries items) /\ fav_id e = itemId) ->
   (forall e, In e (allEntries items) -> fav_id e = itemId -> isFolder e = false) ->
   exists moved rest items',
     moveFavoriteToFolder items itemId folderId = Some items'
     /\ fav_id moved = itemId
     /\ Detached moved items rest
     /\ AppendedIn folderId moved rest items').
Proof.
  split; [apply getFavoriteFolders_ids|].
  intros Hlisted (e & He & Hide) Hchannels.
  rewrite getFavoriteFolders_ids in Hlisted.
  apply in_map_iff in Hlisted as (f & Hfid & [Hf Hfold]%filter_In).
  destruct (removeFrom_sound itemId items) as [Hsome Hnone].
  unfold moveFavoriteToFolder.
  destruct (removeFrom itemId items) as [[moved rest]|].
  2:{ exfalso. now apply (Hnone eq_refl e He). }
  destruct (Hsome _ _ eq_refl) as [Hid Hdet].
  assert (Hm : isFolder moved = false).
  { apply Hchannels; [|exact Hid]. now apply (Detached_member moved items rest). }
  destruct (Detached_keeps_folders _ _ _ Hdet Hm f Hf Hfold) as (f' & Hf' & Hfold' & Hid').
  destruct (addToFolder_sound folderId moved rest) as [Hadd Hnofolder].
  destruct (addToFolder folderId moved rest) as [items'|].
  - exists moved, rest, items'. repeat split; try assumption. now apply Hadd.
  - exfalso. apply (Hnofolder eq_refl f' Hf' Hfold'). congruence.
Qed.

(** X13 on the sample forest: the channel ["c"] into the listed folder ["g"]. *)
Lemma X13_move_to_listed_folder_witness :
  exists moved rest items',
    moveFavoriteToFolder sampleForest "c" "g" = Some items'
    /\ fav_id moved = "c"
    /\ Detached moved sampleForest rest
    /\ AppendedIn "g" moved rest items'.
Proof.
  apply (proj2 (X13_move_to_listed_folder sampleForest "c" "g")).
  - right. left. reflexivity.
  - eexists. split; [do 4 right; left; reflexivity|reflexivity].
  - intros e [<-|[<-|[<-|[<-|[<-|[]]]]]]; (discriminate || reflexivity).
Defined.

End FolderChoice.

(** ** Unique ids *)

Section UniqueIds.

Lemma forestIds_Permutation l l' :
  Permutation (labels l) (labels l') -> Permutation (forestIds l) (forestIds l').
Proof. intros H. rewrite !forestIds_labels. now apply Permutation_map. Qed.

Lemma NoDup_Permutation_ids l l' :
  Permutation (labels l) (labels l') -> NoDup (forestIds l) -> NoDup (forestIds l').
Proof.
  intros H Hnd. apply forestIds_Permutation in H. now rewrite <- H.
Qed.

Lemma SwappedSiblings_labels x y l l' :
  SwappedSiblings x y l l' -> Permutation (labels l) (labels l').
Proof.
  induction 1 as [pre post|pre id name ch ch' post _ IH].
  - rewrite !labels_app. apply Permutation_app_head.
    rewrite (labels_cons x), (labels_cons y), (labels_cons y (x :: post)), (labels_cons x post).
    apply Permutation_app_swap_app.
  - rewrite !labels_app, !labels_folder, IH. reflexivity.
Qed.

(** A move that is carried out exchanges two neighbours of one array. *)
Lemma moveFavoriteUpDown_swaps items itemId dir items' :
  moveFavoriteUpDown items itemId dir = Some items' ->
  exists x y, SwappedSiblings x y items items'.
Proof.
  intros Hmove.
  destruct (list_find (fun e => fav_id (fst e) = itemId) (flatWithPath items []))
    as [[idx [a pa]]|] eqn:Hfind.
  2:{ unfold moveFavoriteUpDown in Hmove. now rewrite Hfind in Hmove. }
  rewrite (moveFavoriteUpDown_found items itemId dir idx a pa Hfind) in Hmove.
  apply list_find_Some in Hfind as (Hidx & _ & _).
  destruct (String.eqb dir "up" && (idx =? 0)) eqn:E0; [discriminate Hmove|].
  destruct (String.eqb dir "up") eqn:Edir.
  - destruct idx as [|n]; [discriminate E0|].
    replace (S n - 1) with n in Hmove by lia.
    destruct (flatWithPath items [] !! n) as [[b pb]|] eqn:Hb; [|discriminate Hmove].
    destruct (decide (parentPath pa = parentPath pb)) as [Heq|]; [|discriminate Hmove].
    injection Hmove as <-.
    pose proof (adjacent_lookup _ n (b, pb) (a, pa) Hb Hidx) as Hadj.
    destruct (neighboursAreSiblings_all items b pb a pa Hadj (eq_sym Heq))
      as (pp & i & arr & -> & -> & Harr & Hi & HSi).
    rewrite parentPath_snoc, !last_snoc. exists b, a.
    apply (swapInArrayAt_swapped pp items arr i b a Harr Hi HSi).
  - replace (idx + 1) with (S idx) in Hmove by lia.
    destruct (flatWithPath items [] !! S idx) as [[b pb]|] eqn:Hb; [|discriminate Hmove].
    destruct (decide (parentPath pa = parentPath pb)) as [Heq|]; [|discriminate Hmove].
    injection Hmove as <-.
    pose proof (adjacent_lookup _ idx (a, pa) (b, pb) Hidx Hb) as Hadj.
    destruct (neighboursAreSiblings_all items a pa b pb Hadj Heq)
      as (pp & i & arr & -> & -> & Harr & Hi & HSi).
    rewrite parentPath_snoc, !last_snoc. exists a, b.
    apply (swapInArrayAt_swapped pp items arr i a b Harr Hi HSi).
Qed.

Lemma forestIds_app l1 l2 : forestIds (l1 ++ l2) = forestIds l1 ++ forestIds l2.
Proof. unfold forestIds. now rewrite allEntries_app, List.map_app. Qed.

Lemma NoDup_snoc_fresh (l : list string) x : NoDup l -> ~ In x l -> NoDup (l ++ [x]).
Proof.
  intros Hnd Hx. apply NoDup_app. split; [exact Hnd|]. split.
  - intros y Hy Hy'. apply list_elem_of_singleton in Hy' as ->.
    apply Hx. now apply list_elem_of_In.
  - apply NoDup_singleton.
Qed.

(** X14: a forest whose ids are pairwise different keeps pairwise different
    ids through every operation of the store: reordering, moving into a
    folder or to the top level, removing, and adding a channel or a folder
    under an id that is not yet in use. *)
Theorem X14_ids_stay_unique (items : list FavEntry) :
  NoDup (forestIds items) ->
  (forall id dir, NoDup (forestIds (storeAfter items (moveFavoriteUpDown items id dir)))) /\
  (forall id folderId,
      NoDup (forestIds (storeAfter items (moveFavoriteToFolder items id folderId)))) /\
  (forall id, NoDup (forestIds (storeAfter items (moveFavoriteToTopLevel items id)))) /\
  (forall id, NoDup (forestIds (storeAfter items (removeFavoriteById items id)))) /\
  (forall iso slug,
      NoDup (forestIds (storeAfter items (removeChannelFromFavorites items iso slug)))) /\
  (forall newId ch,
      ~ In newId (forestIds items) ->
      NoDup (forestIds (storeAfter items (addChannelToFavorites newId items ch)))) /\
  (forall newId name,
      ~ In newId (forestIds items) -> NoDup (forestIds (addFolder newId items name))).
Proof.
  intros Hnd.
  assert (Hremove : forall id,
             NoDup (forestIds (storeAfter items (removeFavoriteById items id)))).
  { intros id. unfold removeFavoriteById.
    destruct (removeFrom_sound id items) as [Hsome _].
    destruct (removeFrom id items) as [[moved rest]|]; [|exact Hnd].
    destruct (Hsome _ _ eq_refl) as [_ Hdet]. simpl.
    pose proof (Detached_labels _ _ _ Hdet) as Hperm.
    rewrite <- labels_app in Hperm.
    apply (NoDup_Permutation_ids _ _ Hperm) in Hnd.
    rewrite forestIds_app in Hnd. now apply NoDup_app in Hnd as (_ & _ & Hnd). }
  repeat split.
  - intros id dir.
    destruct (moveFavoriteUpDown items id dir) as [items'|] eqn:Hmove; [|exact Hnd].
    destruct (moveFavoriteUpDown_swaps _ _ _ _ Hmove) as (x & y & Hswap).
    exact (NoDup_Permutation_ids _ _ (SwappedSiblings_labels _ _ _ _ Hswap) Hnd).
  - intros id folderId. unfold moveFavoriteToFolder.
    destruct (removeFrom_sound id items) as [Hsome _].
    destruct (removeFrom id items) as [[moved rest]|]; [|exact Hnd].
    destruct (Hsome _ _ eq_refl) as [_ Hdet].
    pose proof (Detached_labels _ _ _ Hdet) as Hperm.
    destruct (addToFolder_sound folderId moved rest) as [Hadd _].
    destruct (addToFolder folderId moved rest) as [items'|]; simpl.
    + apply (NoDup_Permutation_ids items); [|exact Hnd].
      rewrite Hperm, (AppendedIn_labels _ _ _ _ (Hadd _ eq_refl)).
      apply Permutation_app_comm.
    + apply (NoDup_Permutation_ids items); [|exact Hnd].
      rewrite Hperm, labels_app. apply Permutation_app_comm.
  - intros id. unfold moveFavoriteToTopLevel.
    destruct (removeFrom_sound id items) as [Hsome _].
    destruct (removeFrom id items) as [[moved rest]|]; [|exact Hnd].
    destruct (Hsome _ _ eq_refl) as [_ Hdet]. simpl.
    apply (NoDup_Permutation_ids items); [|exact Hnd].
    rewrite (Detached_labels _ _ _ Hdet), labels_app. apply Permutation_app_comm.
  - exact Hremove.
  - intros iso slug. unfold removeChannelFromFavorites.
    destruct (List.find _ _); [apply Hremove|exact Hnd].
  - intros newId ch Hfresh. unfold addChannelToFavorites.
    destruct (isChannelInFavorites items (isoUpper ch) (channelSlug ch)); [exact Hnd|].
    simpl. rewrite forestIds_app. now apply NoDup_snoc_fresh.
  - intros newId name Hfresh. unfold addFolder.
    rewrite forestIds_app. now apply NoDup_snoc_fresh.
Qed.

(** X14 on the sample forest. *)
Lemma X14_ids_stay_unique_witness :
  NoDup (forestIds (storeAfter sampleForest (moveFavoriteToFolder sampleForest "a" "g"))).
Proof.
  apply (proj1 (proj2 (X14_ids_stay_unique sampleForest
                         ltac:(apply (bool_decide_unpack _); vm_compute; exact I)))).
Defined.

End UniqueIds.

(** ** A favorite and the catalog *)

Section FavoriteResolves.

(** X15: the entry that [addChannelToFavorites] stores for a channel resolves,
    in every catalog that holds the channel, to a channel with the same
    uppercased iso and the same slug; it is never reported as no longer
    available. *)
Theorem X15_new_favorite_resolves
        (newId : string) (items items' : list FavEntry) (ch : Channel) :
  addChannelToFavorites newId items ch = Some items' ->
  exists entry,
    items' = items ++ [entry]
    /\ forall cache, In ch cache ->
         exists ch', resolveFavoriteChannel cache entry = Some ch'
                     /\ isoUpper ch' = isoUpper ch
                     /\ channelSlug ch' = channelSlug ch.
Proof.
  unfold addChannelToFavorites.
  destruct (isChannelInFavorites items (isoUpper ch) (channelSlug ch)); [discriminate|].
  intros [= <-]. eexists. split; [reflexivity|].
  intros cache Hin. unfold resolveFavoriteChannel.
  rewrite isoUpper_idem.
  set (mine := List.filter (fun c => String.eqb (isoUpper c) (isoUpper ch)) cache).
  assert (Hmine : In ch mine).
  { apply filter_In. split; [exact Hin|apply String.eqb_refl]. }
  destruct (findChannelBySlug_of_member mine ch Hmine) as (ch' & Hfind & Hslug).
  exists ch'. split; [exact Hfind|]. split; [|exact Hslug].
  unfold findChannelBySlug in Hfind.
  rewrite channelSlug_nonempty in Hfind.
  apply find_some in Hfind as [Hin' _].
  apply filter_In in Hin' as [_ H]. now apply String.eqb_eq in H.
Qed.

(** X15 on TF1 added to empty favorites. *)
Lemma X15_new_favorite_resolves_witness :
  exists entry,
    [FavChannel "f_1" "FR" "tf1" "TF1"] = [] ++ [entry]
    /\ forall cache, In tf1 cache ->
         exists ch', resolveFavoriteChannel cache entry = Some ch'
                     /\ isoUpper ch' = isoUpper tf1
                     /\ channelSlug ch' = channelSlug tf1.
Proof. apply (X15_new_favorite_resolves "f_1" [] _ tf1). reflexivity. Defined.

End FavoriteResolves.

(** ** Filter toggles *)

Section Toggles.

Lemma setAdd_In s x y : In y (setAdd s x) <-> In y s \/ y = x.
Proof.
  unfold setAdd. destruct (bool_decide (x ∈ s)) eqn:E.
  - apply bool_decide_eq_true, list_elem_of_In in E. split; [now left|].
    intros [H| ->]; assumption.
  - rewrite in_app_iff. simpl. split; intros [H|H]; auto.
    destruct H as [<-|[]]. now right.
Qed.

Lemma setAdd_NoDup s x : NoDup s -> NoDup (setAdd s x).
Proof.
  intros Hnd. unfold setAdd. destruct (bool_decide (x ∈ s)) eqn:E; [exact Hnd|].
  apply bool_decide_eq_false in E.
  apply NoDup_snoc_fresh; [exact Hnd|]. intros H. apply E. now apply list_elem_of_In.
Qed.

(** What a loop that adds [g ch] to a set, except for the channels that
    [skip] holds back, leaves in the set. *)
Lemma fold_setAdd (g : Channel -> string) (skip : Channel -> bool) channels :
  forall s, NoDup s ->
    NoDup (fold_left (fun s ch => if skip ch then s else setAdd s (g ch)) channels s)
    /\ forall v,
         In v (fold_left (fun s ch => if skip ch then s else setAdd s (g ch)) channels s)
         <-> In v s \/ exists ch, In ch channels /\ skip ch = false /\ g ch = v.
Proof.
  induction channels as [|c channels IH]; intros s Hnd; simpl.
  - split; [exact Hnd|]. intros v. split; [now left|].
    intros [H|(ch & [] & _)]. exact H.
  - destruct (IH (if skip c then s else setAdd s (g c))) as [IHnd IHin].
    { destruct (skip c); [exact Hnd|now apply setAdd_NoDup]. }
    split; [exact IHnd|]. intros v. rewrite IHin. split.
    + intros [H|(ch & Hch & Hk & Hg)].
      * destruct (skip c) eqn:Hkc; [now left|].
        apply setAdd_In in H as [H| ->]; [now left|].
        right. exists c. split; [now left|]. now split.
      * right. exists ch. split; [now right|]. now split.
    + intros [H|(ch & [<-|Hch] & Hk & Hg)].
      * left. destruct (skip c); [exact H|apply setAdd_In; now left].
      * left. rewrite Hk. apply setAdd_In. now right.
      * right. exists ch. now split.
Qed.

Lemma typeSet_spec channels :
  NoDup (typeSet channels)
  /\ forall v, In v (typeSet channels) <-> exists ch, In ch channels /\ typeNorm ch = v.
Proof.
  destruct (fold_setAdd typeNorm (fun _ => false) channels [] (NoDup_nil_2 (A := string)))
    as [Hnd Hin].
  split; [exact Hnd|]. intros v.
  unfold typeSet. rewrite (Hin v). split.
  - intros [[]|(ch & Hch & _ & Hg)]. now exists ch.
  - intros (ch & Hch & Hg). right. now exists ch.
Qed.

Lemma sourceSet_spec channels :
  NoDup (sourceSet channels)
  /\ forall v, In v (sourceSet channels) <->
               v <> "" /\ exists ch, In ch channels /\ sourceNorm ch = v.
Proof.
  destruct (fold_setAdd sourceNorm (fun ch => JS.isEmpty (sourceNorm ch))
                        channels [] (NoDup_nil_2 (A := string))) as [Hnd Hin].
  split; [exact Hnd|]. intros v.
  unfold sourceSet. rewrite (Hin v). split.
  - intros [[]|(ch & Hch & Hk & Hg)]. split; [|now exists ch].
    intros ->. rewrite Hg in Hk. discriminate Hk.
  - intros (Hne & ch & Hch & Hg). right. exists ch. split; [exact Hch|].
    split; [|exact Hg]. rewrite Hg. destruct v; [congruence|reflexivity].
Qed.

Lemma insertSorted_Permutation x l : Permutation (insertSorted x l) (x :: l).
Proof.
  induction l as [|y l IH]; simpl; [reflexivity|].
  destruct (String.leb x y); [reflexivity|].
  rewrite IH. apply perm_swap.
Qed.

Lemma sortStrings_Permutation l : Permutation (sortStrings l) l.
Proof.
  induction l as [|x l IH]; simpl; [reflexivity|].
  now rewrite insertSorted_Permutation, IH.
Qed.

Lemma toggleOptions_spec values :
  NoDup values ->
  NoDup (toggleOptions values)
  /\ forall v, In v (toggleOptions values) <-> v = "" \/ In v values.
Proof.
  intros Hnd. unfold toggleOptions. split.
  - apply NoDup_cons. split.
    + intros H%list_elem_of_In. apply filter_In in H as [_ H]. discriminate H.
    + apply NoDup_ListNoDup, List.NoDup_filter, NoDup_ListNoDup, Hnd.
  - intros v. simpl. rewrite filter_In. split.
    + intros [<-|[H _]]; [now left|now right].
    + intros [->|H]; [now left|].
      destruct (String.eqb_spec v "") as [->|Hne]; [now left|].
      right. split; [exact H|reflexivity].
Qed.

(** X16: the type toggles are "All" and, once each, the types of the listed
    channels; the source toggles are "All" and, once each, their non-empty
    source names.  So every toggle other than "All" keeps at least one listed
    channel when the other filter is on "All" and the text box is empty, and
    "All" on both with an empty text box keeps every channel. *)
Theorem X16_filter_toggles (channels : list Channel) :
  (NoDup (typeToggles channels)
   /\ forall v, In v (typeToggles channels) <->
                v = "" \/ exists ch, In ch channels /\ typeNorm ch = v) /\
  (NoDup (sourceToggles channels)
   /\ forall v, In v (sourceToggles channels) <->
                v = "" \/ exists ch, In ch channels /\ sourceNorm ch = v) /\
  (forall v, In v (typeToggles channels) -> v <> "" ->
             exists ch, In ch channels /\ keptByFilter (mkFilter v "" "") ch = true) /\
  (forall v, In v (sourceToggles channels) -> v <> "" ->
             exists ch, In ch channels /\ keptByFilter (mkFilter "" v "") ch = true) /\
  (forall ch, keptByFilter (mkFilter "" "" "") ch = true).
Proof.
  destruct (typeSet_spec channels) as [Htnd Htin].
  destruct (sourceSet_spec channels) as [Hsnd Hsin].
  assert (Hsorted : NoDup (sortStrings (sourceSet channels))).
  { now rewrite sortStrings_Permutation. }
  destruct (toggleOptions_spec _ Htnd) as [Htognd Htogin].
  destruct (toggleOptions_spec _ Hsorted) as [Hsognd Hsogin].
  assert (Htype : forall v, In v (typeToggles channels) <->
                            v = "" \/ exists ch, In ch channels /\ typeNorm ch = v).
  { intros v. unfold typeToggles. now rewrite Htogin, Htin. }
  assert (Hsource : forall v, In v (sourceToggles channels) <->
                              v = "" \/ exists ch, In ch channels /\ sourceNorm ch = v).
  { intros v. unfold sourceToggles. rewrite Hsogin.
    split.
    - intros [H|H]; [now left|]. right.
      apply (Permutation_in _ (sortStrings_Permutation _)) in H. now apply Hsin in H.
    - intros [H|(ch & Hch & Hg)]; [now left|].
      destruct (String.eqb_spec v "") as [->|Hne]; [now left|]. right.
      apply (Permutation_in _ (Permutation_sym (sortStrings_Permutation _))).
      apply Hsin. split; [exact Hne|]. now exists ch. }
  split; [split; [exact Htognd|exact Htype]|].
  split; [split; [exact Hsognd|exact Hsource]|].
  split; [|split].
  - intros v Hv Hne. apply Htype in Hv as [->|(ch & Hch & Hg)]; [congruence|].
    exists ch. split; [exact Hch|]. apply keptByFilter_amended.
    split; [now right|]. split; now left.
  - intros v Hv Hne. apply Hsource in Hv as [->|(ch & Hch & Hg)]; [congruence|].
    exists ch. split; [exact Hch|]. apply keptByFilter_amended.
    split; [now left|]. split; [now right|now left].
  - intros ch. apply keptByFilter_amended. split; [now left|]. split; now left.
Qed.

End Toggles.

(** ** Player *)

Section Player.

(** X17: the player refuses a channel exactly when its url is missing, empty
    or blank, the channels that the loaders never deduplicate; whenever it
    points a frame at a webcam or a YouTube stream, the address starts with
    [http], a bare identifier being completed into an embed address; and every
    other player is given the trimmed url itself. *)
Theorem X17_player_source (env : PlayerEnv) (channel : Channel) :
  (openPlayerModal env channel = NoStreamUrl
   <-> JS.trimmedNonEmpty (ch_url channel) = None) /\
  (forall src,
      openPlayerModal env channel = WebcamFrame src
      \/ openPlayerModal env channel = YoutubeFrame src ->
      JS.startsWith "http" src = true) /\
  (forall src,
      openPlayerModal env channel = WebcamPicture src
      \/ openPlayerModal env channel = AudioStream src
      \/ openPlayerModal env channel = HlsJsStream src
      \/ openPlayerModal env channel = NativeHlsStream src
      \/ openPlayerModal env channel = VideoStream src ->
      JS.trimmedNonEmpty (ch_url channel) = Some src).
Proof.
  unfold openPlayerModal.
  destruct (JS.trimmedNonEmpty (ch_url channel)) as [url|].
  2:{ split; [tauto|]. split; intros src H; repeat destruct H as [H|H]; discriminate H. }
  split; [|split].
  - split; [|discriminate].
    repeat match goal with |- context [if ?b then _ else _] => destruct b end;
      discriminate.
  - intros src H.
    destruct (JS.startsWith "http" url) eqn:Ehttp;
      repeat match type of H with context [if ?b then _ else _] => destruct b end;
      destruct H as [H|H]; try discriminate H; injection H as <-;
        first [exact Ehttp|reflexivity].
  - intros src H.
    repeat match type of H with context [if ?b then _ else _] => destruct b end;
      repeat destruct H as [H|H]; try discriminate H; now injection H as <-.
Qed.

End Player.

(** ** Category search *)

Section CategorySearch.

Lemma mapChars_append f s t :
  JS.mapChars f (s +:+ t) = JS.mapChars f s +:+ JS.mapChars f t.
Proof.
  induction s as [|c s IH]; [reflexivity|].
  rewrite append_cons. simpl. rewrite IH. reflexivity.
Qed.

Lemma trimStart_suffix s : exists pre, s = pre +:+ JS.trimStart s.
Proof.
  induction s as [|c r [pre IH]]; [now exists ""|]. simpl.
  destruct (JS.isSpace c); [|now exists ""].
  exists (String c pre). rewrite append_cons. now rewrite <- IH.
Qed.

Lemma trimEnd_prefix s : exists post, s = JS.trimEnd s +:+ post.
Proof.
  induction s as [|c r [post IH]]; [now exists ""|]. simpl.
  destruct (JS.isSpace c && JS.isEmpty (JS.trimEnd r)).
  - now exists (String c r).
  - exists post. rewrite append_cons. now rewrite <- IH.
Qed.

(** A string holds its own trimmed form. *)
Lemma occursIn_trim s : Spec.occursIn (JS.trim s) s.
Proof.
  destruct (trimStart_suffix s) as [pre Hpre].
  destruct (trimEnd_prefix (JS.trimStart s)) as [post Hpost].
  exists (JS.toLowerCase pre), (JS.toLowerCase post).
  unfold JS.toLowerCase. rewrite <- !mapChars_append. f_equal.
  unfold JS.trim. now rewrite <- Hpost.
Qed.

Lemma renderCategoryList_In cache filter name :
  In name (renderCategoryList cache filter) <->
  In name cache
  /\ (JS.trim (JS.orDefault filter "") = ""
      \/ Spec.occursIn (JS.trim (JS.orDefault filter "")) name).
Proof.
  unfold renderCategoryList.
  destruct (JS.isEmpty (JS.toLowerCase (JS.trim (JS.orDefault filter "")))) eqn:E.
  - rewrite toLowerCase_nonempty in E. apply isEmpty_eq in E.
    split; [intros H; split; [exact H|now left]|now intros [H _]].
  - rewrite toLowerCase_nonempty in E.
    rewrite filter_In, includes_occursIn. split.
    + intros [H1 H2]. split; [exact H1|now right].
    + intros [H1 [H2|H2]]; [|now split].
      apply isEmpty_eq in H2. congruence.
Qed.

(** X18: the category search shows, in the order of the list, the categories
    in which the trimmed text occurs, letter case ignored, and all of them
    for an empty or blank text; typing the name of a category always shows
    that category. *)
Theorem X18_category_search (categoriesCache : list string) :
  (forall filter, sublist (renderCategoryList categoriesCache filter) categoriesCache) /\
  (forall filter name,
      In name (renderCategoryList categoriesCache filter) <->
      In name categoriesCache
      /\ (JS.trim (JS.orDefault filter "") = ""
          \/ Spec.occursIn (JS.trim (JS.orDefault filter "")) name)) /\
  (forall filter,
      JS.trim (JS.orDefault filter "") = "" ->
      renderCategoryList categoriesCache filter = categoriesCache) /\
  (forall name,
      In name categoriesCache ->
      In name (renderCategoryList categoriesCache (Some name))).
Proof.
  split; [|split; [|split]].
  - intros filter. unfold renderCategoryList.
    destruct (JS.isEmpty _); [reflexivity|].
    induction categoriesCache as [|c l IH]; simpl; [constructor|].
    destruct (JS.includes _ _); [now apply sublist_skip|now apply sublist_cons].
  - intros filter name. apply renderCategoryList_In.
  - intros filter H. unfold renderCategoryList. now rewrite H.
  - intros name Hin. apply renderCategoryList_In. split; [exact Hin|].
    right. rewrite orDefault_Some_empty. apply occursIn_trim.
Qed.

End CategorySearch.

(** ** What a reordering can exchange *)

Section ReorderShape.

Lemma shiftHead_snoc k p i : p <> [] -> shiftHead k (p ++ [i]) = shiftHead k p ++ [i].
Proof. destruct p; [congruence|reflexivity]. Qed.

(** In the flattened sequence an entry that holds something is followed by
    the first entry it holds. *)
Lemma flat0_first_child items :
  forall n b pb c cs,
    flat0 items !! n = Some (b, pb) -> childrenOf b = c :: cs ->
    flat0 items !! S n = Some (c, pb ++ [0]).
Proof.
  induction items as [|id iso slug name rest IH|id name children rest IHc IHr]
    using forest_ind; intros n b pb c cs Hn Hb.
  - discriminate Hn.
  - rewrite flat0_cons in Hn |- *.
    change (flat0 (childrenOf (FavChannel id iso slug name)))
      with (@nil (FavEntry * Path)) in Hn |- *.
    cbn [List.map app] in Hn |- *.
    destruct n as [|n]; [injection Hn as <- <-; discriminate Hb|].
    cbn [lookup list_lookup] in Hn |- *.
    change (List.map (fun e => (e.1, shiftHead 1 e.2)) (flat0 rest) !! n
            = Some (b, pb)) in Hn.
    rewrite list_lookup_fmap in Hn.
    destruct (flat0 rest !! n) as [[b' pb']|] eqn:Hn'; [|discriminate Hn].
    injection Hn as <- <-.
    change ((List.map (fun e => (e.1, shiftHead 1 e.2)) (flat0 rest)) !! S n
            = Some (c, shiftHead 1 pb' ++ [0])).
    rewrite list_lookup_fmap, (IH n b' pb' c cs Hn' Hb). simpl. f_equal. f_equal.
    apply shiftHead_snoc.
    apply (flat0_path_nonempty rest b'), list_elem_of_In, list_elem_of_lookup.
    now exists n.
  - rewrite flat0_cons in Hn |- *. cbn [childrenOf] in Hn |- *.
    destruct n as [|n].
    + injection Hn as <- <-. simpl in Hb. subst children.
      cbn [lookup list_lookup]. rewrite flat0_cons. reflexivity.
    + cbn [lookup list_lookup] in Hn |- *.
      set (C := List.map (fun e => (e.1, 0 :: e.2)) (flat0 children)) in *.
      set (R := List.map (fun e => (e.1, shiftHead 1 e.2)) (flat0 rest)) in *.
      change ((C ++ R) !! n = Some (b, pb)) in Hn.
      change ((C ++ R) !! S n = Some (c, pb ++ [0])).
      destruct (decide (n < length C)) as [Hlt|Hge].
      * rewrite lookup_app_l in Hn by exact Hlt.
        unfold C in Hn. rewrite list_lookup_fmap in Hn.
        destruct (flat0 children !! n) as [[b' pb']|] eqn:Hn'; [|discriminate Hn].
        injection Hn as <- <-.
        pose proof (IHc n b' pb' c cs Hn' Hb) as Hnext.
        assert (HC : C !! S n = Some (c, (0 :: pb') ++ [0])).
        { unfold C. rewrite list_lookup_fmap, Hnext. reflexivity. }
        rewrite lookup_app_l; [exact HC|]. now apply lookup_lt_Some in HC.
      * rewrite lookup_app_r in Hn by lia.
        unfold R in Hn. rewrite list_lookup_fmap in Hn.
        destruct (flat0 rest !! (n - length C)) as [[b' pb']|] eqn:Hn'; [|discriminate Hn].
        injection Hn as <- <-.
        pose proof (IHr _ b' pb' c cs Hn' Hb) as Hnext.
        rewrite lookup_app_r by lia.
        replace (S n - length C) with (S (n - length C)) by lia.
        unfold R. rewrite list_lookup_fmap, Hnext. simpl. f_equal. f_equal.
        apply shiftHead_snoc.
        apply (flat0_path_nonempty rest b'), list_elem_of_In, list_elem_of_lookup.
        eexists; exact Hn'.
Qed.

Lemma holds_nothing_before_sibling items n x px y pp i :
  flat0 items !! n = Some (x, px) -> px = pp ++ [i] ->
  flat0 items !! S n = Some (y, pp ++ [S i]) ->
  childrenOf x = [].
Proof.
  intros Hx -> Hy. destruct (childrenOf x) as [|c cs] eqn:Hc; [reflexivity|].
  rewrite (flat0_first_child items n x _ c cs Hx Hc) in Hy.
  injection Hy as _ Hp. apply (f_equal (@length nat)) in Hp.
  rewrite !length_app in Hp. simpl in Hp. lia.
Qed.

(** X19: a reordering that is carried out exchanges, inside one array, an
    entry that holds nothing with the entry right after it, the entry named
    being the first of the two when moved down and the second when moved up;
    the forest keeps the same entries.  So a folder that holds entries is
    never moved down, and no entry is moved up past such a folder. *)
Theorem X19_reorder_shape (items items' : list FavEntry) (itemId dir : string) :
  moveFavoriteUpDown items itemId dir = Some items' ->
  exists x y,
    SwappedSiblings x y items items'
    /\ childrenOf x = []
    /\ fav_id (if String.eqb dir "up" then y else x) = itemId
    /\ Permutation (labels items) (labels items').
Proof.
  intros Hmove.
  destruct (list_find (fun e => fav_id (fst e) = itemId) (flatWithPath items []))
    as [[idx [a pa]]|] eqn:Hfind.
  2:{ unfold moveFavoriteUpDown in Hmove. now rewrite Hfind in Hmove. }
  rewrite (moveFavoriteUpDown_found items itemId dir idx a pa Hfind) in Hmove.
  apply list_find_Some in Hfind as (Hidx & Hid & _). simpl in Hid.
  destruct (String.eqb dir "up" && (idx =? 0)) eqn:E0; [discriminate Hmove|].
  destruct (String.eqb dir "up") eqn:Edir.
  - destruct idx as [|n]; [discriminate E0|].
    replace (S n - 1) with n in Hmove by lia.
    destruct (flatWithPath items [] !! n) as [[b pb]|] eqn:Hb; [|discriminate Hmove].
    destruct (decide (parentPath pa = parentPath pb)) as [Heq|]; [|discriminate Hmove].
    injection Hmove as <-.
    pose proof (adjacent_lookup _ n (b, pb) (a, pa) Hb Hidx) as Hadj.
    destruct (neighboursAreSiblings_all items b pb a pa Hadj (eq_sym Heq))
      as (pp & i & arr & -> & -> & Harr & Hi & HSi).
    rewrite parentPath_snoc, !last_snoc. exists b, a.
    pose proof (proj2 (swapInArrayAt_swapped pp items arr i b a Harr Hi HSi)) as Hswap.
    split; [exact Hswap|]. split.
    + now apply (holds_nothing_before_sibling items n b (pp ++ [i]) a pp i).
    + split; [exact Hid|]. now apply (SwappedSiblings_labels b a).
  - replace (idx + 1) with (S idx) in Hmove by lia.
    destruct (flatWithPath items [] !! S idx) as [[b pb]|] eqn:Hb; [|discriminate Hmove].
    destruct (decide (parentPath pa = parentPath pb)) as [Heq|]; [|discriminate Hmove].
    injection Hmove as <-.
    pose proof (adjacent_lookup _ idx (a, pa) (b, pb) Hidx Hb) as Hadj.
    destruct (neighboursAreSiblings_all items a pa b pb Hadj Heq)
      as (pp & i & arr & -> & -> & Harr & Hi & HSi).
    rewrite parentPath_snoc, !last_snoc. exists a, b.
    pose proof (proj1 (swapInArrayAt_swapped pp items arr i a b Harr Hi HSi)) as Hswap.
    split; [exact Hswap|]. split.
    + now apply (holds_nothing_before_sibling items idx a (pp ++ [i]) b pp i).
    + split; [exact Hid|]. now apply (SwappedSiblings_labels a b).
Qed.

(** X19 on the sample forest: ["a"], which holds nothing, passes the folder
    ["f"]. *)
Lemma X19_reorder_shape_witness :
  exists x y,
    SwappedSiblings x y sampleForest
      [FavFolder "f" "News" [FavChannel "b" "FR" "france-24" "France 24";
                             FavFolder "g" "Empty" []];
       FavChannel "a" "FR" "tf1" "TF1";
       FavChannel "c" "DE" "zdf" "ZDF"]
    /\ childrenOf x = []
    /\ fav_id (if String.eqb "down" "up" then y else x) = "a"
    /\ Permutation (labels sampleForest)
         (labels [FavFolder "f" "News" [FavChannel "b" "FR" "france-24" "France 24";
                                        FavFolder "g" "Empty" []];
                  FavChannel "a" "FR" "tf1" "TF1";
                  FavChannel "c" "DE" "zdf" "ZDF"]).
Proof. apply (X19_reorder_shape sampleForest _ "a" "down"). reflexivity. Defined.

End ReorderShape.

(** ** Filing a favorite in a folder that was just created *)

Section NewFolder.

Lemma removeLoop_app on arr extra moved rest :
  removeLoop on arr = Some (moved, rest) ->
  removeLoop on (arr ++ extra) = Some (moved, rest ++ extra).
Proof.
  revert rest. induction arr as [|it arr IH]; intros rest; [discriminate|].
  simpl. destruct (on it) as [[m it']|].
  - intros [= <- <-]. reflexivity.
  - destruct (removeLoop on arr) as [[m rest']|]; [|discriminate].
    intros [= <- <-]. now rewrite (IH rest' eq_refl).
Qed.

Lemma delete_app_lt {A} (l1 l2 : list A) i :
  i < length l1 -> delete i (l1 ++ l2) = delete i l1 ++ l2.
Proof.
  revert i. induction l1 as [|a l1 IH]; intros i Hi; simpl in Hi; [lia|].
  destruct i as [|i]; [reflexivity|].
  simpl. f_equal. apply IH. lia.
Qed.

(** Entries added after the array do not change what [removeFrom] detaches,
    as long as none of them carries the id at the top level. *)
Lemma removeFrom_app itemId arr extra moved rest :
  Forall (fun x => fav_id x <> itemId) extra ->
  removeFrom itemId arr = Some (moved, rest) ->
  removeFrom itemId (arr ++ extra) = Some (moved, rest ++ extra).
Proof.
  intros Hextra. unfold removeFrom, removeFromArr.
  destruct (list_find (fun it => fav_id it = itemId) arr) as [[idx m]|] eqn:Hfind.
  - intros [= <- <-].
    erewrite list_find_app_l by exact Hfind.
    apply list_find_Some in Hfind as (Hidx & _).
    rewrite delete_app_lt; [reflexivity|]. now apply lookup_lt_Some in Hidx.
  - intros Hloop. erewrite list_find_app_r by exact Hfind.
    assert (Hnone : list_find (fun it => fav_id it = itemId) extra = None)
      by now apply list_find_None.
    rewrite Hnone. simpl. now apply removeLoop_app.
Qed.

(** When no folder of the array carries the id, [addToFolder] goes on with
    the entries that follow. *)
Lemma addToFolder_app folderId moved arr extra :
  addToFolder folderId moved arr = None ->
  addToFolder folderId moved (arr ++ extra)
  = app arr <$> addToFolder folderId moved extra.
Proof.
  induction arr as [|id iso slug name rest IH|id name children rest _ IHr]
    using forest_ind; intros Hnone.
  - simpl. now destruct (addToFolder folderId moved extra).
  - rewrite addToFolder_channel in Hnone.
    change ((FavChannel id iso slug name :: rest) ++ extra)
      with (FavChannel id iso slug name :: (rest ++ extra)).
    rewrite addToFolder_channel.
    destruct (addToFolder folderId moved rest); [discriminate Hnone|].
    rewrite (IH eq_refl). now destruct (addToFolder folderId moved extra).
  - rewrite addToFolder_folder in Hnone.
    change ((FavFolder id name children :: rest) ++ extra)
      with (FavFolder id name children :: (rest ++ extra)).
    rewrite addToFolder_folder.
    destruct (String.eqb id folderId); [discriminate Hnone|].
    destruct (addToFolder folderId moved children); [discriminate Hnone|].
    destruct (addToFolder folderId moved rest); [discriminate Hnone|].
    rewrite (IHr eq_refl). now destruct (addToFolder folderId moved extra).
Qed.

Lemma orDefault_nonempty x d : JS.isEmpty d = false -> JS.isEmpty (JS.orDefault x d) = false.
Proof.
  intros Hd. unfold JS.orDefault. destruct x as [s|]; [|exact Hd].
  now destruct (JS.isEmpty s) eqn:E.
Qed.

Lemma getFavoriteFolders_app l1 l2 :
  getFavoriteFolders (l1 ++ l2) = getFavoriteFolders l1 ++ getFavoriteFolders l2.
Proof.
  induction l1 as [|it l1 IH]; [reflexivity|].
  change ((it :: l1) ++ l2) with (it :: (l1 ++ l2)).
  rewrite !getFavoriteFolders_cons, IH. now rewrite <- !app_assoc.
Qed.

(** X20: a folder created with an id that no entry carries is listed last by
    [getFavoriteFolders], under the name it was given (["New folder"] when
    none was).  Moving into it an entry that [removeFrom] detaches from the
    old forest leaves the rest of the old forest followed by the new folder,
    which holds exactly that entry. *)
Theorem X20_file_in_new_folder (items : list FavEntry) (newId itemId : string)
    (name : option string) (moved : FavEntry) (rest : list FavEntry) :
  (forall e, In e (allEntries items) -> fav_id e <> newId) ->
  removeFrom itemId items = Some (moved, rest) ->
  getFavoriteFolders (addFolder newId items name)
  = getFavoriteFolders items ++ [(newId, JS.orDefault name "New folder")]
  /\ moveFavoriteToFolder (addFolder newId items name) itemId newId
     = Some (rest ++ [FavFolder newId (JS.orDefault name "New folder") [moved]]).
Proof.
  intros Hfresh Hrem. split.
  - unfold addFolder. rewrite getFavoriteFolders_app. f_equal.
    rewrite getFavoriteFolders_cons. cbn [isFolder fav_id getFavoriteFolders foldersLoop app].
    unfold JS.orDefault at 1.
    now rewrite (orDefault_nonempty name "New folder" eq_refl).
  - destruct (proj1 (removeFrom_sound itemId items) _ _ Hrem) as [Hid Hdet].
    assert (Hne : newId <> itemId).
    { intros ->. apply (Hfresh moved); [|exact Hid].
      now apply (Detached_member moved items rest). }
    unfold moveFavoriteToFolder, addFolder.
    rewrite (removeFrom_app itemId items _ moved rest); [|now repeat constructor|exact Hrem].
    assert (Hnone : addToFolder newId moved rest = None).
    { destruct (addToFolder_sound newId moved rest) as [Hadd _].
      destruct (addToFolder newId moved rest) as [items'|]; [|reflexivity].
      exfalso.
      destruct (AppendedIn_folder _ _ _ _ (Hadd _ eq_refl)) as (f & Hf & _ & Hfid).
      destruct (Detached_rest_ids _ _ _ Hdet f Hf) as (f0 & Hf0 & Hid0 & _).
      apply (Hfresh f0 Hf0). congruence. }
    rewrite (addToFolder_app newId moved rest _ Hnone), addToFolder_folder, String.eqb_refl.
    reflexivity.
Qed.

(** X20 on the sample forest: a folder ["n"] created without a name receives
    the channel ["b"] taken out of the folder ["f"]. *)
Lemma X20_file_in_new_folder_witness :
  getFavoriteFolders (addFolder "n" sampleForest None)
  = getFavoriteFolders sampleForest ++ [("n", "New folder")]
  /\ moveFavoriteToFolder (addFolder "n" sampleForest None) "b" "n"
     = Some ([FavChannel "a" "FR" "tf1" "TF1";
              FavFolder "f" "News" [FavFolder "g" "Empty" []];
              FavChannel "c" "DE" "zdf" "ZDF"]
             ++ [FavFolder "n" "New folder" [FavChannel "b" "FR" "france-24" "France 24"]]).
Proof.
  apply (X20_file_in_new_folder sampleForest "n" "b" None
           (FavChannel "b" "FR" "france-24" "France 24")
           [FavChannel "a" "FR" "tf1" "TF1";
            FavFolder "f" "News" [FavFolder "g" "Empty" []];
            FavChannel "c" "DE" "zdf" "ZDF"]).
  - intros e He. vm_compute in He.
    repeat (destruct He as [<-|He]; [discriminate|]). destruct He.
  - reflexivity.
Defined.

End NewFolder.

(** ** The catalog used to resolve favorites *)

Section Catalog.

Lemma catalogLoads_cached fetches cached :
  catalogLoads fetches (Some cached) = repeat cached (length fetches).
Proof.
  induction fetches as [|fetch later IH]; [reflexivity|].
  simpl. now rewrite IH.
Qed.

(** X21: over any sequence of calls, [loadAllChannels] returns no channel
    until a call gets a parsed document, and from that call on returns the
    channels of that document whatever the network does: a failure is not
    remembered, a success is, even with an empty catalog.  While it returns
    no channel, no favorite resolves. *)
Theorem X21_catalog_cache (fetches : list (string -> FetchResult)) :
  (exists failed catalog,
      catalogLoads fetches None
      = repeat [] failed ++ repeat catalog (length fetches - failed)
      /\ failed <= length fetches
      /\ (forall fetch, In fetch (firstn failed fetches) ->
                        fetch "data/channels.json" = NotOk
                        \/ fetch "data/channels.json" = Threw)
      /\ (failed < length fetches ->
          exists fetch c, fetches !! failed = Some fetch
                          /\ fetch "data/channels.json" = OkJson c
                          /\ catalog = default [] c)) /\
  (forall cached, catalogLoads fetches (Some cached) = repeat cached (length fetches)) /\
  (forall entry, resolveFavoriteChannel [] entry = None).
Proof.
  split; [|split; [intros cached; apply catalogLoads_cached|]].
  - induction fetches as [|fetch later (failed & catalog & Hrun & Hle & Hfail & Hok)].
    + exists 0, []. repeat split; [lia| |simpl; lia].
      intros fetch [].
    + cbn [catalogLoads]. unfold loadAllChannels at 1 2.
      destruct (fetch "data/channels.json") as [| |c] eqn:Hfetch.
      * exists (S failed), catalog. cbn [fst snd length]. rewrite Hrun.
        repeat split; [simpl; lia| |].
        -- intros f [<-|Hf]; [now left|now apply Hfail].
        -- intros Hlt. apply Hok. simpl in Hlt. lia.
      * exists (S failed), catalog. cbn [fst snd length]. rewrite Hrun.
        repeat split; [simpl; lia| |].
        -- intros f [<-|Hf]; [now right|now apply Hfail].
        -- intros Hlt. apply Hok. simpl in Hlt. lia.
      * exists 0, (default [] c). cbn [fst snd length].
        rewrite catalogLoads_cached. repeat split; [simpl; lia| |].
        -- intros f [].
        -- intros _. now exists fetch, c.
  - intros [id iso slug name|id name children]; [|reflexivity].
    unfold resolveFavoriteChannel, findChannelBySlug. simpl.
    now destruct (JS.isEmpty slug).
Qed.

End Catalog.
